(* ===== verification/_CoqProject ===== *)
-Q . S2P
Prelude.v
Geometry.v
Points.v
Discovery.v
Merge.v
Materialize.v
NearbyMerge.v
Enhancer.v
Store.v
Getters.v
Scripts.v
GeoKey.v
GeoName.v
GeoQueue.v
GeoCache.v
