(* ===== verification/Prelude.v ===== *)
(** * Verification of the location-clustering engine of owntracks-frontend-tweaked

    This development models, in Rocq, the location data enhancement layer
    of the repository ([src/src/store/locationEnhancer.js]) and the store
    getter that consumes it ([src/src/store/getters.js]), and proves the
    properties that make the clustering engine correct, together with the
    places where the code and its specification part ways.

    ** The program

    [enhanceLocationData] takes a location history (user -> device -> list
    of GPS points) and a clustering configuration.  It first stamps every
    point with four null metadata fields ([node_event_type], [node_event_id],
    [node_event_start], [node_event_end]); when clustering is enabled it
    calls [clusterLocationPoints], which for each device
    - sorts the points by capture time ([tst || timestamp || 0]),
    - discovers clusters with [findLocationClusters], a single-pass loop that
      at each cursor tries [tryCreateVisitCluster] (growing a cluster around
      a running centroid, skipping transient outliers with
      [trySkipTransientPoints]) and otherwise falls back on
      [createTravelCluster],
    - merges runs of adjacent travel clusters
      ([mergeConsecutiveTravelClusters]); the merge of nearby visits
      ([mergeNearbyVisitClusters]) is written but its call is commented
      out,
    - materialises the clusters into output points
      ([processClusterToLocations]): one averaged point per visit, every
      point of a travel with back-filled start/end times, sorted by time.
    Distances are great-circle distances ([calculateDistanceInMeters],
    Haversine formula).

    The other part of the repository with program logic is the
    reverse-geocoding client [src/src/geocoding.js]: [reverseGeocode]
    asks OpenStreetMap's Nominatim service for the name of a place and
    caches it under a key made of the coordinates printed with four
    decimals; [reverseGeocodeWithRateLimit] serialises the requests
    through a queue processed by [processRequestQueue], which keeps 500 ms
    between requests, races each request against a 15 s timeout, and opens
    a circuit breaker for five minutes after three timeouts in a row;
    every caller's promise also has its own 30 s timeout.  The Vuex store
    ([src/src/store/mutations.js], [getters.js]) holds the history and
    the clustering settings.

    ** Files, in dependency order

    - [Prelude.v] (this file): the JavaScript "truthy or" on optional
      numbers, the stable sort by key that models [Array.prototype.sort]
      with a [(a, b) => key a - key b] comparator, the [spans] predicate on
      strictly increasing index lists, association lists (a JavaScript
      object used as a map, in key order), rational sums, list lemmas on
      [mapM], the [locenh] hint database and the development's tactics.
    - [Geometry.v]: coordinates, [calculateDistanceInMeters] (Haversine over
      the Stdlib reals, with ECMAScript's [Math.atan2]) and the [Metric]
      interface through which the clustering engine sees distances; the
      Haversine instance and an executable planar instance used by the
      concrete examples.
    - [Points.v]: the [LocationPoint] record, capture time, metadata reset,
      sorting by time.
    - [Discovery.v]: clusters, [trySkipTransientPoints],
      [tryCreateVisitCluster], [createTravelCluster], [findLocationClusters];
      the loops terminate and never throw (C1), the tiling invariant and its
      counterexample (C2, C3), cluster sizes (C4, C5), the lookahead (C6),
      isolated tracks (C7); a stationary track is a lemma of the file.
    - [Merge.v]: [mergeConsecutiveTravelClusters] refines a structural
      reference (C8); indices kept in order, no two travels adjacent, and
      each run of travels folded into one with its first start and its
      last end (C9-C11); idempotence, untouched visits and an isolated
      track becoming one travel are lemmas of the file.
    - [NearbyMerge.v]: [mergeNearbyVisitClusters], its [processed] set a
      [gset nat], against a reference [mergeNearbyRef] defined by
      well-founded recursion with Equations: the loops compute it (C12)
      and the merge keeps every point index and every travel (C13).  The
      proof runs through [pending], the indexed clusters the loop has
      still to look at.
    - [Materialize.v]: [processClusterToLocations]: totality and time
      order (C14), travel back-fill (C15), visit averaging and ids
      (C16, C17).
    - [Enhancer.v]: [clusterLocationPoints] and [enhanceLocationData] over
      the user -> device history, configuration defaults, the disabled
      round trip and the lost single point (C18-C21).
    - [Store.v]: the state record and [commit] of every mutation, used by
      the getters' theorems.
    - [Getters.v]: [filteredLocationHistory], its coordinates and the
      distance groups; the store's clustering settings never reach the
      engine, and the accuracy filter keeps exactly the precise enough
      points (C22-C25).
    - [Scripts.v]: the data and calls of [src/public/clustering-demo.js]
      and [src/debug_real_data.js]; the demo's disabled run returns its
      generated data and its enabled run puts an event on every point,
      for every draw of [Math.random()].  The debugging script's
      full-pipeline run passes no configuration, so it takes the disabled
      path of C19 and never clusters.
    - [GeoKey.v]: the cache key [toFixed(4)] (C26, C27).
    - [GeoName.v]: the name [reverseGeocode] makes of a Nominatim answer,
      with the string functions and regular expressions it uses (C35, C36).
    - [GeoQueue.v]: the queue as a state machine.  [step] runs one
      macrotask for an event (a call, the rate-limit timer, a fetch
      completion, the race timeout, a promise timeout, clearing the
      cache) up to the next [await]; [run] runs a list of events from
      [initialState], and [reachable] states are those some run reaches.
      The invariants [QInv] and [Inv] are proved for every reachable state
      by induction on the run, from one preservation lemma per operation;
      from them: the queue bound (C28), the 500 ms spacing of requests
      (C29), and the breaker and processor states (C31, C32).  The
      promise invariant [PromiseInv] (each pending caller has an armed
      timer) gives liveness (C30).  C33 and C34 are the error paths the
      findings describe.
    - [GeoCache.v]: [getGeoccodingCacheStats] and the unused
      [legacyReverseGeocodeWithRateLimit] over the same state; the legacy
      function does wait for the rate limit, against its comment.

    ** Modelling choices

    - Latitudes and longitudes are rationals ([Q]); JavaScript doubles and
      their rounding are not modelled.  Capture times are integers ([Z]);
      optional fields of JavaScript objects are [option].
    - Array indices and the size parameters of the configuration are
      natural numbers; the code only uses them as non-negative integers.
    - Loops are Fixpoints with fuel that return [None] when the fuel runs
      out or when the JavaScript code would throw a TypeError; the
      adequacy theorems show that the fuel chosen ([length] of the input
      plus one) is always enough and that no TypeError is raised.  The
      geocoding loop [runLoop] is structural on the queue: each pass
      shifts one request.
    - Time in the geocoding client is an integer clock of milliseconds
      carried by the events; [step] refuses an event that goes back in
      time or whose timer is not due, so every run is a possible
      schedule.  The Nominatim request is not modelled: its answer
      arrives as a [FetchDone] event with the name [reverseGeocode] would
      compute (see [GeoName.nameOf]) or [None].
    - Strings of the geocoding client are sequences of code units below
      256; [toLowerCase] and case-insensitive matching are exact there.

    ** Not modelled

    - Logging ([console.log]), which changes no state.
    - [src/vite.config.js] and [src/vite.config.docker.js]: build and
      dev-server settings, no program logic.
    - [src/tests/locationEnhancer.test.js]: a test harness; the
      behaviours it checks are theorems here (stationary and isolated
      tracks, travel back-fill, visit ids).
    - In [src/public/clustering-demo.js], [testParameters], which only
      prints; in [src/debug_real_data.js], the clustering and distance
      analysis of lines 51-73, which evaluates the Haversine distance on
      doubles and whose output is only printed.
*)

From stdpp Require Import base list options.
From Stdlib Require Import ZArith QArith Sorted Permutation Lia.
From Stdlib Require String.
Local Open Scope nat_scope.

Declare Scope locenh_scope.
Delimit Scope locenh_scope with locenh.

(** The option monad's bind [x <- m ; k] and its pattern form: stdpp's
    bind notation spelt with an ASCII arrow, at the same levels. *)
Notation "x <- y ; z" := (mbind (fun x : _ => z) y)
  (at level 20, y at level 100, z at level 200, only parsing) : stdpp_scope.
Notation "' x <- y ; z" := (mbind (fun x : _ => z) y)
  (at level 20, x pattern, y at level 100, z at level 200, only parsing) : stdpp_scope.

(** Strings are compared by [===]: keys of JavaScript objects and maps. *)
#[export] Instance string_eq_dec : EqDecision String.string := String.string_dec.

Create HintDb locenh discriminated.
Create Rewrite HintDb locenh_rw.

(** ** JavaScript truthiness on optional numbers *)

(** [x || d] where [x] is a number or [undefined]/[null]: [0] and the absent
    value are falsy. *)
Definition js_or (x : option Z) (d : Z) : Z :=
  match x with
  | Some t => if Z.eqb t 0 then d else t
  | None => d
  end.

Notation "x ?|| d" := (js_or x d) (at level 50, left associativity) : locenh_scope.
Local Open Scope locenh_scope.

Lemma js_or_truthy (t d : Z) : t <> 0%Z -> Some t ?|| d = t.
Proof. intros H. simpl. destruct (Z.eqb_spec t 0); [contradiction | reflexivity]. Qed.

Lemma js_or_falsy (x : option Z) (d : Z) : (x = None \/ x = Some 0%Z) -> x ?|| d = d.
Proof. intros [-> | ->]; reflexivity. Qed.

Lemma js_or_cases (x : option Z) (d : Z) :
  (x ?|| d = d) \/ (exists t, x = Some t /\ t <> 0%Z /\ x ?|| d = t).
Proof.
  destruct x as [t|]; simpl; [| by left].
  destruct (Z.eqb_spec t 0); [by left | right; eauto].
Qed.

(** ** Strictly increasing index lists with known ends *)

(** [spans i j l]: [l] is strictly increasing, starts at [i] and ends at
    [j - 1].  It describes the [pointIndices] of a cluster that starts at
    cursor [i] and after which the scan resumes at [j]. *)
Inductive spans : nat -> nat -> list nat -> Prop :=
| spans_one i : spans i (S i) [i]
| spans_cons i k j l : i < k -> spans k j l -> spans i j (i :: l).

#[export] Hint Constructors spans : locenh.

Lemma spans_lt i j l : spans i j l -> i < j.
Proof. induction 1; lia. Qed.

Lemma spans_bounds i j l : spans i j l -> Forall (fun x => i <= x < j) l.
Proof.
  induction 1; constructor; try lia; auto.
  - pose proof (spans_lt _ _ _ H0). lia.
  - eapply Forall_impl; [exact IHspans|]. simpl. lia.
Qed.

Lemma spans_sorted i j l : spans i j l -> StronglySorted lt l.
Proof.
  induction 1; [repeat constructor|constructor; [exact IHspans|]].
  eapply Forall_impl; [apply (spans_bounds _ _ _ H0)|]. simpl. lia.
Qed.

Lemma spans_nonempty i j l : spans i j l -> l <> [].
Proof. by destruct 1. Qed.

Lemma spans_head i j l : spans i j l -> head l = Some i.
Proof. by destruct 1. Qed.

Lemma spans_last i j l : spans i j l -> last l = Some (j - 1).
Proof.
  induction 1; [simpl; f_equal; lia|].
  rewrite last_cons, IHspans. reflexivity.
Qed.

(** Pushing an index at or after the end of the span (line 245). *)
Lemma spans_snoc i j l k : spans i j l -> j <= k -> spans i (S k) (l ++ [k]).
Proof.
  induction 1; intros Hk; simpl.
  - apply spans_cons with k; [lia | constructor].
  - eapply spans_cons; eauto.
Qed.

Lemma spans_seq i m : 0 < m -> spans i (i + m) (seq i m).
Proof.
  revert i. induction m as [|m IH]; intros i Hm; [lia|].
  destruct m as [|m].
  - rewrite Nat.add_1_r. constructor.
  - simpl. apply spans_cons with (S i); [lia|].
    replace (i + S (S m)) with (S i + S m) by lia. apply IH. lia.
Qed.

Lemma spans_length i j l : spans i j l -> length l <= j - i.
Proof. induction 1; simpl; [lia|]. pose proof (spans_lt _ _ _ H0). lia. Qed.

Lemma spans_head_in i j l : spans i j l -> In i l.
Proof. destruct 1; simpl; auto. Qed.

Lemma spans_last_in i j l : spans i j l -> In (j - 1) l.
Proof.
  intros H. apply spans_last in H. apply last_Some in H as [l' ->].
  apply in_or_app. right. left. reflexivity.
Qed.

#[export] Hint Resolve spans_seq spans_lt spans_nonempty spans_head_in spans_last_in : locenh.

Lemma last_seq (i m : nat) : last (seq i (S m)) = Some (i + m).
Proof. rewrite seq_S. apply last_snoc. Qed.

(** ** Array reads that stay in range *)

Lemma Permutation_list_filter {A} (f : A -> bool) (l l' : list A) :
  Permutation l l' -> Permutation (List.filter f l) (List.filter f l').
Proof.
  induction 1; simpl; try constructor; auto.
  - destruct (f x); auto.
  - destruct (f x), (f y); auto. apply perm_swap.
  - etransitivity; eauto.
Qed.

(** [mapM] succeeds when [f] succeeds on every element, and relates each
    element to its image. *)
Lemma mapM_Forall2_total {A B} (f : A -> option B) (R : A -> B -> Prop) (l : list A) :
  (forall x, In x l -> exists y, f x = Some y /\ R x y) ->
  exists k, mapM f l = Some k /\ Forall2 R l k.
Proof.
  induction l as [|x l IH]; intros Hf; [by exists []|].
  destruct (Hf x (or_introl eq_refl)) as (y & Hy & Rxy).
  destruct IH as (k & Hk & Hr); [intros z Hz; apply Hf; by right|].
  exists (y :: k). simpl. rewrite Hy, Hk. split; [done | by constructor].
Qed.

(** A strictly increasing list of naturals below [n] has at most [n]
    elements. *)
Lemma sorted_bounded_length (l : list nat) (n : nat) :
  StronglySorted lt l -> Forall (fun x => x < n) l -> length l <= n.
Proof.
  intros Hs Hb. transitivity (length (seq 0 n)); [|by rewrite length_seq].
  apply NoDup_incl_length; [clear Hb|].
  - induction Hs as [|a l _ IH Ha]; [apply List.NoDup_nil|]. apply List.NoDup_cons; [|exact IH].
    intros Hin. rewrite List.Forall_forall in Ha. specialize (Ha a Hin). lia.
  - intros x Hx. rewrite List.Forall_forall in Hb. apply in_seq. specialize (Hb x Hx). lia.
Qed.

Lemma mapM_map {A B C} (f : B -> option C) (g : A -> B) (l : list A) :
  mapM f (map g l) = mapM (fun x => f (g x)) l.
Proof. induction l as [|x l IH]; simpl; [done|]. by rewrite IH. Qed.

(** Reading every index of a list in order gives the list back. *)
Lemma mapM_lookup_seq_app {A} (k l : list A) :
  mapM (fun i => (k ++ l) !! i) (seq (length k) (length l)) = Some l.
Proof.
  revert k. induction l as [|x l IH]; intros k; [done|]. simpl.
  rewrite list_lookup_middle by done. simpl.
  replace (k ++ x :: l) with ((k ++ [x]) ++ l) by by rewrite <- app_assoc.
  replace (S (length k)) with (length (k ++ [x])) by (rewrite length_app; simpl; lia).
  by rewrite IH.
Qed.

Lemma mapM_lookup_seq {A} (l : list A) : mapM (fun i => l !! i) (seq 0 (length l)) = Some l.
Proof. exact (mapM_lookup_seq_app [] l). Qed.

(** An element of the input of a successful [mapM] has its image in the
    output. *)
Lemma mapM_In {A B} (f : A -> option B) (l : list A) (k : list B) x y :
  mapM f l = Some k -> In x l -> f x = Some y -> In y k.
Proof.
  intros Hm Hx Hy. apply mapM_Some_1 in Hm.
  induction Hm as [|a b l k Hab _ IH]; [done|].
  destruct Hx as [<-|Hx]; [left; congruence | right; auto].
Qed.

(** Every element of the output of a successful [mapM] satisfies what
    [f] guarantees of its results. *)
Lemma mapM_Forall_out {A B} (f : A -> option B) (P : B -> Prop) (l : list A) (k : list B) :
  mapM f l = Some k -> (forall x y, f x = Some y -> P y) -> Forall P k.
Proof.
  intros Hm Hf. apply mapM_Some_1 in Hm.
  induction Hm as [|a b l k Hab _ IH]; constructor; eauto.
Qed.

Lemma mapM_lookup_in_range {A} (l : list A) (idxs : list nat) :
  Forall (fun x => x < length l) idxs -> is_Some (mapM (fun i => l !! i) idxs).
Proof.
  induction 1 as [|x idxs Hx _ [k Hk]]; simpl; [by eexists|].
  destruct (lookup_lt_is_Some_2 l x Hx) as [y Hy]. rewrite Hy. simpl. rewrite Hk. by eexists.
Qed.

(** Membership in a strictly increasing concatenation. *)
Lemma StronglySorted_app_iff {A} (R : A -> A -> Prop) (xs ys : list A) :
  StronglySorted R (xs ++ ys) <->
  StronglySorted R xs /\ StronglySorted R ys /\ Forall (fun x => Forall (R x) ys) xs.
Proof.
  induction xs as [|x xs IH]; simpl.
  - split; [intros H; repeat split; auto; constructor | tauto].
  - split.
    + intros H. apply StronglySorted_inv in H as [H1 H2].
      apply IH in H1 as (? & ? & ?). apply Forall_app in H2 as [? ?].
      repeat split; auto. constructor; auto.
    + intros (H1 & H2 & H3). apply StronglySorted_inv in H1 as [? ?].
      apply Forall_cons in H3 as [? ?].
      constructor; [apply IH; auto|]. apply Forall_app; auto.
Qed.

(** A span followed by a strictly increasing list of later indices. *)
Lemma spans_app i j n l r :
  spans i j l -> j <= n -> StronglySorted lt r -> Forall (fun x => j <= x < n) r ->
  StronglySorted lt (l ++ r) /\ Forall (fun x => i <= x < n) (l ++ r).
Proof.
  intros Hsp Hjn Hr Hb. pose proof (spans_bounds _ _ _ Hsp) as Hl.
  pose proof (spans_lt _ _ _ Hsp).
  split.
  - apply StronglySorted_app_iff. split; [exact (spans_sorted _ _ _ Hsp)|]. split; [exact Hr|].
    eapply Forall_impl; [exact Hl|]. intros x Hx. simpl in Hx.
    eapply Forall_impl; [exact Hb|]. simpl. intros y Hy. lia.
  - apply Forall_app. split.
    + eapply Forall_impl; [exact Hl|]. simpl. lia.
    + eapply Forall_impl; [exact Hb|]. simpl. lia.
Qed.

(** ** Objects and [Map]s as association lists

    A JavaScript object or [Map] with keys in insertion order: assigning
    to an existing key updates it in place, a new key is appended. *)

Section Assoc.
Context {K V : Type} `{EqDecision K}.

(** [obj[k] = v], [map.set(k, v)]. *)
Fixpoint assoc_set (k : K) (v : V) (l : list (K * V)) : list (K * V) :=
  match l with
  | [] => [(k, v)]
  | (k', v') :: l' => if decide (k = k') then (k, v) :: l' else (k', v') :: assoc_set k v l'
  end.

(** [obj[k]], [map.get(k)] together with [map.has(k)]. *)
Fixpoint assoc_get (k : K) (l : list (K * V)) : option V :=
  match l with
  | [] => None
  | (k', v') :: l' => if decide (k = k') then Some v' else assoc_get k l'
  end.

Lemma assoc_get_set_eq k v l : assoc_get k (assoc_set k v l) = Some v.
Proof.
  induction l as [|[k' v'] l IH]; simpl; [by rewrite decide_True|].
  destruct (decide (k = k')); simpl; [by rewrite decide_True | by rewrite decide_False].
Qed.

Lemma assoc_get_set_ne k k' v l : k' <> k -> assoc_get k' (assoc_set k v l) = assoc_get k' l.
Proof.
  intros Hne. induction l as [|[k0 v0] l IH]; simpl; [by rewrite decide_False|].
  destruct (decide (k = k0)) as [->|]; simpl; [by rewrite !decide_False|].
  destruct (decide (k' = k0)); [done | exact IH].
Qed.

End Assoc.

(** [Array.prototype.filter] keeps the elements it keeps in order. *)
Lemma filter_sublist {A} (f : A -> bool) (l : list A) : sublist (List.filter f l) l.
Proof.
  induction l as [|x l IH]; simpl; [constructor|].
  destruct (f x); [by apply sublist_skip | by apply sublist_cons].
Qed.

(** ** Rational sums as JavaScript's [reduce((s, x) => s + x, 0)] *)

Definition qsum (l : list Q) : Q := fold_left Qplus l 0%Q.

Lemma fold_left_Qplus_acc (l : list Q) (a : Q) :
  (fold_left Qplus l a == a + fold_left Qplus l 0)%Q.
Proof.
  revert a. induction l as [|x l IH]; intros a; simpl.
  - ring.
  - rewrite (IH (a + x)%Q), (IH (0 + x)%Q). ring.
Qed.

Lemma qsum_app (l1 l2 : list Q) : (qsum (l1 ++ l2) == qsum l1 + qsum l2)%Q.
Proof. unfold qsum. rewrite fold_left_app, fold_left_Qplus_acc. reflexivity. Qed.

Lemma qsum_snoc (l : list Q) (x : Q) : (qsum (l ++ [x]) == qsum l + x)%Q.
Proof. rewrite qsum_app. unfold qsum at 2. simpl. ring. Qed.

Lemma qsum_const (l : list Q) (a : Q) :
  Forall (fun x => x == a)%Q l -> (qsum l == inject_Z (Z.of_nat (length l)) * a)%Q.
Proof.
  induction 1 as [|x l Hx _ IH]; [reflexivity|].
  unfold qsum in *. simpl. rewrite fold_left_Qplus_acc, IH, Hx.
  rewrite Nat2Z.inj_succ, <- Z.add_1_r, inject_Z_plus. simpl. ring.
Qed.

(** The mean of [k > 0] values equal to [a] is [a]. *)
Lemma qsum_const_mean (l : list Q) (a : Q) :
  l <> [] -> Forall (fun x => x == a)%Q l ->
  (qsum l / inject_Z (Z.of_nat (length l)) == a)%Q.
Proof.
  intros Hne Hl. rewrite (qsum_const l a Hl). field.
  destruct l as [|x l]; [done|]. unfold Qeq, inject_Z. cbn [Qnum Qden length]. lia.
Qed.

(** ** Stable sort by an integer key *)

(** [Array.prototype.sort] with the comparator [(a, b) => key a - key b].
    The ECMAScript specification (since ES2019) requires the sort to be
    stable; we model it as the insertion sort that places an element
    before the first element of strictly greater or equal key of the
    already sorted tail, which keeps equal keys in their input order. *)
Section StableSort.
Context {A : Type} (key : A -> Z).

Fixpoint insert_by (x : A) (l : list A) : list A :=
  match l with
  | [] => [x]
  | y :: l' => if Z.leb (key x) (key y) then x :: y :: l' else y :: insert_by x l'
  end.

Fixpoint sort_by (l : list A) : list A :=
  match l with
  | [] => []
  | x :: l' => insert_by x (sort_by l')
  end.

Definition key_le (x y : A) : Prop := (key x <= key y)%Z.

Lemma insert_by_perm x l : Permutation (insert_by x l) (x :: l).
Proof.
  induction l as [|y l IH]; simpl; [reflexivity|].
  destruct (Z.leb _ _); [reflexivity|].
  rewrite IH. apply perm_swap.
Qed.

Lemma sort_by_perm l : Permutation (sort_by l) l.
Proof.
  induction l as [|x l IH]; simpl; [reflexivity|].
  rewrite insert_by_perm, IH. reflexivity.
Qed.

Lemma insert_by_sorted x l : Sorted key_le l -> Sorted key_le (insert_by x l).
Proof.
  induction 1 as [|y l Hs IH Hhd]; simpl; [repeat constructor|].
  destruct (Z.leb_spec (key x) (key y)).
  - constructor; [by constructor | constructor; unfold key_le; lia].
  - constructor; [exact IH|].
    destruct l as [|z l]; simpl; [constructor; unfold key_le; lia|].
    apply HdRel_inv in Hhd.
    destruct (Z.leb (key x) (key z)); constructor; unfold key_le in *; lia.
Qed.

Lemma sort_by_sorted l : Sorted key_le (sort_by l).
Proof. induction l; simpl; [constructor | by apply insert_by_sorted]. Qed.

Lemma sort_by_length l : length (sort_by l) = length l.
Proof. apply Permutation_length, sort_by_perm. Qed.

(** Stability: the elements of one key keep their input order. *)
Lemma insert_by_filter_key x l (k : Z) :
  Sorted key_le l ->
  filter (fun y => bool_decide (key y = k)) (insert_by x l) =
  filter (fun y => bool_decide (key y = k)) (x :: l).
Proof.
  induction l as [|y l IH]; intros Hs; [reflexivity|].
  simpl insert_by. destruct (Z.leb_spec (key x) (key y)); [reflexivity|].
  apply Sorted_inv in Hs as [Hs Hhd].
  rewrite filter_cons, IH by exact Hs.
  rewrite !filter_cons. destruct (bool_decide_reflect (key y = k)),
    (bool_decide_reflect (key x = k)); try reflexivity.
  lia.
Qed.

Lemma sort_by_stable l (k : Z) :
  filter (fun y => bool_decide (key y = k)) (sort_by l) =
  filter (fun y => bool_decide (key y = k)) l.
Proof.
  induction l as [|x l IH]; [reflexivity|]. simpl sort_by.
  rewrite insert_by_filter_key by apply sort_by_sorted.
  rewrite !filter_cons, IH. reflexivity.
Qed.
End StableSort.

#[export] Hint Resolve sort_by_sorted sort_by_perm : locenh.

(** ** Tactics *)

(** Invert a hypothesis and clean up. *)
Ltac invc H := inversion H; subst; clear H.

(** Close arithmetic side conditions about indices. *)
Ltac idx := simpl in *; lia.
