(* ===== verification/Geometry.v ===== *)
(** * Geometry: coordinates, the Haversine distance and the metric interface

    [calculateDistanceInMeters] of [src/src/store/locationEnhancer.js] is
    modelled over the Stdlib reals, with ECMAScript's [Math.atan2] written
    out by cases.  The clustering engine only ever asks whether a point lies
    within [clusterRadius] of a centroid; that question is the [Metric]
    interface below.  [HaversineMetric] is the instance the program uses;
    [PlanarMetric] is an executable instance for concrete examples (the
    reals do not compute). *)

From Stdlib Require Import Reals QArith Qreals Lra Morphisms.
From S2P Require Import Prelude.
Local Open Scope R_scope.

(** A [{lat, lon}] object. *)
Record Coord := mkCoord { clat : Q; clon : Q }.

(** Coordinates are compared up to equality of rationals. *)
Definition coord_eq (c d : Coord) : Prop := (clat c == clat d)%Q /\ (clon c == clon d)%Q.

#[export] Instance coord_eq_equiv : Equivalence coord_eq.
Proof.
  split; unfold coord_eq.
  - intros c. split; reflexivity.
  - intros c d [? ?]. split; symmetry; assumption.
  - intros c d e [? ?] [? ?]. split; etransitivity; eassumption.
Qed.

(** ** [Math.atan2] *)

(** ECMAScript's [Math.atan2(y, x)] on reals (signed zeros are not
    modelled: [y = 0] counts as [+0]). *)
Definition js_atan2 (y x : R) : R :=
  if Rlt_dec 0 x then atan (y / x)
  else if Rlt_dec x 0 then
    (if Rle_dec 0 y then atan (y / x) + PI else atan (y / x) - PI)
  else if Rlt_dec 0 y then PI / 2
  else if Rlt_dec y 0 then - (PI / 2)
  else 0.

(** ** [calculateDistanceInMeters] (lines 58-74) *)

Definition earthRadius : R := 6371000.

Definition deg2rad (x : R) : R := (x * PI) / 180.

(** The Haversine term [a]. *)
Definition haversine_a (point1 point2 : Coord) : R :=
  let lat1Rad := deg2rad (Q2R (clat point1)) in
  let lat2Rad := deg2rad (Q2R (clat point2)) in
  let deltaLatRad := deg2rad (Q2R (clat point2 - clat point1)) in
  let deltaLonRad := deg2rad (Q2R (clon point2 - clon point1)) in
  sin (deltaLatRad / 2) * sin (deltaLatRad / 2) +
  cos lat1Rad * cos lat2Rad * sin (deltaLonRad / 2) * sin (deltaLonRad / 2).

Definition calculateDistanceInMeters (point1 point2 : Coord) : R :=
  let a := haversine_a point1 point2 in
  let c := 2 * js_atan2 (sqrt a) (sqrt (1 - a)) in
  earthRadius * c.

(** ** The interface the clustering engine relies on *)

(** [within r center p] is the test [calculateDistanceInMeters(center, p) <=
    r] of [tryCreateVisitCluster] (line 243) and [trySkipTransientPoints]
    (line 373).  Its laws: a point is within any non-negative radius of
    itself, and the test only depends on the values of the rationals. *)
Class Metric := {
  within : Q -> Coord -> Coord -> bool;
  within_refl : forall r c, (0 <= r)%Q -> within r c c = true;
  within_proper : Proper (Qeq ==> coord_eq ==> coord_eq ==> eq) within
}.

#[export] Existing Instance within_proper.

(** A [within] test only depends on the coordinates up to [coord_eq]. *)
Lemma within_coord_eq `{Metric} (r : Q) (c c' p p' : Coord) :
  coord_eq c c' -> coord_eq p p' -> within r c p = within r c' p'.
Proof. intros Hc Hp. apply within_proper; [reflexivity | exact Hc | exact Hp]. Qed.

(** ** Properties of the Haversine distance *)

Lemma Q2R_sub_self (x : Q) : Q2R (x - x) = 0%R.
Proof. rewrite Q2R_minus. lra. Qed.

Lemma deg2rad_opp (x : R) : deg2rad (- x) = - deg2rad x.
Proof. unfold deg2rad. lra. Qed.

Lemma sin_half_opp (x : R) : sin (- x / 2) = - sin (x / 2).
Proof. replace (- x / 2)%R with (- (x / 2))%R by lra. apply sin_neg. Qed.

Lemma haversine_a_refl (c : Coord) : haversine_a c c = 0%R.
Proof.
  unfold haversine_a. rewrite !Q2R_sub_self. unfold deg2rad.
  replace (0 * PI / 180 / 2)%R with 0%R by lra. rewrite sin_0. lra.
Qed.

Lemma haversine_a_sym (c d : Coord) : haversine_a c d = haversine_a d c.
Proof.
  unfold haversine_a. cbv zeta.
  replace (Q2R (clat c - clat d)) with (- Q2R (clat d - clat c))%R
    by (rewrite !Q2R_minus; lra).
  replace (Q2R (clon c - clon d)) with (- Q2R (clon d - clon c))%R
    by (rewrite !Q2R_minus; lra).
  rewrite !deg2rad_opp, !sin_half_opp. ring_simplify. reflexivity.
Qed.

(** The distance from a point to itself is zero. *)
Lemma calculateDistanceInMeters_refl (c : Coord) : calculateDistanceInMeters c c = 0%R.
Proof.
  unfold calculateDistanceInMeters. rewrite haversine_a_refl.
  replace (1 - 0)%R with 1%R by lra. rewrite sqrt_0, sqrt_1.
  unfold js_atan2. destruct (Rlt_dec 0 1) as [_|H]; [|lra].
  replace (0 / 1)%R with 0%R by lra. rewrite atan_0. lra.
Qed.

(** The distance is symmetric. *)
Lemma calculateDistanceInMeters_sym (c d : Coord) :
  calculateDistanceInMeters c d = calculateDistanceInMeters d c.
Proof. unfold calculateDistanceInMeters. rewrite haversine_a_sym. reflexivity. Qed.

Lemma haversine_a_proper (c c' d d' : Coord) :
  coord_eq c c' -> coord_eq d d' -> haversine_a c d = haversine_a c' d'.
Proof.
  intros [Hc1 Hc2] [Hd1 Hd2]. unfold haversine_a.
  rewrite (Qeq_eqR _ _ Hc1), (Qeq_eqR _ _ Hd1).
  rewrite (Qeq_eqR (clat d - clat c) (clat d' - clat c')) by (rewrite Hc1, Hd1; reflexivity).
  rewrite (Qeq_eqR (clon d - clon c) (clon d' - clon c')) by (rewrite Hc2, Hd2; reflexivity).
  reflexivity.
Qed.

(** ** The instance the program uses *)

Definition haversine_within (r : Q) (center p : Coord) : bool :=
  if Rle_dec (calculateDistanceInMeters center p) (Q2R r) then true else false.

Lemma haversine_within_refl (r : Q) (c : Coord) :
  (0 <= r)%Q -> haversine_within r c c = true.
Proof.
  intros Hr. unfold haversine_within. rewrite calculateDistanceInMeters_refl.
  destruct (Rle_dec 0 (Q2R r)) as [_|Hn]; [reflexivity|].
  exfalso. apply Hn. replace 0%R with (Q2R 0) by (unfold Q2R; simpl; lra). now apply Qle_Rle.
Qed.

Lemma haversine_within_proper :
  Proper (Qeq ==> coord_eq ==> coord_eq ==> eq) haversine_within.
Proof.
  intros r r' Hr c c' Hc p p' Hp. unfold haversine_within, calculateDistanceInMeters.
  rewrite (haversine_a_proper c c' p p' Hc Hp), (Qeq_eqR _ _ Hr). reflexivity.
Qed.

#[export] Instance HaversineMetric : Metric :=
  {| within := haversine_within;
     within_refl := haversine_within_refl;
     within_proper := haversine_within_proper |}.

(** ** An executable instance *)

(** Equirectangular approximation without the [cos] factor: degrees are
    scaled by [111195] metres (the length of one degree of a great circle
    of radius [6371000]) and squared distances are compared.  It is used
    only to run the engine on concrete inputs. *)
Definition planar_within (r : Q) (center p : Coord) : bool :=
  let dy := ((clat p - clat center) * 111195)%Q in
  let dx := ((clon p - clon center) * 111195)%Q in
  Qle_bool (dx * dx + dy * dy) (r * r).

Lemma planar_within_refl (r : Q) (c : Coord) : (0 <= r)%Q -> planar_within r c c = true.
Proof.
  intros Hr. unfold planar_within. apply Qle_bool_iff. cbv zeta.
  apply (Qle_trans _ 0%Q); [apply Qle_lteq; right; ring|].
  apply Qmult_le_0_compat; assumption.
Qed.

Lemma planar_within_proper : Proper (Qeq ==> coord_eq ==> coord_eq ==> eq) planar_within.
Proof.
  intros r r' Hr c c' [Hc1 Hc2] p p' [Hp1 Hp2]. unfold planar_within.
  rewrite Hr, Hc1, Hc2, Hp1, Hp2. reflexivity.
Qed.

#[export] Instance PlanarMetric : Metric :=
  {| within := planar_within;
     within_refl := planar_within_refl;
     within_proper := planar_within_proper |}.
