(* ===== verification/Points.v ===== *)
(** * Location points

    The GPS fix objects of [src/src/store/locationEnhancer.js]: their
    coordinates, capture time ([tst || timestamp || 0]), the four event
    metadata fields the engine writes, the reset of those fields done by
    [enhanceLocationData] (lines 29-34) and the sort by capture time
    (lines 98-102 and 611-615). *)

From stdpp Require Import base list options.
From Stdlib Require Import ZArith QArith Sorted Permutation Lia.
From S2P Require Import Prelude Geometry.
Local Open Scope nat_scope.
Local Open Scope locenh_scope.

(** The two values of [node_event_type]. *)
Inductive EventType := EvVisit | EvTravel.

#[export] Instance EventType_eq_dec : EqDecision EventType.
Proof. solve_decision. Defined.

(** A location point.  [acc] and [alt] stand for the fields that the engine
    passes through untouched (the recorder sends more of them, all copied
    the same way by object spread). *)
Record LocationPoint := mkPoint {
  lat : Q;
  lon : Q;
  tst : option Z;
  timestamp : option Z;
  acc : option Q;
  alt : option Q;
  node_event_type : option EventType;
  node_event_id : option nat;
  node_event_start : option Z;
  node_event_end : option Z
}.

(** [p.tst || p.timestamp || 0]. *)
Definition pointTime (p : LocationPoint) : Z := tst p ?|| (timestamp p ?|| 0%Z).

(** The [{lat, lon}] view of a point passed to the distance function. *)
Definition coord (p : LocationPoint) : Coord := mkCoord (lat p) (lon p).

(** [{...p, node_event_type: ty, node_event_id: id, node_event_start: s,
    node_event_end: e}]. *)
Definition withEvent (p : LocationPoint) (ty : option EventType) (id : option nat)
    (s e : option Z) : LocationPoint :=
  mkPoint (lat p) (lon p) (tst p) (timestamp p) (acc p) (alt p) ty id s e.

(** Lines 30-33: the four metadata fields are set to [null]. *)
Definition resetMetadata (p : LocationPoint) : LocationPoint :=
  withEvent p None None None None.

(** [locations.sort((a, b) => time(a) - time(b))]. *)
Definition sortByTime (l : list LocationPoint) : list LocationPoint := sort_by pointTime l.

(** A point at coordinates [c] captured at time [t], with no other field:
    the inputs of the concrete scenarios. *)
Definition pointAt (c : Coord) (t : Z) : LocationPoint :=
  mkPoint (clat c) (clon c) (Some t) None None None None None None None.

(** ** Lemmas *)

Lemma resetMetadata_fields (p : LocationPoint) :
  node_event_type (resetMetadata p) = None /\ node_event_id (resetMetadata p) = None /\
  node_event_start (resetMetadata p) = None /\ node_event_end (resetMetadata p) = None.
Proof. done. Qed.

Lemma resetMetadata_idem (p : LocationPoint) : resetMetadata (resetMetadata p) = resetMetadata p.
Proof. done. Qed.

Lemma withEvent_pointTime p ty id s e : pointTime (withEvent p ty id s e) = pointTime p.
Proof. done. Qed.

Lemma withEvent_coord p ty id s e : coord (withEvent p ty id s e) = coord p.
Proof. done. Qed.

Lemma sortByTime_perm (l : list LocationPoint) : Permutation (sortByTime l) l.
Proof. apply sort_by_perm. Qed.

Lemma sortByTime_length (l : list LocationPoint) : length (sortByTime l) = length l.
Proof. apply sort_by_length. Qed.

Lemma sortByTime_sorted (l : list LocationPoint) :
  Sorted (fun a b => (pointTime a <= pointTime b)%Z) (sortByTime l).
Proof. apply (sort_by_sorted pointTime). Qed.

Lemma Forall_sortByTime (P : LocationPoint -> Prop) l : Forall P l -> Forall P (sortByTime l).
Proof.
  rewrite !List.Forall_forall. intros H x Hx. apply H.
  eapply Permutation_in; [apply sortByTime_perm | exact Hx].
Qed.

#[export] Hint Rewrite withEvent_pointTime withEvent_coord sortByTime_length : locenh_rw.
