(* ===== verification/Discovery.v ===== *)
(** * Cluster discovery

    [findLocationClusters] and its helpers [trySkipTransientPoints],
    [tryCreateVisitCluster] and [createTravelCluster] of
    [src/src/store/locationEnhancer.js] (lines 147-387), parametric in the
    [Metric] interface of [Geometry.v].

    Each JavaScript [while]/[for] loop is a Fixpoint with fuel returning an
    [option]: [None] stands both for running out of fuel and for a
    TypeError of the JavaScript code (reading a field of [undefined]).  The
    adequacy theorems show that neither happens with the fuel the wrappers
    give.  The invariant of the result is the inductive [tiling]: the
    clusters follow the cursor of the scan from [0] to [n], each visit
    spanning from its cursor to the next one (possibly with holes: the
    skipped transient points) and each travel being a run of consecutive
    indices of the size the code computes. *)

From stdpp Require Import base list options.
From Stdlib Require Import ZArith QArith Sorted Permutation Lia.
From S2P Require Import Prelude Geometry Points.
Local Open Scope nat_scope.
Local Open Scope locenh_scope.

(** [cluster.type]. *)
Inductive ClusterType := Visit | Travel.

#[export] Instance ClusterType_eq_dec : EqDecision ClusterType.
Proof. solve_decision. Defined.

(** A cluster object.  [centerLat]/[centerLon] are set on successful
    visits (lines 284-285); [travelStartTime]/[travelEndTime] are added by
    [processClusterToLocations] (lines 552-553). *)
Record Cluster := mkCluster {
  ctype : ClusterType;
  pointIndices : list nat;
  startTime : Z;
  endTime : Z;
  centerLat : option Q;
  centerLon : option Q;
  travelStartTime : option Z;
  travelEndTime : option Z
}.

(** [workingLocations[k]] with a possibly negative integer index. *)
Definition zlookup {A} (l : list A) (k : Z) : option A :=
  if (k <? 0)%Z then None else l !! Z.to_nat k.

Section Engine.
Context `{M : Metric}.

(** ** [trySkipTransientPoints] (lines 351-387) *)

Record SkipResult := mkSkip { shouldSkip : bool; continueFromIndex : nat }.

(** The [for] loop of lines 363-380: [fuel] counts the iterations left
    before [k] reaches [startIndex + maxLookahead]; the loop also stops
    at the end of the array. *)
Fixpoint lookaheadScan (locs : list LocationPoint) (center : Coord) (clusterRadius : Q)
    (k fuel : nat) : option nat :=
  match fuel with
  | 0 => None
  | S fuel' =>
      match locs !! k with
      | None => None
      | Some p =>
          if within clusterRadius center (coord p) then Some k
          else lookaheadScan locs center clusterRadius (S k) fuel'
      end
  end.

Definition trySkipTransientPoints (workingLocations : list LocationPoint) (startIndex : nat)
    (centerLat centerLon : Q) (clusterRadius : Q) (minTravelClusterSize : nat) : SkipResult :=
  let maxLookahead := minTravelClusterSize + 1 in
  match lookaheadScan workingLocations (mkCoord centerLat centerLon) clusterRadius
          startIndex maxLookahead with
  | Some k => mkSkip true k
  | None => mkSkip false startIndex
  end.

(** ** [tryCreateVisitCluster] (lines 212-297) *)

(** Lines 250-257: the mean of the coordinates of the absorbed points. *)
Definition centroidOf (workingLocations : list LocationPoint) (idxs : list nat) : option (Q * Q) :=
  pts <- mapM (fun idx => workingLocations !! idx) idxs;
  let n := inject_Z (Z.of_nat (length pts)) in
  Some ((qsum (map lat pts) / n)%Q, (qsum (map lon pts) / n)%Q).

(** The mutable state of the growth loop: the cluster under
    construction, the running centre and the index [j]. *)
Record GrowState := mkGrow { gcluster : Cluster; gLat : Q; gLon : Q; gj : nat }.

(** Lines 245-247: push index [j] and update [endTime]. *)
Definition absorb (c : Cluster) (j : nat) (t : Z) : Cluster :=
  mkCluster (ctype c) (pointIndices c ++ [j]) (startTime c) t
    (centerLat c) (centerLon c) (travelStartTime c) (travelEndTime c).

(** The [while] loop of lines 237-280. *)
Fixpoint growLoop (fuel : nat) (workingLocations : list LocationPoint) (clusterRadius : Q)
    (minTravelClusterSize : nat) (st : GrowState) : option GrowState :=
  match fuel with
  | 0 => None
  | S fuel' =>
      match workingLocations !! gj st with
      | None => Some st
      | Some pj =>
          if within clusterRadius (mkCoord (gLat st) (gLon st)) (coord pj) then
            let c := absorb (gcluster st) (gj st) (pointTime pj) in
            '(cLat, cLon) <- centroidOf workingLocations (pointIndices c);
            growLoop fuel' workingLocations clusterRadius minTravelClusterSize
              (mkGrow c cLat cLon (S (gj st)))
          else
            let sr := trySkipTransientPoints workingLocations (gj st) (gLat st) (gLon st)
                        clusterRadius minTravelClusterSize in
            if shouldSkip sr then
              growLoop fuel' workingLocations clusterRadius minTravelClusterSize
                (mkGrow (gcluster st) (gLat st) (gLon st) (continueFromIndex sr))
            else Some st
      end
  end.

Record VisitResult := mkVisit { success : bool; vcluster : option Cluster; nextIndex : nat }.

Definition tryCreateVisitCluster (workingLocations : list LocationPoint) (startIndex : nat)
    (clusterRadius : Q) (minVisitClusterSize minTravelClusterSize : nat) : option VisitResult :=
  p0 <- workingLocations !! startIndex;
  let c0 := mkCluster Visit [startIndex] (pointTime p0) (pointTime p0) None None None None in
  st <- growLoop (S (length workingLocations)) workingLocations clusterRadius
         minTravelClusterSize (mkGrow c0 (lat p0) (lon p0) (S startIndex));
  let c := gcluster st in
  if minVisitClusterSize <=? length (pointIndices c) then
    Some (mkVisit true
            (Some (mkCluster (ctype c) (pointIndices c) (startTime c) (endTime c)
                     (Some (gLat st)) (Some (gLon st)) (travelStartTime c) (travelEndTime c)))
            (gj st))
  else Some (mkVisit false None (gj st)).

(** ** [createTravelCluster] (lines 307-338) *)

(** The index arithmetic is on integers, as in JavaScript: with
    [minVisitClusterSize = 0] the end index precedes the start index. *)
Definition createTravelCluster (workingLocations : list LocationPoint) (startIndex : nat)
    (minVisitClusterSize : nat) : option Cluster :=
  let pointCount := (Z.of_nat minVisitClusterSize - 1)%Z in
  let endIndex := Z.min (Z.of_nat startIndex + pointCount - 1)
                        (Z.of_nat (length workingLocations) - 1) in
  let pointIndices := seq startIndex (Z.to_nat (endIndex - Z.of_nat startIndex + 1)) in
  pStart <- workingLocations !! startIndex;
  pEnd <- zlookup workingLocations endIndex;
  Some (mkCluster Travel pointIndices (pointTime pStart) (pointTime pEnd) None None None None).

(** ** [findLocationClusters] (lines 147-200) *)

(** The [while] loop of lines 164-194.  A travel cluster with no indices
    would set [i] to [NaN] (line 192), which ends the loop. *)
Fixpoint findLoop (fuel : nat) (workingLocations : list LocationPoint) (clusterRadius : Q)
    (minVisitClusterSize minTravelClusterSize : nat) (i : nat) : option (list Cluster) :=
  match fuel with
  | 0 => None
  | S fuel' =>
      if i <? length workingLocations then
        visitResult <- tryCreateVisitCluster workingLocations i clusterRadius
                        minVisitClusterSize minTravelClusterSize;
        if success visitResult then
          c <- vcluster visitResult;
          rest <- findLoop fuel' workingLocations clusterRadius minVisitClusterSize
                   minTravelClusterSize (nextIndex visitResult);
          Some (c :: rest)
        else
          travelCluster <- createTravelCluster workingLocations i minVisitClusterSize;
          match last (pointIndices travelCluster) with
          | Some l =>
              rest <- findLoop fuel' workingLocations clusterRadius minVisitClusterSize
                       minTravelClusterSize (S l);
              Some (travelCluster :: rest)
          | None => Some [travelCluster]
          end
      else Some []
  end.

Definition findLocationClusters (locations : list LocationPoint) (clusterRadius : Q)
    (minVisitClusterSize minTravelClusterSize : nat) : option (list Cluster) :=
  if length locations <=? 1 then Some []
  else findLoop (S (length locations)) locations clusterRadius
         minVisitClusterSize minTravelClusterSize 0.

End Engine.

(** ** Transient skipping *)

Section SkipProofs.
Context `{M : Metric}.
Variable workingLocations : list LocationPoint.
Variable clusterRadius : Q.

(** Index [k] holds a point within [clusterRadius] of [center]. *)
Definition returns_at (center : Coord) (k : nat) : Prop :=
  exists p, workingLocations !! k = Some p /\ within clusterRadius center (coord p) = true.

Lemma returns_at_lt center k : returns_at center k -> k < length workingLocations.
Proof. intros (p & Hp & _). exact (lookup_lt_Some _ _ _ Hp). Qed.

Lemma not_returns_at center k p :
  workingLocations !! k = Some p -> within clusterRadius center (coord p) = false ->
  ~ returns_at center k.
Proof. intros Hk Hw (q & Hq & Hwq). congruence. Qed.

Lemma lookaheadScan_some center k fuel k' :
  lookaheadScan workingLocations center clusterRadius k fuel = Some k' ->
  k <= k' < k + fuel /\ returns_at center k' /\
  forall t, k <= t < k' -> ~ returns_at center t.
Proof.
  revert k. induction fuel as [|fuel IH]; intros k H; simpl in H; [discriminate|].
  destruct (workingLocations !! k) as [p|] eqn:Hk; [|discriminate].
  destruct (within clusterRadius center (coord p)) eqn:Hw.
  - injection H as <-. split; [lia|]. split; [exists p; auto|]. intros t Ht; lia.
  - apply IH in H as (Hb & Hr & Hn). split; [lia|]. split; [exact Hr|].
    intros t Ht. destruct (decide (t = k)) as [->|Hne].
    + exact (not_returns_at _ _ _ Hk Hw).
    + apply Hn. lia.
Qed.

Lemma lookaheadScan_none center k fuel :
  lookaheadScan workingLocations center clusterRadius k fuel = None ->
  forall t, k <= t < k + fuel -> ~ returns_at center t.
Proof.
  revert k. induction fuel as [|fuel IH]; intros k H t Ht; [lia|]. simpl in H.
  destruct (workingLocations !! k) as [q|] eqn:Hk.
  - destruct (within clusterRadius center (coord q)) eqn:Hwq; [discriminate|].
    destruct (decide (t = k)) as [->|Hne]; [exact (not_returns_at _ _ _ Hk Hwq)|].
    apply (IH (S k) H t). lia.
  - intros Hr. apply returns_at_lt in Hr. apply lookup_ge_None in Hk. lia.
Qed.

(** The scan never stops at its first index when that point is outside
    the radius: a reported return point lies strictly after it. *)
Lemma lookaheadScan_after center k fuel k' p :
  workingLocations !! k = Some p -> within clusterRadius center (coord p) = false ->
  lookaheadScan workingLocations center clusterRadius k fuel = Some k' -> k < k'.
Proof.
  intros Hk Hw H. apply lookaheadScan_some in H as (Hb & Hr & _).
  destruct (decide (k = k')) as [<-|]; [|lia].
  exfalso. exact (not_returns_at _ _ _ Hk Hw Hr).
Qed.
End SkipProofs.

(** [C6] [trySkipTransientPoints] reports as return point the first index
    of the window [startIndex .. startIndex + minTravelClusterSize] (clamped
    to the array) whose point lies within [clusterRadius] of the centre;
    when there is none it reports failure and [continueFromIndex =
    startIndex]. *)
Theorem trySkipTransientPoints_spec `{M : Metric} (locs : list LocationPoint) (startIndex : nat)
    (centerLat centerLon clusterRadius : Q) (minTravelClusterSize : nat) :
  let center := mkCoord centerLat centerLon in
  let sr := trySkipTransientPoints locs startIndex centerLat centerLon clusterRadius
              minTravelClusterSize in
  (shouldSkip sr = true /\
     startIndex <= continueFromIndex sr < startIndex + minTravelClusterSize + 1 /\
     returns_at locs clusterRadius center (continueFromIndex sr) /\
     (forall t, startIndex <= t < continueFromIndex sr -> ~ returns_at locs clusterRadius center t))
  \/
  (shouldSkip sr = false /\ continueFromIndex sr = startIndex /\
     forall t, startIndex <= t < startIndex + minTravelClusterSize + 1 ->
       ~ returns_at locs clusterRadius center t).
Proof.
  simpl. unfold trySkipTransientPoints.
  destruct (lookaheadScan _ _ _ _ _) as [k|] eqn:H.
  - left. apply lookaheadScan_some in H as (? & ? & ?). simpl. auto with lia.
  - right. simpl. split; [done|]. split; [done|].
    intros t Ht. apply (lookaheadScan_none _ _ _ _ _ H t). lia.
Qed.

(** ** Visit growth *)

Section GrowProofs.
Context `{M : Metric}.
Variable workingLocations : list LocationPoint.
Variable clusterRadius : Q.
Variable minTravelClusterSize : nat.
Variable startIndex : nat.

Local Abbreviation n := (length workingLocations).

(** The invariant of the loop of lines 237-280: the absorbed indices
    span from the seed to some [e], and either [j = e] or [j] is a return
    point found by the transient skip, which the next iteration absorbs. *)
Definition grow_inv (st : GrowState) : Prop :=
  ctype (gcluster st) = Visit /\ gj st <= n /\
  exists e, spans startIndex e (pointIndices (gcluster st)) /\ e <= gj st /\
    (e = gj st \/
     returns_at workingLocations clusterRadius (mkCoord (gLat st) (gLon st)) (gj st)).

(** When the loop exits, [j] is one past the last absorbed index. *)
Definition grow_done (st : GrowState) : Prop :=
  ctype (gcluster st) = Visit /\ gj st <= n /\
  spans startIndex (gj st) (pointIndices (gcluster st)).

Lemma centroidOf_in_range (idxs : list nat) :
  Forall (fun x => x < n) idxs -> exists la lo, centroidOf workingLocations idxs = Some (la, lo).
Proof.
  intros H. destruct (mapM_lookup_in_range workingLocations idxs H) as [pts Hpts].
  unfold centroidOf. rewrite Hpts. simpl. eauto.
Qed.

Lemma grow_inv_absorb st pj la lo :
  grow_inv st -> workingLocations !! gj st = Some pj ->
  spans startIndex (S (gj st)) (pointIndices (gcluster st) ++ [gj st]) /\
  grow_inv (mkGrow (absorb (gcluster st) (gj st) (pointTime pj)) la lo (S (gj st))).
Proof.
  intros (Hty & Hn & e & Hsp & He & _) Hj. pose proof (lookup_lt_Some _ _ _ Hj).
  assert (Hsp' : spans startIndex (S (gj st)) (pointIndices (gcluster st) ++ [gj st]))
    by (apply (spans_snoc _ e); auto).
  split; [exact Hsp'|]. split; [done|]. split; [simpl; lia|].
  exists (S (gj st)). simpl. split; [exact Hsp'|]. split; [lia | by left].
Qed.

(** The loop stops, without running out of fuel and without reading
    outside the array, as soon as the fuel exceeds the number of indices
    left; [j] only moves forward. *)
Lemma growLoop_correct fuel st :
  grow_inv st -> n - gj st < fuel ->
  exists st', growLoop fuel workingLocations clusterRadius minTravelClusterSize st = Some st' /\
    grow_done st' /\ gj st <= gj st'.
Proof.
  revert st. induction fuel as [|fuel IH]; intros st Hinv Hf; [lia|].
  pose proof Hinv as (Hty & Hn & e & Hsp & He & Hpend).
  simpl. destruct (workingLocations !! gj st) as [pj|] eqn:Hj.
  - pose proof (lookup_lt_Some _ _ _ Hj) as Hjn.
    destruct (within clusterRadius _ (coord pj)) eqn:Hw.
    + destruct (grow_inv_absorb st pj 0 0 Hinv Hj) as [Hsp' _].
      destruct (centroidOf_in_range (pointIndices (gcluster st) ++ [gj st])) as (la & lo & Hc).
      { eapply Forall_impl; [exact (spans_bounds _ _ _ Hsp')|]. simpl. lia. }
      simpl. rewrite Hc. simpl.
      destruct (IH _ (proj2 (grow_inv_absorb st pj la lo Hinv Hj))) as (st' & H1 & H2 & H3);
        [simpl; lia|].
      exists st'. simpl in H3. auto with lia.
    + assert (e = gj st) as ->.
      { destruct Hpend as [->|Hr]; [done|]. exfalso. exact (not_returns_at _ _ _ _ _ Hj Hw Hr). }
      unfold trySkipTransientPoints. destruct (lookaheadScan _ _ _ _ _) as [k|] eqn:Hs; simpl.
      * pose proof (lookaheadScan_after _ _ _ _ _ _ _ Hj Hw Hs) as Hk.
        apply lookaheadScan_some in Hs as (_ & Hr & _).
        pose proof (returns_at_lt _ _ _ _ Hr).
        destruct (IH (mkGrow (gcluster st) (gLat st) (gLon st) k)) as (st' & H1 & H2 & H3).
        { split; [done|]. split; [simpl; lia|]. exists (gj st). simpl. auto with lia. }
        { simpl; lia. }
        exists st'. simpl in H3. auto with lia.
      * exists st. split; [done|]. split; [repeat split; auto | lia].
  - assert (e = gj st) as ->.
    { destruct Hpend as [->|Hr]; [done|].
      apply returns_at_lt in Hr. apply lookup_ge_None in Hj. lia. }
    exists st. split; [done|]. split; [repeat split; auto | lia].
Qed.
End GrowProofs.

(** From any index of the array, [tryCreateVisitCluster] returns (no
    TypeError, the loop ends) a [nextIndex] strictly after the seed.
    On success the cluster is a visit whose indices start at the seed, are
    strictly increasing and end just before [nextIndex], and it has at least
    [minVisitClusterSize] points; on failure no cluster is returned, which
    can only happen when [minVisitClusterSize] is at least [2]. *)
Lemma tryCreateVisitCluster_correct `{M : Metric} (locs : list LocationPoint) (startIndex : nat)
    (clusterRadius : Q) (minVisitClusterSize minTravelClusterSize : nat) :
  startIndex < length locs ->
  exists vr, tryCreateVisitCluster locs startIndex clusterRadius minVisitClusterSize
               minTravelClusterSize = Some vr /\
    startIndex < nextIndex vr <= length locs /\
    ((success vr = true /\ exists c, vcluster vr = Some c /\ ctype c = Visit /\
        spans startIndex (nextIndex vr) (pointIndices c) /\
        minVisitClusterSize <= length (pointIndices c))
     \/ (success vr = false /\ vcluster vr = None /\ 1 < minVisitClusterSize)).
Proof.
  intros Hs. destruct (lookup_lt_is_Some_2 locs startIndex Hs) as [p0 Hp0].
  unfold tryCreateVisitCluster. rewrite Hp0. cbn -[growLoop].
  set (st0 := mkGrow (mkCluster Visit [startIndex] (pointTime p0) (pointTime p0) None None None None)
                (lat p0) (lon p0) (S startIndex)).
  destruct (growLoop_correct locs clusterRadius minTravelClusterSize startIndex (S (length locs)) st0)
    as (st & Hg & (Hty & Hn & Hsp) & Hj).
  { split; [done|]. split; [simpl; lia|]. exists (S startIndex). simpl.
    split; [constructor|]. split; [lia | by left]. }
  { simpl; lia. }
  rewrite Hg. simpl in Hj. simpl.
  destruct (Nat.leb_spec minVisitClusterSize (length (pointIndices (gcluster st)))) as [Hle|Hgt].
  - eexists. split; [reflexivity|]. simpl. split; [lia|]. left. split; [done|].
    eexists. split; [reflexivity|]. simpl. auto.
  - eexists. split; [reflexivity|]. simpl. split; [lia|]. right. split; [done|]. split; [done|].
    destruct (pointIndices (gcluster st)) eqn:E; [by apply spans_nonempty in Hsp|]. simpl in Hgt. lia.
Qed.

(** ** Travel clusters *)

(** The number of points of a fallback travel cluster started at [i]:
    [minVisitClusterSize - 1], clamped to the end of the array. *)
Definition travelSize (n minVisitClusterSize i : nat) : nat :=
  Nat.min (minVisitClusterSize - 1) (n - i).

(** When [minVisitClusterSize >= 2] and [startIndex] is in the array,
    [createTravelCluster] returns (no TypeError) the travel cluster of the
    [travelSize] consecutive indices from [startIndex], timed from its first
    to its last point. *)
Lemma createTravelCluster_correct (locs : list LocationPoint) (startIndex minVisitClusterSize : nat) :
  1 < minVisitClusterSize -> startIndex < length locs ->
  let m := travelSize (length locs) minVisitClusterSize startIndex in
  exists pS pE, locs !! startIndex = Some pS /\ locs !! (startIndex + m - 1) = Some pE /\
    createTravelCluster locs startIndex minVisitClusterSize =
    Some (mkCluster Travel (seq startIndex m) (pointTime pS) (pointTime pE) None None None None).
Proof.
  intros Hv Hs m. unfold travelSize in m.
  destruct (lookup_lt_is_Some_2 locs startIndex Hs) as [pS HS].
  destruct (lookup_lt_is_Some_2 locs (startIndex + m - 1)) as [pE HE]; [lia|].
  exists pS, pE. split; [done|]. split; [done|].
  unfold createTravelCluster. cbv zeta.
  assert (Hend : Z.min (Z.of_nat startIndex + (Z.of_nat minVisitClusterSize - 1) - 1)
                   (Z.of_nat (length locs) - 1) = Z.of_nat (startIndex + m - 1)) by lia.
  rewrite Hend, HS. simpl. unfold zlookup.
  destruct (Z.ltb_spec (Z.of_nat (startIndex + m - 1)) 0); [lia|].
  rewrite Nat2Z.id, HE. simpl. do 3 f_equal. lia.
Qed.

(** ** The tiling invariant of discovery *)

(** [tiling n minVisit i cs]: scanning from cursor [i], the clusters [cs]
    follow one another up to [n].  A visit spans from its cursor to the
    next cursor and has at least [minVisit] points; a travel is the run of
    [travelSize] consecutive indices at its cursor. *)
Inductive tiling (n minVisit : nat) : nat -> list Cluster -> Prop :=
| tiling_end : tiling n minVisit n []
| tiling_visit i j c cs :
    ctype c = Visit -> spans i j (pointIndices c) -> minVisit <= length (pointIndices c) ->
    tiling n minVisit j cs -> tiling n minVisit i (c :: cs)
| tiling_travel i c cs :
    ctype c = Travel -> 1 < minVisit -> i < n ->
    pointIndices c = seq i (travelSize n minVisit i) ->
    tiling n minVisit (i + travelSize n minVisit i) cs -> tiling n minVisit i (c :: cs).

#[export] Hint Constructors tiling : locenh.

Lemma findLoop_correct `{M : Metric} fuel (locs : list LocationPoint) (clusterRadius : Q)
    (minVisitClusterSize minTravelClusterSize i : nat) :
  i <= length locs -> length locs - i < fuel ->
  exists cs, findLoop fuel locs clusterRadius minVisitClusterSize minTravelClusterSize i = Some cs /\
    tiling (length locs) minVisitClusterSize i cs.
Proof.
  revert i. induction fuel as [|fuel IH]; intros i Hi Hf; [lia|]. simpl.
  destruct (Nat.ltb_spec i (length locs)) as [Hlt|Hge].
  - destruct (tryCreateVisitCluster_correct locs i clusterRadius minVisitClusterSize
                minTravelClusterSize Hlt) as (vr & Hvr & Hnext & Hcase).
    rewrite Hvr. simpl.
    destruct Hcase as [(Hs & c & Hc & Hty & Hsp & Hsz) | (Hs & Hc & Hmv)]; rewrite Hs.
    + rewrite Hc. simpl.
      destruct (IH (nextIndex vr)) as (cs & Hcs & Ht); [lia | lia|].
      rewrite Hcs. simpl. eexists. split; [reflexivity|]. eapply tiling_visit; eauto.
    + destruct (createTravelCluster_correct locs i minVisitClusterSize Hmv Hlt)
        as (pS & pE & _ & _ & Htc). rewrite Htc. simpl.
      set (m := travelSize (length locs) minVisitClusterSize i).
      assert (Hm : 0 < m) by (unfold m, travelSize; lia).
      destruct m as [|m'] eqn:Em; [lia|]. rewrite last_seq.
      destruct (IH (S (i + m'))) as (cs & Hcs & Ht); [unfold m, travelSize in Em; lia | lia|].
      rewrite Hcs. simpl. eexists. split; [reflexivity|].
      apply tiling_travel; auto; fold m; rewrite Em; [done|].
      replace (i + S m') with (S (i + m')) by lia. exact Ht.
  - replace i with (length locs) by lia. exists []. split; [done | constructor].
Qed.

(** [findLocationClusters] always returns a cluster list: the scan
    terminates within its fuel and never reads outside the array.  The list
    is empty for fewer than two points, and for two or more it tiles the
    whole array from index [0] to [n]. *)
Lemma findLocationClusters_tiling `{M : Metric} (locations : list LocationPoint)
    (clusterRadius : Q) (minVisitClusterSize minTravelClusterSize : nat) :
  exists cs, findLocationClusters locations clusterRadius minVisitClusterSize
               minTravelClusterSize = Some cs /\
    (length locations <= 1 -> cs = []) /\
    (2 <= length locations -> tiling (length locations) minVisitClusterSize 0 cs).
Proof.
  unfold findLocationClusters.
  destruct (Nat.leb_spec (length locations) 1) as [Hle|Hgt].
  - exists []. split; [done|]. split; [done | lia].
  - destruct (findLoop_correct (S (length locations)) locations clusterRadius
                minVisitClusterSize minTravelClusterSize 0) as (cs & Hcs & Ht); [lia | lia|].
    exists cs. split; [exact Hcs|]. split; [lia | done].
Qed.

(** ** Consequences of the tiling *)

(** The indices of all clusters, in order. *)
Definition allIndices (cs : list Cluster) : list nat := concat (map pointIndices cs).

Section TilingFacts.
Variables n minVisit : nat.

Lemma tiling_travel_span i : 1 < minVisit -> i < n ->
  spans i (i + travelSize n minVisit i) (seq i (travelSize n minVisit i)).
Proof. intros. apply spans_seq. unfold travelSize. lia. Qed.

Lemma tiling_le i cs : tiling n minVisit i cs -> i <= n.
Proof.
  induction 1; [lia | |unfold travelSize in *; lia].
  pose proof (spans_lt _ _ _ H0). lia.
Qed.

Lemma tiling_ordered i cs : tiling n minVisit i cs ->
  StronglySorted lt (allIndices cs) /\ Forall (fun x => i <= x < n) (allIndices cs).
Proof.
  induction 1 as [|i j c cs Hty Hsp Hsz Ht [IHs IHb]|i c cs Hty Hmv Hi Hidx Ht [IHs IHb]];
    unfold allIndices in *; simpl.
  - split; constructor.
  - apply (spans_app i j); auto. exact (tiling_le _ _ Ht).
  - rewrite Hidx. apply (spans_app i (i + travelSize n minVisit i)); auto.
    + by apply tiling_travel_span.
    + exact (tiling_le _ _ Ht).
Qed.

Lemma tiling_visit_size i cs : tiling n minVisit i cs ->
  Forall (fun c => ctype c = Visit -> minVisit <= length (pointIndices c)) cs.
Proof. induction 1; constructor; auto; congruence. Qed.

Lemma tiling_travel_shape i cs : tiling n minVisit i cs ->
  Forall (fun c => ctype c = Travel ->
    exists k, k < n /\ pointIndices c = seq k (travelSize n minVisit k)) cs.
Proof. induction 1; constructor; eauto; congruence. Qed.

Lemma tiling_cover i cs : tiling n minVisit i cs -> forall x, i <= x < n ->
  In x (allIndices cs) \/
  exists c a b, In c cs /\ ctype c = Visit /\ spans a b (pointIndices c) /\ a < x < b - 1.
Proof.
  unfold allIndices.
  induction 1 as [|i j c cs Hty Hsp Hsz Ht IH|i c cs Hty Hmv Hi Hidx Ht IH]; intros x Hx;
    simpl; [lia| |].
  - destruct (decide (x < j)) as [Hxj|Hxj].
    + destruct (in_dec Nat.eq_dec x (pointIndices c)) as [Hin|Hnin];
        [left; apply in_or_app; by left|].
      right. exists c, i, j. split; [by left|]. split; [done|]. split; [done|].
      assert (x <> i) by (intros ->; apply Hnin, (spans_head_in _ _ _ Hsp)).
      assert (x <> j - 1) by (intros ->; apply Hnin, (spans_last_in _ _ _ Hsp)). lia.
    + destruct (IH x) as [Hin|(c' & a & b & Hc' & Hrest)]; [lia| |].
      * left. apply in_or_app. by right.
      * right. exists c', a, b. split; [by right | exact Hrest].
  - destruct (decide (x < i + travelSize n minVisit i)) as [Hxj|Hxj].
    + left. apply in_or_app. left. rewrite Hidx. apply in_seq. lia.
    + destruct (IH x) as [Hin|(c' & a & b & Hc' & Hrest)]; [lia| |].
      * left. apply in_or_app. by right.
      * right. exists c', a, b. split; [by right | exact Hrest].
Qed.
End TilingFacts.

Lemma findLocationClusters_some_tiling `{M : Metric} (locs : list LocationPoint) (r : Q)
    (minVisit minTravel : nat) (cs : list Cluster) :
  findLocationClusters locs r minVisit minTravel = Some cs ->
  (length locs <= 1 /\ cs = []) \/ (2 <= length locs /\ tiling (length locs) minVisit 0 cs).
Proof.
  intros H. destruct (findLocationClusters_tiling locs r minVisit minTravel) as (cs' & H' & H1 & H2).
  rewrite H in H'. injection H' as <-.
  destruct (Nat.le_gt_cases (length locs) 1); [left | right]; auto with lia.
Qed.

(** [C1] [findLocationClusters] never fails (its loops terminate and it
    never reads outside the array) and the indices of the clusters it
    returns, read in order, are strictly increasing and inside the array:
    no point is reported twice and clusters appear in index order. *)
Theorem findLocationClusters_total_ordered `{M : Metric} (locs : list LocationPoint) (r : Q)
    (minVisit minTravel : nat) :
  exists cs, findLocationClusters locs r minVisit minTravel = Some cs /\
    StronglySorted lt (allIndices cs) /\ Forall (fun x => x < length locs) (allIndices cs).
Proof.
  destruct (findLocationClusters_tiling locs r minVisit minTravel) as (cs & H & H1 & H2).
  exists cs. split; [exact H|].
  destruct (Nat.le_gt_cases (length locs) 1) as [Hle|Hgt].
  - rewrite (H1 Hle). split; constructor.
  - destruct (tiling_ordered _ _ _ _ (H2 Hgt)) as [Hs Hb]. split; [exact Hs|].
    eapply Forall_impl; [exact Hb|]. simpl. lia.
Qed.

(** [C2] Every index of an input of at least two points is either in a
    cluster or strictly inside the span of a visit cluster (a transient
    point skipped during that visit's growth). *)
Theorem findLocationClusters_coverage `{M : Metric} (locs : list LocationPoint) (r : Q)
    (minVisit minTravel : nat) (cs : list Cluster) :
  findLocationClusters locs r minVisit minTravel = Some cs -> 2 <= length locs ->
  forall x, x < length locs ->
    In x (allIndices cs) \/
    exists c a b, In c cs /\ ctype c = Visit /\ spans a b (pointIndices c) /\ a < x < b - 1.
Proof.
  intros H Hn x Hx. destruct (findLocationClusters_some_tiling _ _ _ _ _ H) as [[? _]|[_ Ht]]; [lia|].
  apply (tiling_cover _ _ _ _ Ht). lia.
Qed.

(** [C4] Every visit cluster that discovery returns has at least
    [minVisitClusterSize] points. *)
Theorem findLocationClusters_visit_size `{M : Metric} (locs : list LocationPoint) (r : Q)
    (minVisit minTravel : nat) (cs : list Cluster) :
  findLocationClusters locs r minVisit minTravel = Some cs ->
  forall c, In c cs -> ctype c = Visit -> minVisit <= length (pointIndices c).
Proof.
  intros H c Hc. destruct (findLocationClusters_some_tiling _ _ _ _ _ H) as [[_ ->]|[_ Ht]];
    [done|].
  exact (proj1 (List.Forall_forall _ _) (tiling_visit_size _ _ _ _ Ht) c Hc).
Qed.

(** [C5] Every travel cluster that discovery returns is the run of
    [min (minVisitClusterSize - 1) (n - k)] consecutive indices from some
    index [k] of the array. *)
Theorem findLocationClusters_travel_size `{M : Metric} (locs : list LocationPoint) (r : Q)
    (minVisit minTravel : nat) (cs : list Cluster) :
  findLocationClusters locs r minVisit minTravel = Some cs ->
  forall c, In c cs -> ctype c = Travel ->
    exists k, k < length locs /\
      pointIndices c = seq k (Nat.min (minVisit - 1) (length locs - k)).
Proof.
  intros H c Hc. destruct (findLocationClusters_some_tiling _ _ _ _ _ H) as [[_ ->]|[_ Ht]];
    [done|].
  exact (proj1 (List.Forall_forall _ _) (tiling_travel_shape _ _ _ _ Ht) c Hc).
Qed.

(** ** One-step equations of the loops *)

Section StepEquations.
Context `{M : Metric}.
Variable locs : list LocationPoint.
Variable r : Q.
Variables minVisit minTravel : nat.

Lemma lookaheadScan_step_hit c k fuel p :
  locs !! k = Some p -> within r c (coord p) = true ->
  lookaheadScan locs c r k (S fuel) = Some k.
Proof. intros Hk Hw. cbn [lookaheadScan]. by rewrite Hk, Hw. Qed.

Lemma lookaheadScan_step_miss c k fuel p :
  locs !! k = Some p -> within r c (coord p) = false ->
  lookaheadScan locs c r k (S fuel) = lookaheadScan locs c r (S k) fuel.
Proof. intros Hk Hw. cbn [lookaheadScan]. by rewrite Hk, Hw. Qed.

Lemma lookaheadScan_step_end c k fuel :
  locs !! k = None -> lookaheadScan locs c r k (S fuel) = None.
Proof. intros Hk. cbn [lookaheadScan]. by rewrite Hk. Qed.

Lemma growLoop_step_absorb fuel st pj la lo :
  locs !! gj st = Some pj -> within r (mkCoord (gLat st) (gLon st)) (coord pj) = true ->
  centroidOf locs (pointIndices (gcluster st) ++ [gj st]) = Some (la, lo) ->
  growLoop (S fuel) locs r minTravel st =
  growLoop fuel locs r minTravel (mkGrow (absorb (gcluster st) (gj st) (pointTime pj)) la lo (S (gj st))).
Proof. intros Hj Hw Hc. cbn [growLoop]. rewrite Hj, Hw. simpl. by rewrite Hc. Qed.

Lemma growLoop_step_skip fuel st pj k :
  locs !! gj st = Some pj -> within r (mkCoord (gLat st) (gLon st)) (coord pj) = false ->
  lookaheadScan locs (mkCoord (gLat st) (gLon st)) r (gj st) (minTravel + 1) = Some k ->
  growLoop (S fuel) locs r minTravel st =
  growLoop fuel locs r minTravel (mkGrow (gcluster st) (gLat st) (gLon st) k).
Proof.
  intros Hj Hw Hs. cbn [growLoop]. rewrite Hj, Hw. unfold trySkipTransientPoints. by rewrite Hs.
Qed.

Lemma growLoop_step_break fuel st pj :
  locs !! gj st = Some pj -> within r (mkCoord (gLat st) (gLon st)) (coord pj) = false ->
  lookaheadScan locs (mkCoord (gLat st) (gLon st)) r (gj st) (minTravel + 1) = None ->
  growLoop (S fuel) locs r minTravel st = Some st.
Proof.
  intros Hj Hw Hs. cbn [growLoop]. rewrite Hj, Hw. unfold trySkipTransientPoints. by rewrite Hs.
Qed.

Lemma growLoop_step_end fuel st :
  locs !! gj st = None -> growLoop (S fuel) locs r minTravel st = Some st.
Proof. intros Hj. cbn [growLoop]. by rewrite Hj. Qed.

Lemma tryCreateVisitCluster_run s p0 st :
  locs !! s = Some p0 ->
  growLoop (S (length locs)) locs r minTravel
    (mkGrow (mkCluster Visit [s] (pointTime p0) (pointTime p0) None None None None)
       (lat p0) (lon p0) (S s)) = Some st ->
  tryCreateVisitCluster locs s r minVisit minTravel =
  Some (if minVisit <=? length (pointIndices (gcluster st))
        then mkVisit true
               (Some (mkCluster (ctype (gcluster st)) (pointIndices (gcluster st))
                        (startTime (gcluster st)) (endTime (gcluster st))
                        (Some (gLat st)) (Some (gLon st))
                        (travelStartTime (gcluster st)) (travelEndTime (gcluster st))))
               (gj st)
        else mkVisit false None (gj st)).
Proof.
  intros H0 Hg. unfold tryCreateVisitCluster. rewrite H0. cbn -[growLoop]. rewrite Hg.
  cbn -[Nat.leb]. by destruct (_ <=? _).
Qed.

Lemma findLoop_step_visit fuel i vr c :
  i < length locs -> tryCreateVisitCluster locs i r minVisit minTravel = Some vr ->
  success vr = true -> vcluster vr = Some c ->
  findLoop (S fuel) locs r minVisit minTravel i =
  (rest <- findLoop fuel locs r minVisit minTravel (nextIndex vr); Some (c :: rest)).
Proof.
  intros Hi Hv Hs Hc. cbn [findLoop]. rewrite (proj2 (Nat.ltb_lt _ _) Hi), Hv. simpl.
  by rewrite Hs, Hc.
Qed.

Lemma findLoop_step_travel fuel i vr tc l :
  i < length locs -> tryCreateVisitCluster locs i r minVisit minTravel = Some vr ->
  success vr = false -> createTravelCluster locs i minVisit = Some tc ->
  last (pointIndices tc) = Some l ->
  findLoop (S fuel) locs r minVisit minTravel i =
  (rest <- findLoop fuel locs r minVisit minTravel (S l); Some (tc :: rest)).
Proof.
  intros Hi Hv Hs Htc Hl. cbn [findLoop]. rewrite (proj2 (Nat.ltb_lt _ _) Hi), Hv. simpl.
  rewrite Hs, Htc. simpl. by rewrite Hl.
Qed.

Lemma findLoop_at_end fuel i :
  0 < fuel -> length locs <= i -> findLoop fuel locs r minVisit minTravel i = Some [].
Proof.
  intros Hf Hi. destruct fuel as [|fuel]; [lia|].
  cbn [findLoop]. by rewrite (proj2 (Nat.ltb_ge _ _) Hi).
Qed.
End StepEquations.

(** Discharge a [within] test on points equivalent to [A] or [B]. *)
Ltac solve_coord_eq := unfold coord_eq; cbn [coord lat lon clat clon gLat gLon pointAt]; split; field.
Ltac within_by A B Hr HAB :=
  first [ rewrite (within_coord_eq _ _ A _ A) by solve_coord_eq; exact (within_refl _ A Hr)
        | rewrite (within_coord_eq _ _ A _ B) by solve_coord_eq; exact HAB ].

(** ** Transient points are dropped *)

(** [C3] The exact coverage that the specification states fails for every
    metric: with [minVisitClusterSize = 3] and a lookahead of at least two
    points, the track [A, A, B, A, B] (with [B] outside the radius of [A])
    gives a visit [{0, 1, 3}] and a travel [{4}]; index [2], the transient
    point skipped by the visit, belongs to no cluster, so it is missing from
    the output. *)
Theorem findLocationClusters_drops_transient `{M : Metric} (A B : Coord) (r : Q) (minTravel : nat) :
  (0 <= r)%Q -> within r A B = false -> 1 <= minTravel ->
  exists cs,
    findLocationClusters [pointAt A 1; pointAt A 2; pointAt B 3; pointAt A 4; pointAt B 5]
      r 3 minTravel = Some cs /\
    map pointIndices cs = [[0; 1; 3]; [4]] /\ ~ In 2 (allIndices cs).
Proof.
  intros Hr HAB Hmt. destruct minTravel as [|mt]; [lia|].
  set (L := [pointAt A 1; pointAt A 2; pointAt B 3; pointAt A 4; pointAt B 5]).
  eassert (Hg : growLoop 6 L r (S mt)
     (mkGrow (mkCluster Visit [0] (pointTime (pointAt A 1)) (pointTime (pointAt A 1))
                None None None None) (lat (pointAt A 1)) (lon (pointAt A 1)) 1) = Some _).
  { erewrite growLoop_step_absorb with (pj := pointAt A 2);
      [| reflexivity | within_by A B Hr HAB | cbn; reflexivity].
    erewrite growLoop_step_skip with (pj := pointAt B 3); [| reflexivity | within_by A B Hr HAB |].
    2:{ rewrite Nat.add_1_r.
        erewrite lookaheadScan_step_miss with (p := pointAt B 3); [| reflexivity | within_by A B Hr HAB].
        erewrite lookaheadScan_step_hit with (p := pointAt A 4);
          [reflexivity | reflexivity | within_by A B Hr HAB]. }
    erewrite growLoop_step_absorb with (pj := pointAt A 4);
      [| reflexivity | within_by A B Hr HAB | cbn; reflexivity].
    erewrite growLoop_step_break with (pj := pointAt B 5);
      [reflexivity | reflexivity | within_by A B Hr HAB |].
    rewrite Nat.add_1_r.
    erewrite lookaheadScan_step_miss with (p := pointAt B 5); [| reflexivity | within_by A B Hr HAB].
    apply lookaheadScan_step_end. reflexivity. }
  unfold findLocationClusters. replace (length L) with 5 by reflexivity. cbn [Nat.leb].
  pose proof (tryCreateVisitCluster_run L r 3 (S mt) 0 (pointAt A 1) _ eq_refl Hg) as Hv0.
  cbn in Hv0.
  erewrite findLoop_step_visit; [| cbn; lia | exact Hv0 | reflexivity | reflexivity].
  assert (Hv4 : tryCreateVisitCluster L 4 r 3 (S mt) = Some (mkVisit false None 5)).
  { erewrite tryCreateVisitCluster_run; [| reflexivity | apply growLoop_step_end; reflexivity].
    reflexivity. }
  cbn [nextIndex].
  erewrite findLoop_step_travel; [| cbn; lia | exact Hv4 | reflexivity | reflexivity | reflexivity].
  rewrite findLoop_at_end; [| lia | cbn; lia].
  cbn. eexists. split; [reflexivity|]. split; [reflexivity|].
  vm_compute. intuition congruence.
Qed.

Lemma findLocationClusters_drops_transient_witness :
  (0 <= 20)%Q /\ planar_within 20 (mkCoord 0 0) (mkCoord 1 0) = false /\ 1 <= 7 /\
  exists cs,
    @findLocationClusters PlanarMetric
      [pointAt (mkCoord 0 0) 1; pointAt (mkCoord 0 0) 2; pointAt (mkCoord 1 0) 3;
       pointAt (mkCoord 0 0) 4; pointAt (mkCoord 1 0) 5] 20 3 7 = Some cs /\
    map pointIndices cs = [[0; 1; 3]; [4]] /\ ~ In 2 (allIndices cs).
Proof.
  split; [unfold Qle; simpl; lia|]. split; [vm_compute; reflexivity|]. split; [lia|].
  apply (findLocationClusters_drops_transient (M := PlanarMetric) (mkCoord 0 0) (mkCoord 1 0) 20 7).
  - unfold Qle; simpl; lia.
  - vm_compute. reflexivity.
  - lia.
Defined.

(** ** A device that does not move *)

Lemma centroidOf_stationary (locs : list LocationPoint) (A : Coord) (idxs : list nat) (la lo : Q) :
  Forall (fun p => coord_eq (coord p) A) locs -> idxs <> [] ->
  centroidOf locs idxs = Some (la, lo) -> coord_eq (mkCoord la lo) A.
Proof.
  intros Hall Hne Hc. unfold centroidOf in Hc.
  destruct (mapM _ idxs) as [pts|] eqn:Hm; [|discriminate]. simpl in Hc. injection Hc as <- <-.
  pose proof (length_mapM _ _ _ Hm) as Hlen. apply mapM_Some_1 in Hm.
  assert (Hpts : Forall (fun p => coord_eq (coord p) A) pts).
  { clear Hne Hlen. induction Hm as [|x y idxs' pts' Hxy _ IH]; [by constructor|].
    apply Forall_cons. split; [exact (Forall_lookup_1 _ _ _ _ Hall Hxy) | exact IH]. }
  assert (Hpne : pts <> []) by (destruct pts, idxs; simpl in *; congruence || lia).
  split; cbn [clat clon].
  - rewrite <- (length_map lat pts). apply qsum_const_mean.
    + by destruct pts.
    + apply (proj2 (List.Forall_map _ _ _)). eapply Forall_impl; [exact Hpts|]. by intros p [H _].
  - rewrite <- (length_map lon pts). apply qsum_const_mean.
    + by destruct pts.
    + apply (proj2 (List.Forall_map _ _ _)). eapply Forall_impl; [exact Hpts|]. by intros p [_ H].
Qed.

Lemma growLoop_stationary `{M : Metric} fuel (locs : list LocationPoint) (r : Q) (minTravel : nat)
    (A : Coord) (s : nat) (st : GrowState) :
  (0 <= r)%Q -> Forall (fun p => coord_eq (coord p) A) locs ->
  coord_eq (mkCoord (gLat st) (gLon st)) A -> s < gj st <= length locs ->
  pointIndices (gcluster st) = seq s (gj st - s) -> length locs - gj st < fuel ->
  exists st', growLoop fuel locs r minTravel st = Some st' /\ gj st' = length locs /\
    pointIndices (gcluster st') = seq s (length locs - s) /\
    ctype (gcluster st') = ctype (gcluster st).
Proof.
  intros Hr Hall. revert st. induction fuel as [|fuel IH]; intros st Hc Hj Hidx Hf; [lia|].
  destruct (locs !! gj st) as [pj|] eqn:Hpj.
  - pose proof (lookup_lt_Some _ _ _ Hpj) as Hlt.
    assert (Hw : within r (mkCoord (gLat st) (gLon st)) (coord pj) = true).
    { rewrite (within_coord_eq r _ A _ A Hc (Forall_lookup_1 _ _ _ _ Hall Hpj)).
      by apply within_refl. }
    assert (Hseq : pointIndices (gcluster st) ++ [gj st] = seq s (S (gj st) - s)).
    { rewrite Hidx. replace (S (gj st) - s) with (S (gj st - s)) by lia.
      rewrite seq_S. do 3 f_equal. lia. }
    destruct (centroidOf_in_range locs (pointIndices (gcluster st) ++ [gj st])) as (la & lo & Hce).
    { rewrite Hseq. apply List.Forall_forall. intros x Hx%in_seq. lia. }
    rewrite (growLoop_step_absorb locs r minTravel fuel st pj la lo Hpj Hw Hce).
    destruct (IH (mkGrow (absorb (gcluster st) (gj st) (pointTime pj)) la lo (S (gj st))))
      as (st' & H1 & H2 & H3 & H4); simpl; try lia.
    + apply (centroidOf_stationary locs A (pointIndices (gcluster st) ++ [gj st]) la lo Hall); [|exact Hce].
      intros Hnil. apply app_eq_nil in Hnil as [_ ?]. discriminate.
    + exact Hseq.
    + exists st'. auto.
  - apply lookup_ge_None in Hpj. rewrite growLoop_step_end by (apply lookup_ge_None; lia).
    exists st. split; [done|]. split; [lia|]. split; [rewrite Hidx; do 2 f_equal; lia | done].
Qed.

(** A track that never moves is one visit. *)
Lemma findLocationClusters_stationary_run `{M : Metric} (locs : list LocationPoint) (A : Coord)
    (r : Q) (minVisit minTravel : nat) :
  (0 <= r)%Q -> 2 <= length locs -> minVisit <= length locs ->
  Forall (fun p => coord_eq (coord p) A) locs ->
  exists c, findLocationClusters locs r minVisit minTravel = Some [c] /\
    ctype c = Visit /\ pointIndices c = seq 0 (length locs).
Proof.
  intros Hr Hn Hmv Hall.
  destruct (lookup_lt_is_Some_2 locs 0) as [p0 Hp0]; [lia|].
  destruct (growLoop_stationary (S (length locs)) locs r minTravel A 0
              (mkGrow (mkCluster Visit [0] (pointTime p0) (pointTime p0) None None None None)
                 (lat p0) (lon p0) 1)) as (st & Hg & Hj & Hidx & Hty); simpl; try lia; auto.
  { exact (Forall_lookup_1 _ _ _ _ Hall Hp0). }
  pose proof (tryCreateVisitCluster_run locs r minVisit minTravel 0 p0 st Hp0 Hg) as Hv.
  rewrite Hidx, length_seq, Nat.sub_0_r, (proj2 (Nat.leb_le _ _) Hmv) in Hv.
  unfold findLocationClusters. rewrite (proj2 (Nat.leb_gt _ _)) by lia.
  erewrite findLoop_step_visit; [| lia | exact Hv | reflexivity | reflexivity].
  cbn [nextIndex]. rewrite Hj, findLoop_at_end by lia. simpl.
  eexists. split; [reflexivity|]. simpl. rewrite Hty. done.
Qed.

(** A device that does not move: when all points of a track of
    [n >= 2] points have the coordinates of one location [A], the radius is
    non-negative and [minVisitClusterSize <= n], discovery returns a single
    visit cluster that holds every index. *)
Theorem findLocationClusters_stationary `{M : Metric} (locs : list LocationPoint) (A : Coord)
    (r : Q) (minVisit minTravel : nat) :
  (0 <= r)%Q -> 2 <= length locs -> minVisit <= length locs ->
  Forall (fun p => coord_eq (coord p) A) locs ->
  exists c, findLocationClusters locs r minVisit minTravel = Some [c] /\
    ctype c = Visit /\ pointIndices c = seq 0 (length locs).
Proof. apply findLocationClusters_stationary_run. Qed.

Lemma findLocationClusters_stationary_witness :
  exists c, @findLocationClusters PlanarMetric
    [pointAt (mkCoord 1 2) 10; pointAt (mkCoord 1 2) 20; pointAt (mkCoord 1 2) 30] 20 3 7 = Some [c] /\
    ctype c = Visit /\ pointIndices c = seq 0 3.
Proof.
  apply (findLocationClusters_stationary (M := PlanarMetric)
           [pointAt (mkCoord 1 2) 10; pointAt (mkCoord 1 2) 20; pointAt (mkCoord 1 2) 30]
           (mkCoord 1 2) 20 3 7).
  - unfold Qle; simpl; lia.
  - simpl; lia.
  - simpl; lia.
  - repeat constructor.
Defined.

(** ** A device that never stays *)

(** No two distinct points of the track are within [r] of each other. *)
Definition isolated `{M : Metric} (locs : list LocationPoint) (r : Q) : Prop :=
  forall i k p q, i <> k -> locs !! i = Some p -> locs !! k = Some q ->
    within r (coord p) (coord q) = false.

(** The pairs [(index, point)] of a list, indices from [k]. *)
Fixpoint indexed {A} (k : nat) (l : list A) : list (nat * A) :=
  match l with
  | [] => []
  | x :: l' => (k, x) :: indexed (S k) l'
  end.

Lemma indexed_lookup {A} (l : list A) k i x : l !! i = Some x -> In (k + i, x) (indexed k l).
Proof.
  revert k i. induction l as [|y l IH]; intros k i Hi; [done|].
  destruct i as [|i]; simpl in Hi.
  - injection Hi as ->. left. f_equal. lia.
  - right. replace (k + S i) with (S k + i) by lia. by apply IH.
Qed.

(** A decision procedure for [isolated]. *)
Definition isolatedb `{M : Metric} (locs : list LocationPoint) (r : Q) : bool :=
  forallb (fun ip => forallb (fun kq => Nat.eqb (fst ip) (fst kq) ||
                                      negb (within r (coord (snd ip)) (coord (snd kq))))
                             (indexed 0 locs))
          (indexed 0 locs).

Lemma isolatedb_sound `{M : Metric} (locs : list LocationPoint) (r : Q) :
  isolatedb locs r = true -> isolated locs r.
Proof.
  unfold isolatedb. intros H i k p q Hik Hp Hq.
  rewrite forallb_forall in H. specialize (H _ (indexed_lookup locs 0 i p Hp)).
  rewrite forallb_forall in H. specialize (H _ (indexed_lookup locs 0 k q Hq)).
  simpl in H. destruct (Nat.eqb_spec i k); [done|]. simpl in H.
  by apply negb_true_iff in H.
Qed.

Lemma lookaheadScan_all_miss `{M : Metric} (locs : list LocationPoint) (c : Coord) (r : Q) k fuel :
  (forall t, k <= t -> ~ returns_at locs r c t) -> lookaheadScan locs c r k fuel = None.
Proof.
  revert k. induction fuel as [|fuel IH]; intros k H; [done|]. cbn [lookaheadScan].
  destruct (locs !! k) as [p|] eqn:Hk; [|done].
  destruct (within r c (coord p)) eqn:Hw.
  - exfalso. apply (H k); [lia | exists p; auto].
  - apply IH. intros t Ht. apply H. lia.
Qed.

Lemma tryCreateVisitCluster_isolated `{M : Metric} (locs : list LocationPoint) (r : Q)
    (minVisit minTravel i : nat) :
  1 < minVisit -> i < length locs -> isolated locs r ->
  tryCreateVisitCluster locs i r minVisit minTravel = Some (mkVisit false None (S i)).
Proof.
  intros Hmv Hi Hiso. destruct (lookup_lt_is_Some_2 locs i Hi) as [p0 Hp0].
  set (st0 := mkGrow (mkCluster Visit [i] (pointTime p0) (pointTime p0) None None None None)
                (lat p0) (lon p0) (S i)).
  assert (Hg : growLoop (S (length locs)) locs r minTravel st0 = Some st0).
  { destruct (locs !! S i) as [q|] eqn:Hq; [|by apply growLoop_step_end].
    apply (growLoop_step_break locs r minTravel _ st0 q Hq); [exact (Hiso i (S i) p0 q ltac:(lia) Hp0 Hq)|].
    apply lookaheadScan_all_miss. intros t Ht (p & Hp & Hw). unfold st0 in Ht. simpl in Ht.
    pose proof (Hiso i t p0 p ltac:(lia) Hp0 Hp) as Hf.
    unfold st0 in Hw. cbn [gLat gLon] in Hw. unfold coord in Hf, Hw. congruence. }
  rewrite (tryCreateVisitCluster_run locs r minVisit minTravel i p0 st0 Hp0 Hg). simpl.
  destruct minVisit as [|[|mv]]; [lia | lia | reflexivity].
Qed.

Lemma findLoop_isolated `{M : Metric} fuel (locs : list LocationPoint) (r : Q)
    (minVisit minTravel i : nat) :
  1 < minVisit -> isolated locs r -> i <= length locs -> length locs - i < fuel ->
  exists cs, findLoop fuel locs r minVisit minTravel i = Some cs /\
    Forall (fun c => ctype c = Travel) cs /\ allIndices cs = seq i (length locs - i).
Proof.
  intros Hmv Hiso. revert i. induction fuel as [|fuel IH]; intros i Hi Hf; [lia|].
  destruct (Nat.lt_ge_cases i (length locs)) as [Hlt|Hge].
  - destruct (createTravelCluster_correct locs i minVisit Hmv Hlt) as (pS & pE & _ & _ & Htc).
    set (m := travelSize (length locs) minVisit i) in Htc.
    assert (Hm : 0 < m <= length locs - i) by (unfold m, travelSize; lia).
    destruct m as [|m'] eqn:Em; [lia|].
    rewrite (findLoop_step_travel locs r minVisit minTravel fuel i _ _ (i + m') Hlt
               (tryCreateVisitCluster_isolated locs r minVisit minTravel i Hmv Hlt Hiso)
               eq_refl Htc (last_seq i m')).
    destruct (IH (S (i + m'))) as (cs & Hcs & Hty & Hidx); [lia | lia |].
    rewrite Hcs. simpl. eexists. split; [reflexivity|]. split; [by constructor|].
    unfold allIndices in *. simpl. rewrite Hidx.
    replace (length locs - i) with (S m' + (length locs - S (i + m'))) by lia.
    rewrite seq_app. by replace (i + S m') with (S (i + m')) by lia.
  - rewrite findLoop_at_end by lia. exists []. split; [done|]. split; [constructor|].
    replace (length locs - i) with 0 by lia. done.
Qed.

(** [C7] A device that never stays: when no two distinct points are within
    the radius of each other and [minVisitClusterSize >= 2], every
    discovered cluster is a travel and, together, they hold every index of
    the track in order. *)
Theorem findLocationClusters_isolated `{M : Metric} (locs : list LocationPoint) (r : Q)
    (minVisit minTravel : nat) :
  1 < minVisit -> 2 <= length locs -> isolated locs r ->
  exists cs, findLocationClusters locs r minVisit minTravel = Some cs /\
    Forall (fun c => ctype c = Travel) cs /\ allIndices cs = seq 0 (length locs).
Proof.
  intros Hmv Hn Hiso. unfold findLocationClusters. rewrite (proj2 (Nat.leb_gt _ _)) by lia.
  destruct (findLoop_isolated (S (length locs)) locs r minVisit minTravel 0 Hmv Hiso)
    as (cs & Hcs & Hty & Hidx); [lia | lia |].
  exists cs. rewrite Nat.sub_0_r in Hidx. auto.
Qed.

Lemma findLocationClusters_isolated_witness :
  exists cs, @findLocationClusters PlanarMetric
    [pointAt (mkCoord 0 0) 1; pointAt (mkCoord 1 0) 2; pointAt (mkCoord 2 0) 3] 20 3 7 = Some cs /\
    Forall (fun c => ctype c = Travel) cs /\ allIndices cs = seq 0 3.
Proof.
  apply (findLocationClusters_isolated (M := PlanarMetric)
           [pointAt (mkCoord 0 0) 1; pointAt (mkCoord 1 0) 2; pointAt (mkCoord 2 0) 3] 20 3 7);
    [lia | simpl; lia | apply isolatedb_sound; vm_compute; reflexivity].
Defined.

(** ** Concrete runs for the claims with hypotheses *)

(** The track of [findLocationClusters_drops_transient] at [(0, 0)] and
    [(1, 0)]. *)
Definition transient_track : list LocationPoint :=
  [pointAt (mkCoord 0 0) 1; pointAt (mkCoord 0 0) 2; pointAt (mkCoord 1 0) 3;
   pointAt (mkCoord 0 0) 4; pointAt (mkCoord 1 0) 5].

Lemma findLocationClusters_coverage_witness :
  exists cs, @findLocationClusters PlanarMetric transient_track 20 3 7 = Some cs /\
    (In 2 (allIndices cs) \/
     exists c a b, In c cs /\ ctype c = Visit /\ spans a b (pointIndices c) /\ a < 2 < b - 1).
Proof.
  eexists. split; [reflexivity|].
  apply (findLocationClusters_coverage (M := PlanarMetric) transient_track 20 3 7);
    [reflexivity | simpl; lia | simpl; lia].
Defined.

Lemma findLocationClusters_visit_size_witness :
  exists cs c, @findLocationClusters PlanarMetric transient_track 20 3 7 = Some cs /\
    In c cs /\ ctype c = Visit /\ 3 <= length (pointIndices c).
Proof.
  do 2 eexists. split; [reflexivity|]. split; [left; reflexivity|]. split; [reflexivity|].
  eapply (findLocationClusters_visit_size (M := PlanarMetric) transient_track 20 3 7);
    [reflexivity | left; reflexivity | reflexivity].
Defined.

Lemma findLocationClusters_travel_size_witness :
  exists cs c, @findLocationClusters PlanarMetric transient_track 20 3 7 = Some cs /\
    In c cs /\ ctype c = Travel /\
    exists k, k < 5 /\ pointIndices c = seq k (Nat.min 2 (5 - k)).
Proof.
  do 2 eexists. split; [reflexivity|]. split; [right; left; reflexivity|]. split; [reflexivity|].
  eapply (findLocationClusters_travel_size (M := PlanarMetric) transient_track 20 3 7);
    [reflexivity | right; left; reflexivity | reflexivity].
Defined.
