(* ===== verification/Merge.v ===== *)
(** * Merging consecutive travel clusters

    [mergeConsecutiveTravelClusters] of [src/src/store/locationEnhancer.js]
    (lines 395-439).  Its two index loops are fuelled Fixpoints ([None]
    when the fuel runs out); [mergeRef] is a structural reference that
    folds each run of adjacent travel clusters into one.  The theorems show
    that the code computes the reference (so the fuel is enough), and the
    properties of the reference: indices and visits are preserved, no two
    travel clusters stay adjacent, each run of travels becomes one travel
    with the run's first start and last end, and the pass is idempotent. *)

From stdpp Require Import base list options.
From Stdlib Require Import ZArith QArith Lia.
From S2P Require Import Prelude Geometry Points Discovery.
Local Open Scope nat_scope.

(** Lines 406-411: a fresh travel cluster that copies the indices and the
    times of [c] (the other fields are not copied). *)
Definition freshTravel (c : Cluster) : Cluster :=
  mkCluster Travel (pointIndices c) (startTime c) (endTime c) None None None None.

(** Lines 417-418: append the indices of [c] and take its [endTime]. *)
Definition appendTravel (acc c : Cluster) : Cluster :=
  mkCluster Travel (pointIndices acc ++ pointIndices c) (startTime acc) (endTime c)
    None None None None.

Definition is_travel (c : Cluster) : bool := bool_decide (ctype c = Travel).

(** The inner [while] of lines 415-420: absorb the travel clusters from
    index [j] on. *)
Fixpoint collectTravels (fuel : nat) (clusters : list Cluster) (acc : Cluster) (j : nat)
    : option (Cluster * nat) :=
  match fuel with
  | 0 => None
  | S fuel' =>
      match clusters !! j with
      | Some cj =>
          if is_travel cj then collectTravels fuel' clusters (appendTravel acc cj) (S j)
          else Some (acc, j)
      | None => Some (acc, j)
      end
  end.

(** The outer [while] of lines 401-436. *)
Fixpoint mergeLoop (fuel : nat) (clusters : list Cluster) (i : nat) : option (list Cluster) :=
  match fuel with
  | 0 => None
  | S fuel' =>
      match clusters !! i with
      | None => Some []
      | Some currentCluster =>
          if is_travel currentCluster then
            '(mergedTravelCluster, j) <- collectTravels (S (length clusters)) clusters
                                          (freshTravel currentCluster) (S i);
            rest <- mergeLoop fuel' clusters j;
            Some (mergedTravelCluster :: rest)
          else
            rest <- mergeLoop fuel' clusters (S i);
            Some (currentCluster :: rest)
      end
  end.

Definition mergeConsecutiveTravelClusters (clusters : list Cluster) : option (list Cluster) :=
  if length clusters <=? 1 then Some clusters
  else mergeLoop (S (length clusters)) clusters 0.

(** ** The structural reference *)

Fixpoint mergeRef (cs : list Cluster) : list Cluster :=
  match cs with
  | [] => []
  | c :: cs' =>
      if is_travel c then
        match cs' with
        | d :: _ =>
            if is_travel d then
              match mergeRef cs' with
              | m :: ms => appendTravel (freshTravel c) m :: ms
              | [] => [freshTravel c]
              end
            else freshTravel c :: mergeRef cs'
        | [] => [freshTravel c]
        end
      else c :: mergeRef cs'
  end.

(** ** Lemmas *)

Lemma is_travel_spec c : is_travel c = true <-> ctype c = Travel.
Proof. unfold is_travel. by rewrite bool_decide_eq_true. Qed.

Lemma appendTravel_assoc a b c :
  appendTravel (appendTravel a b) c = appendTravel a (appendTravel b c).
Proof. unfold appendTravel. simpl. by rewrite app_assoc. Qed.

Lemma appendTravel_fresh a b : appendTravel (freshTravel a) b = appendTravel a b.
Proof. done. Qed.

(** The run of travel clusters at the head of a list, folded into one. *)
Fixpoint travelRun (acc : Cluster) (cs : list Cluster) : Cluster * list Cluster :=
  match cs with
  | c :: cs' => if is_travel c then travelRun (appendTravel acc c) cs' else (acc, cs)
  | [] => (acc, [])
  end.

Lemma collectTravels_run fuel clusters acc j :
  j <= length clusters -> length clusters - j < fuel ->
  collectTravels fuel clusters acc j = Some (fst (travelRun acc (drop j clusters)),
                                             length clusters - length (snd (travelRun acc (drop j clusters)))).
Proof.
  revert acc j. induction fuel as [|fuel IH]; intros acc j Hj0 Hf; [lia|]. cbn [collectTravels].
  destruct (clusters !! j) as [cj|] eqn:Hj.
  - rewrite (drop_S _ _ _ Hj). simpl travelRun.
    destruct (is_travel cj); [apply IH; pose proof (lookup_lt_Some _ _ _ Hj); lia|].
    simpl. rewrite length_drop. do 2 f_equal. pose proof (lookup_lt_Some _ _ _ Hj). lia.
  - apply lookup_ge_None in Hj. rewrite drop_ge by done. simpl. do 2 f_equal. lia.
Qed.

Lemma travelRun_app a b l :
  travelRun (appendTravel a b) l = (appendTravel a (fst (travelRun b l)), snd (travelRun b l)).
Proof.
  revert a b. induction l as [|c l IH]; intros a b; simpl; [done|].
  destruct (is_travel c); [|done]. rewrite appendTravel_assoc. apply IH.
Qed.

(** Only the indices and times of the accumulator matter. *)
Lemma travelRun_fresh a b l :
  appendTravel a (fst (travelRun (freshTravel b) l)) = appendTravel a (fst (travelRun b l)) /\
  snd (travelRun (freshTravel b) l) = snd (travelRun b l).
Proof. destruct l as [|e l]; simpl; [done|]. by destruct (is_travel e). Qed.

Lemma travelRun_suffix a l : exists k, k <= length l /\ snd (travelRun a l) = drop k l.
Proof.
  revert a. induction l as [|c l IH]; intros a; simpl; [exists 0; split; [lia | done]|].
  destruct (is_travel c); [|exists 0; split; [lia | done]].
  destruct (IH (appendTravel a c)) as (k & Hk & ->). exists (S k). split; [lia | done].
Qed.

Lemma mergeRef_cons c cs :
  mergeRef (c :: cs) =
  if is_travel c then
    match cs with
    | d :: _ =>
        if is_travel d then
          match mergeRef cs with
          | m :: ms => appendTravel (freshTravel c) m :: ms
          | [] => [freshTravel c]
          end
        else freshTravel c :: mergeRef cs
    | [] => [freshTravel c]
    end
  else c :: mergeRef cs.
Proof. reflexivity. Qed.

(** A travel cluster followed by the rest of the list: the run at its head
    becomes one cluster. *)
Lemma mergeRef_travel c rest :
  is_travel c = true ->
  mergeRef (c :: rest) = fst (travelRun (freshTravel c) rest) ::
                         mergeRef (snd (travelRun (freshTravel c) rest)).
Proof.
  revert c. induction rest as [|d rest IH]; intros c Hc; rewrite mergeRef_cons, Hc; [done|].
  simpl travelRun. destruct (is_travel d) eqn:Hd; [|reflexivity].
  rewrite (IH d Hd), travelRun_app. destruct (travelRun_fresh (freshTravel c) d rest) as [H1 H2].
  simpl. by rewrite H1, H2.
Qed.

Lemma mergeRef_visit c rest : is_travel c = false -> mergeRef (c :: rest) = c :: mergeRef rest.
Proof. intros Hc. by rewrite mergeRef_cons, Hc. Qed.

Lemma mergeLoop_ref fuel clusters i :
  i <= length clusters -> length clusters - i < fuel ->
  mergeLoop fuel clusters i = Some (mergeRef (drop i clusters)).
Proof.
  revert i. induction fuel as [|fuel IH]; intros i Hi Hf; [lia|]. cbn [mergeLoop].
  destruct (clusters !! i) as [c|] eqn:Hc.
  - pose proof (lookup_lt_Some _ _ _ Hc). rewrite (drop_S _ _ _ Hc).
    destruct (is_travel c) eqn:Ht.
    + rewrite (mergeRef_travel c _ Ht), collectTravels_run by lia. simpl.
      destruct (travelRun_suffix (freshTravel c) (drop (S i) clusters)) as (k & Hk & Hs).
      rewrite length_drop in Hk. rewrite Hs, drop_drop, length_drop.
      replace (length clusters - (length clusters - (S i + k))) with (S i + k) by lia.
      rewrite IH by lia. done.
    + rewrite (mergeRef_visit c _ Ht), IH by lia. done.
  - apply lookup_ge_None in Hc. rewrite drop_ge by done. done.
Qed.

(** ** Properties of the reference *)

(** No travel cluster is directly followed by another one. *)
Fixpoint no_adjacent_travel (cs : list Cluster) : Prop :=
  match cs with
  | c :: ((d :: _) as rest) => ~ (ctype c = Travel /\ ctype d = Travel) /\ no_adjacent_travel rest
  | _ => True
  end.

(** The travel clusters carry only type, indices and times. *)
Definition travels_fresh (cs : list Cluster) : Prop :=
  Forall (fun c => is_travel c = true -> freshTravel c = c) cs.

Lemma mergeRef_indices cs : allIndices (mergeRef cs) = allIndices cs.
Proof.
  unfold allIndices. induction cs as [|c cs IH]; [done|]. rewrite mergeRef_cons.
  destruct (is_travel c); [|cbn [map concat]; rewrite IH; reflexivity].
  destruct cs as [|d cs']; [simpl; by rewrite app_nil_r|].
  destruct (is_travel d); [|cbn [map concat]; rewrite IH; reflexivity].
  destruct (mergeRef (d :: cs')) as [|m ms] eqn:E; cbn [map concat] in *;
    rewrite <- IH; [by rewrite !app_nil_r | by rewrite app_assoc].
Qed.

Lemma mergeRef_head_type d cs : exists m ms, mergeRef (d :: cs) = m :: ms /\ is_travel m = is_travel d.
Proof.
  destruct (is_travel d) eqn:Hd.
  - rewrite (mergeRef_travel d cs Hd). do 2 eexists. split; [reflexivity|].
    assert (Ha : is_travel (freshTravel d) = true) by reflexivity. revert Ha.
    generalize (freshTravel d). induction cs as [|e cs IH]; intros a Ha; simpl; [done|].
    destruct (is_travel e); [by apply IH | done].
  - rewrite (mergeRef_visit d cs Hd). eauto.
Qed.

Lemma no_adjacent_travel_cons c l :
  no_adjacent_travel (c :: l) <->
  (match l with d :: _ => ~ (ctype c = Travel /\ ctype d = Travel) | [] => True end) /\
  no_adjacent_travel l.
Proof. destruct l; simpl; tauto. Qed.

Lemma mergeRef_no_adjacent cs : no_adjacent_travel (mergeRef cs).
Proof.
  induction cs as [|c cs IH]; [done|]. rewrite mergeRef_cons.
  destruct (is_travel c) eqn:Hc.
  - destruct cs as [|d cs']; [done|].
    destruct (mergeRef_head_type d cs') as (m & ms & Hm & Hmt). rewrite Hm in IH |- *.
    destruct (is_travel d) eqn:Hd.
    + apply no_adjacent_travel_cons in IH as [Hh Hms].
      apply no_adjacent_travel_cons. split; [|exact Hms].
      destruct ms as [|m' ms]; [done|]. intros [_ Hm']. apply Hh. split; [|exact Hm'].
      by apply is_travel_spec; rewrite Hmt.
    + apply no_adjacent_travel_cons. split; [|exact IH].
      intros [_ Hm']. apply is_travel_spec in Hm'. congruence.
  - apply no_adjacent_travel_cons. split; [|exact IH].
    destruct (mergeRef cs); [done|]. intros [Hc' _]. apply is_travel_spec in Hc'. congruence.
Qed.

Lemma mergeRef_fresh cs : travels_fresh (mergeRef cs).
Proof.
  unfold travels_fresh. induction cs as [|c cs IH]; [constructor|]. rewrite mergeRef_cons.
  destruct (is_travel c) eqn:Hc.
  - destruct cs as [|d cs']; [by repeat constructor|].
    destruct (is_travel d); [|by constructor].
    destruct (mergeRef (d :: cs')) as [|m ms]; [by repeat constructor|].
    apply Forall_cons in IH as [_ IH]. by constructor.
  - constructor; [|exact IH]. congruence.
Qed.

Lemma mergeRef_fixed cs : no_adjacent_travel cs -> travels_fresh cs -> mergeRef cs = cs.
Proof.
  unfold travels_fresh. induction cs as [|c cs IH]; intros Hadj Hfr; [done|].
  apply no_adjacent_travel_cons in Hadj as [Hh Hadj]. apply Forall_cons in Hfr as [Hc Hfr].
  rewrite mergeRef_cons. destruct (is_travel c) eqn:Ht.
  - destruct cs as [|d cs']; [by rewrite (Hc eq_refl)|].
    destruct (is_travel d) eqn:Hd.
    + exfalso. apply Hh. split; by apply is_travel_spec.
    + by rewrite (Hc eq_refl), IH.
  - by rewrite IH.
Qed.

Lemma mergeRef_idem cs : mergeRef (mergeRef cs) = mergeRef cs.
Proof. apply mergeRef_fixed; [apply mergeRef_no_adjacent | apply mergeRef_fresh]. Qed.

Lemma filter_visits_travel x l :
  is_travel x = true ->
  List.filter (fun c => negb (is_travel c)) (x :: l) = List.filter (fun c => negb (is_travel c)) l.
Proof. intros H. simpl. by rewrite H. Qed.

Lemma mergeRef_visits cs :
  List.filter (fun c => negb (is_travel c)) (mergeRef cs) =
  List.filter (fun c => negb (is_travel c)) cs.
Proof.
  induction cs as [|c cs IH]; [done|]. rewrite mergeRef_cons.
  destruct (is_travel c) eqn:Hc; [|simpl; rewrite Hc; simpl; by rewrite IH].
  rewrite (filter_visits_travel c cs Hc).
  destruct cs as [|d cs']; [done|].
  destruct (mergeRef_head_type d cs') as (m & ms & Hm & Hmt). rewrite Hm in IH |- *.
  destruct (is_travel d) eqn:Hd.
  - rewrite filter_visits_travel by reflexivity.
    rewrite filter_visits_travel in IH by exact Hmt. exact IH.
  - rewrite filter_visits_travel by reflexivity. exact IH.
Qed.

(** [List.last] of a non-empty list does not depend on its default. *)
Lemma last_cons_default {A} (x : A) (l : list A) (d d' : A) : List.last (x :: l) d = List.last (x :: l) d'.
Proof. revert x. induction l as [|y l IH]; intros x; [done|]. exact (IH y). Qed.

(** A run of travel clusters followed by a visit or by the end is folded
    into one travel cluster; the rest of the list is left to the loop. *)
Lemma travelRun_travels a ts rest :
  Forall (fun c => ctype c = Travel) ts -> (forall c rest', rest = c :: rest' -> ctype c = Visit) ->
  travelRun (freshTravel a) (ts ++ rest) =
    (mkCluster Travel (pointIndices a ++ concat (map pointIndices ts)) (startTime a)
       (endTime (List.last (a :: ts) a)) None None None None, rest).
Proof.
  intros Hts Hrest. revert a. induction Hts as [|d ts Hd _ IH]; intros a; cbn [app travelRun].
  - cbn [concat map]. rewrite app_nil_r. destruct rest as [|c rest']; [done|].
    assert (Hc : is_travel c = false).
    { apply not_true_iff_false. rewrite is_travel_spec, (Hrest c rest' eq_refl). done. }
    cbn [travelRun]. by rewrite Hc.
  - rewrite (proj2 (is_travel_spec d) Hd).
    change (appendTravel (freshTravel a) d) with (freshTravel (appendTravel a d)). rewrite IH.
    cbn [pointIndices startTime appendTravel]. rewrite <- app_assoc.
    destruct ts as [|e ts]; [done|].
    change (List.last (appendTravel a d :: e :: ts) (appendTravel a d))
      with (List.last (e :: ts) (appendTravel a d)).
    change (List.last (a :: d :: e :: ts) a) with (List.last (e :: ts) a).
    by rewrite (last_cons_default e ts _ a).
Qed.

(** On a list of at most one cluster, made of a visit, the reference
    is the identity, as the pass is. *)
Lemma merge_short_visit rest :
  length rest <= 1 -> (forall c rest', rest = c :: rest' -> ctype c = Visit) -> mergeRef rest = rest.
Proof.
  destruct rest as [|c [|d rest']]; cbn [length]; intros Hl Hv; [done | | lia].
  rewrite mergeRef_visit; [done|]. apply not_true_iff_false. rewrite is_travel_spec, (Hv c [] eq_refl). done.
Qed.

(** The pass returns its input when it has at most one cluster, and the
    reference otherwise. *)
Lemma merge_result cs :
  exists cs', mergeConsecutiveTravelClusters cs = Some cs' /\
    ((length cs <= 1 /\ cs' = cs) \/ (2 <= length cs /\ cs' = mergeRef cs)).
Proof.
  unfold mergeConsecutiveTravelClusters.
  destruct (Nat.leb_spec (length cs) 1); [eexists; split; [reflexivity | by left]|].
  rewrite mergeLoop_ref by lia. eexists. split; [reflexivity | right; split; [lia | done]].
Qed.

(** [C8] [mergeConsecutiveTravelClusters] computes the structural
    reference [mergeRef] (each maximal run of adjacent travel clusters
    folded into one travel with the concatenated indices, the first
    cluster's [startTime] and the last one's [endTime]); with at most one
    cluster it returns its input unchanged.  In particular its loops never
    run out of fuel. *)
Theorem mergeConsecutiveTravelClusters_refines (cs : list Cluster) :
  mergeConsecutiveTravelClusters cs = Some (if length cs <=? 1 then cs else mergeRef cs).
Proof.
  unfold mergeConsecutiveTravelClusters. destruct (Nat.leb_spec (length cs) 1); [done|].
  apply mergeLoop_ref; lia.
Qed.

(** [C11] A maximal run of travel clusters [t :: ts] at the head of the
    list, followed by a visit or by the end, comes out as one fresh travel
    cluster: the run's point indices in order, the first cluster's
    [startTime], the last cluster's [endTime] (line 418) and no centre or
    travel timing; the clusters after the run are merged on their own. *)
Theorem mergeConsecutiveTravelClusters_travel_run (t : Cluster) (ts rest : list Cluster) :
  Forall (fun c => ctype c = Travel) (t :: ts) ->
  (forall c rest', rest = c :: rest' -> ctype c = Visit) ->
  1 <= length ts + length rest ->
  exists out, mergeConsecutiveTravelClusters rest = Some out /\
    mergeConsecutiveTravelClusters (t :: ts ++ rest) =
      Some (mkCluster Travel (concat (map pointIndices (t :: ts))) (startTime t)
              (endTime (List.last (t :: ts) t)) None None None None :: out).
Proof.
  intros Hall Hrest Hlen. apply Forall_cons in Hall as [Ht Hts].
  exists (mergeRef rest). split.
  - unfold mergeConsecutiveTravelClusters. destruct (Nat.leb_spec (length rest) 1).
    + by rewrite merge_short_visit.
    + rewrite mergeLoop_ref by lia. by rewrite drop_0.
  - unfold mergeConsecutiveTravelClusters. rewrite length_cons, length_app.
    rewrite (proj2 (Nat.leb_gt _ _)) by lia. rewrite mergeLoop_ref by (simpl; rewrite ?length_app; lia).
    rewrite drop_0, (mergeRef_travel t _ (proj2 (is_travel_spec t) Ht)), travelRun_travels by done.
    done.
Qed.

(** Two travels and a visit. *)
Definition run_t1 : Cluster := mkCluster Travel [0] 0 10 None None None None.
Definition run_t2 : Cluster := mkCluster Travel [1; 2] 20 30 None None None None.
Definition run_v : Cluster := mkCluster Visit [3; 4; 5] 40 50 (Some 1%Q) (Some 1%Q) None None.

Lemma mergeConsecutiveTravelClusters_travel_run_witness :
  mergeConsecutiveTravelClusters [run_t1; run_t2; run_v] =
    Some [mkCluster Travel [0; 1; 2] 0 30 None None None None; run_v] /\
  exists out, mergeConsecutiveTravelClusters [run_v] = Some out /\
    mergeConsecutiveTravelClusters (run_t1 :: [run_t2] ++ [run_v]) =
      Some (mkCluster Travel (concat (map pointIndices (run_t1 :: [run_t2]))) (startTime run_t1)
              (endTime (List.last (run_t1 :: [run_t2]) run_t1)) None None None None :: out).
Proof.
  split; [vm_compute; reflexivity|].
  apply (mergeConsecutiveTravelClusters_travel_run run_t1 [run_t2] [run_v]);
    [repeat constructor | intros c r [= <- _]; reflexivity | simpl; lia].
Defined.

(** The merge pass is idempotent: merging its result again returns
    that result. *)
Theorem mergeConsecutiveTravelClusters_idempotent (cs : list Cluster) :
  exists cs', mergeConsecutiveTravelClusters cs = Some cs' /\
    mergeConsecutiveTravelClusters cs' = Some cs'.
Proof.
  destruct (merge_result cs) as (cs' & H & [[Hl ->] | [Hl ->]]).
  - exists cs. split; exact H.
  - exists (mergeRef cs). split; [exact H|].
    destruct (merge_result (mergeRef cs)) as (cs'' & H' & [[_ ->] | [_ ->]]);
      rewrite H'; [done|]. by rewrite mergeRef_idem.
Qed.

(** [C9] Merging keeps every point index, in the same order. *)
Theorem mergeConsecutiveTravelClusters_indices (cs : list Cluster) :
  exists cs', mergeConsecutiveTravelClusters cs = Some cs' /\ allIndices cs' = allIndices cs.
Proof.
  destruct (merge_result cs) as (cs' & H & [[_ ->] | [_ ->]]); eexists; split; eauto.
  apply mergeRef_indices.
Qed.

(** [C10] After merging, no travel cluster is directly followed by another
    travel cluster. *)
Theorem mergeConsecutiveTravelClusters_separates (cs : list Cluster) :
  exists cs', mergeConsecutiveTravelClusters cs = Some cs' /\ no_adjacent_travel cs'.
Proof.
  destruct (merge_result cs) as (cs' & H & [[Hl ->] | [_ ->]]); eexists; split; eauto.
  - destruct cs as [|c [|d cs]]; simpl in *; [done | done | lia].
  - apply mergeRef_no_adjacent.
Qed.

(** Merging leaves the visit clusters untouched and in order. *)
Theorem mergeConsecutiveTravelClusters_visits (cs : list Cluster) :
  exists cs', mergeConsecutiveTravelClusters cs = Some cs' /\
    List.filter (fun c => negb (is_travel c)) cs' = List.filter (fun c => negb (is_travel c)) cs.
Proof.
  destruct (merge_result cs) as (cs' & H & [[_ ->] | [_ ->]]); eexists; split; eauto.
  apply mergeRef_visits.
Qed.

(** A list of travel clusters only is folded into a single travel cluster
    holding all their indices. *)
Lemma mergeRef_all_travel c rest :
  Forall (fun c => ctype c = Travel) (c :: rest) ->
  exists m, mergeRef (c :: rest) = [m] /\ ctype m = Travel /\
    pointIndices m = allIndices (c :: rest).
Proof.
  revert c. induction rest as [|d rest IH]; intros c Hall.
  - apply Forall_cons in Hall as [Hc _]. apply is_travel_spec in Hc.
    rewrite mergeRef_cons, Hc. eexists. split; [reflexivity|]. split; [done|].
    cbn. by rewrite app_nil_r.
  - apply Forall_cons in Hall as [Hc Hrest].
    destruct (IH d Hrest) as (m & Hm & _ & Hidx).
    apply Forall_cons in Hrest as [Hd _]. apply is_travel_spec in Hc, Hd.
    rewrite mergeRef_cons, Hc, Hd, Hm. eexists. split; [reflexivity|]. split; [done|].
    cbn [pointIndices appendTravel freshTravel]. rewrite Hidx. reflexivity.
Qed.

(** A device that never stays, end to end: when no two distinct
    points are within the radius of each other and
    [minVisitClusterSize >= 2], discovery followed by the merge pass yields
    exactly one travel cluster, holding every index of the track in order. *)
Theorem isolated_track_single_travel `{M : Metric} (locs : list LocationPoint) (r : Q)
    (minVisit minTravel : nat) :
  1 < minVisit -> 2 <= length locs -> isolated locs r ->
  exists cs c, findLocationClusters locs r minVisit minTravel = Some cs /\
    mergeConsecutiveTravelClusters cs = Some [c] /\
    ctype c = Travel /\ pointIndices c = seq 0 (length locs).
Proof.
  intros Hmv Hn Hiso. unfold findLocationClusters. rewrite (proj2 (Nat.leb_gt _ _)) by lia.
  destruct (findLoop_isolated (S (length locs)) locs r minVisit minTravel 0 Hmv Hiso)
    as (cs & Hcs & Hty & Hidx); [lia | lia |].
  rewrite Nat.sub_0_r in Hidx. rewrite Hcs.
  destruct cs as [|c0 rest]; [destruct (length locs); simpl in Hidx; [lia | done]|].
  destruct (mergeRef_all_travel c0 rest Hty) as (m & Hm & Htm & Him).
  destruct (merge_result (c0 :: rest)) as (cs' & H & [[Hl ->] | [_ ->]]).
  - destruct rest; [|simpl in Hl; lia].
    exists [c0], c0. apply Forall_cons in Hty as [Hc0 _]. split_and!; [done | done | done |].
    rewrite <- Hidx. cbn. by rewrite app_nil_r.
  - rewrite Hm in H. exists (c0 :: rest), m. split_and!; [done | done | done |].
    by rewrite Him.
Qed.

Lemma isolated_track_single_travel_witness :
  exists cs c, @findLocationClusters PlanarMetric
    [pointAt (mkCoord 0 0) 1; pointAt (mkCoord 1 0) 2; pointAt (mkCoord 2 0) 3] 20 3 7 = Some cs /\
    mergeConsecutiveTravelClusters cs = Some [c] /\ ctype c = Travel /\ pointIndices c = seq 0 3.
Proof.
  apply (isolated_track_single_travel (M := PlanarMetric)
           [pointAt (mkCoord 0 0) 1; pointAt (mkCoord 1 0) 2; pointAt (mkCoord 2 0) 3] 20 3 7);
    [lia | simpl; lia | apply isolatedb_sound; vm_compute; reflexivity].
Defined.
