(* ===== verification/Materialize.v ===== *)
(** * Turning clusters into the output points

    [processClusterToLocations] of [src/src/store/locationEnhancer.js]
    (lines 525-618).  Its first pass writes [travelStartTime] and
    [travelEndTime] on each travel cluster from the surrounding visits; its
    second pass threads the two counters and the output array through the
    clusters: a visit becomes one averaged point, a travel keeps each of its
    points with the travel metadata.  The result is sorted by capture time.
    [None] stands for a [TypeError] of the code (a visit cluster with no
    point or an index outside the array). *)

From stdpp Require Import base list options.
From Stdlib Require Import ZArith QArith Sorted Permutation Lia.
From S2P Require Import Prelude Geometry Points Discovery Merge.
Local Open Scope nat_scope.
Local Open Scope locenh_scope.

Definition is_visit (c : Cluster) : bool := bool_decide (ctype c = Visit).

(** ** First pass (lines 531-555) *)

(** The backward [for] loop of lines 535-540 from [clusterIndex - 1]
    down to [0]: the [endTime] of the nearest visit before index [i], or
    [null]. *)
Fixpoint findPrevVisitEnd (clusters : list Cluster) (i : nat) : option Z :=
  match i with
  | 0 => None
  | S i' =>
      match clusters !! i' with
      | Some c => if is_visit c then Some (endTime c) else findPrevVisitEnd clusters i'
      | None => None
      end
  end.

(** The forward [for] loop of lines 544-549 from index [i]: the
    [startTime] of the nearest visit from [i] on, or [null]. *)
Fixpoint findNextVisitStart (fuel : nat) (clusters : list Cluster) (i : nat) : option Z :=
  match fuel with
  | 0 => None
  | S fuel' =>
      match clusters !! i with
      | Some c => if is_visit c then Some (startTime c) else findNextVisitStart fuel' clusters (S i)
      | None => None
      end
  end.

(** Lines 532-554 for the cluster at [clusterIndex].  The pass mutates
    the travel clusters in place, but the loops only read [type],
    [startTime] and [endTime], which it never writes: reading the input
    list is the same as reading the array being updated. *)
Definition setTravelTiming (clusters : list Cluster) (clusterIndex : nat) (cluster : Cluster)
    : Cluster :=
  if is_travel cluster then
    let prevVisitEndTime := findPrevVisitEnd clusters clusterIndex in
    let nextVisitStartTime :=
      findNextVisitStart (length clusters) clusters (S clusterIndex) in
    mkCluster (ctype cluster) (pointIndices cluster) (startTime cluster) (endTime cluster)
      (centerLat cluster) (centerLon cluster)
      (Some (prevVisitEndTime ?|| startTime cluster))
      (Some (nextVisitStartTime ?|| endTime cluster))
  else cluster.

Definition firstPass (clusters : list Cluster) : list Cluster :=
  imap (setTravelTiming clusters) clusters.

(** ** Second pass (lines 558-608) *)

Record EmitState := mkEmit {
  visitCounter : nat;
  travelCounter : nat;
  finalLocations : list LocationPoint
}.

(** Lines 561-583: the visit point, built on the first point of the
    cluster.  [clusterPoints[0].tst] on an empty cluster is a
    [TypeError]. *)
Definition visitPoint (clusterPoints : list LocationPoint) (cluster : Cluster) (id : nat)
    : option LocationPoint :=
  first <- head clusterPoints;
  let n := inject_Z (Z.of_nat (length clusterPoints)) in
  let avgLat := (qsum (map lat clusterPoints) / n)%Q in
  let avgLon := (qsum (map lon clusterPoints) / n)%Q in
  Some (mkPoint avgLat avgLon (Some (pointTime first)) (timestamp first) (acc first) (alt first)
          (Some EvVisit) (Some id) (Some (startTime cluster)) (Some (endTime cluster))).

(** Lines 592-598: a travel point.  The code spreads
    [originalLocations[pointIndex]]; the model reads it and fails out of
    range (where the code would emit a point without coordinates). *)
Definition travelPoint (originalLocations : list LocationPoint) (cluster : Cluster)
    (id : nat) (pointIndex : nat) : option LocationPoint :=
  p <- originalLocations !! pointIndex;
  Some (withEvent p (Some EvTravel) (Some id) (travelStartTime cluster) (travelEndTime cluster)).

(** The body of the [forEach] of line 558 on one cluster. *)
Definition emitCluster (originalLocations : list LocationPoint) (st : EmitState)
    (cluster : Cluster) : option EmitState :=
  match ctype cluster with
  | Visit =>
      clusterPoints <- mapM (fun idx => originalLocations !! idx) (pointIndices cluster);
      vp <- visitPoint clusterPoints cluster (visitCounter st);
      Some (mkEmit (S (visitCounter st)) (travelCounter st) (finalLocations st ++ [vp]))
  | Travel =>
      pts <- mapM (travelPoint originalLocations cluster (travelCounter st)) (pointIndices cluster);
      Some (mkEmit (visitCounter st) (S (travelCounter st)) (finalLocations st ++ pts))
  end.

Fixpoint emitAll (originalLocations : list LocationPoint) (st : EmitState)
    (clusters : list Cluster) : option EmitState :=
  match clusters with
  | [] => Some st
  | c :: cs => st' <- emitCluster originalLocations st c; emitAll originalLocations st' cs
  end.

Definition processClusterToLocations (clusters : list Cluster)
    (originalLocations : list LocationPoint) : option (list LocationPoint) :=
  st <- emitAll originalLocations (mkEmit 1 1 []) (firstPass clusters);
  Some (sortByTime (finalLocations st)).

(** ** What the two searches compute *)

(** The [endTime] of the last visit of a list. *)
Fixpoint lastVisitEnd (l : list Cluster) : option Z :=
  match l with
  | [] => None
  | c :: l' =>
      match lastVisitEnd l' with
      | Some t => Some t
      | None => if is_visit c then Some (endTime c) else None
      end
  end.

(** The [startTime] of the first visit of a list. *)
Fixpoint firstVisitStart (l : list Cluster) : option Z :=
  match l with
  | [] => None
  | c :: l' => if is_visit c then Some (startTime c) else firstVisitStart l'
  end.

(** The number of clusters of a type in a list. *)
Definition countType (t : ClusterType) (cs : list Cluster) : nat :=
  length (List.filter (fun u => bool_decide (u = t)) (map ctype cs)).

(** The number of output points of a list of clusters: one per visit, one
    per index of a travel. *)
Definition outWeight (c : Cluster) : nat := if is_visit c then 1 else length (pointIndices c).

Definition outCount (cs : list Cluster) : nat := sum_list (map outWeight cs).

(** The clusters the second pass can emit without a [TypeError]: every
    index inside the array and no empty visit. *)
Definition wf_clusters (n : nat) (cs : list Cluster) : Prop :=
  Forall (fun c => Forall (fun i => i < n) (pointIndices c) /\
                   (ctype c = Visit -> pointIndices c <> [])) cs.

Lemma is_visit_spec c : is_visit c = true <-> ctype c = Visit.
Proof. unfold is_visit. by rewrite bool_decide_eq_true. Qed.

Lemma is_visit_travel c : is_visit c = negb (is_travel c).
Proof. unfold is_visit, is_travel. by destruct (ctype c). Qed.

Lemma lastVisitEnd_snoc l c :
  lastVisitEnd (l ++ [c]) = if is_visit c then Some (endTime c) else lastVisitEnd l.
Proof.
  induction l as [|d l IH]; simpl; [by destruct (is_visit c)|].
  rewrite IH. destruct (is_visit c); [done|]. by destruct (lastVisitEnd l).
Qed.

Lemma findPrevVisitEnd_spec clusters i :
  i <= length clusters -> findPrevVisitEnd clusters i = lastVisitEnd (take i clusters).
Proof.
  induction i as [|i IH]; intros Hi; [by rewrite take_0|]. simpl.
  destruct (clusters !! i) as [c|] eqn:Hc; [|apply lookup_ge_None in Hc; lia].
  rewrite (take_S_r _ _ _ Hc), lastVisitEnd_snoc.
  destruct (is_visit c); [done|]. apply IH. lia.
Qed.

Lemma findNextVisitStart_spec fuel clusters i :
  length clusters - i <= fuel ->
  findNextVisitStart fuel clusters i = firstVisitStart (drop i clusters).
Proof.
  revert i. induction fuel as [|fuel IH]; intros i Hf; simpl.
  - by rewrite drop_ge by lia.
  - destruct (clusters !! i) as [c|] eqn:Hc.
    + rewrite (drop_S _ _ _ Hc). simpl. destruct (is_visit c); [done|].
      apply IH. pose proof (lookup_lt_Some _ _ _ Hc). lia.
    + apply lookup_ge_None in Hc. by rewrite drop_ge.
Qed.

(** ** The first pass *)

Lemma setTravelTiming_shape clusters k c :
  ctype (setTravelTiming clusters k c) = ctype c /\
  pointIndices (setTravelTiming clusters k c) = pointIndices c /\
  startTime (setTravelTiming clusters k c) = startTime c /\
  endTime (setTravelTiming clusters k c) = endTime c.
Proof. unfold setTravelTiming. by destruct (is_travel c). Qed.

Lemma firstPass_lookup clusters k :
  firstPass clusters !! k = setTravelTiming clusters k <$> clusters !! k.
Proof. unfold firstPass. apply list_lookup_imap. Qed.

(** Any view of a cluster that ignores the two travel times is kept by
    the first pass. *)
Lemma firstPass_map {B} (g : Cluster -> B) clusters :
  (forall k c, g (setTravelTiming clusters k c) = g c) ->
  map g (firstPass clusters) = map g clusters.
Proof.
  intros Hg. apply list_eq. intros k. rewrite !list_lookup_fmap, firstPass_lookup.
  destruct (clusters !! k); simpl; [by rewrite Hg | done].
Qed.

Lemma firstPass_types clusters : map ctype (firstPass clusters) = map ctype clusters.
Proof. apply firstPass_map. intros k c. apply setTravelTiming_shape. Qed.

Lemma firstPass_length clusters : length (firstPass clusters) = length clusters.
Proof. unfold firstPass. apply length_imap. Qed.

Lemma countType_take t cs k :
  countType t (take k (firstPass cs)) = countType t (take k cs).
Proof. unfold countType. by rewrite <- !firstn_map, firstPass_types. Qed.

Lemma setTravelTiming_outWeight clusters k c :
  outWeight (setTravelTiming clusters k c) = outWeight c.
Proof.
  unfold outWeight, is_visit. by destruct (setTravelTiming_shape clusters k c) as (-> & -> & _).
Qed.

Lemma firstPass_outCount clusters : outCount (firstPass clusters) = outCount clusters.
Proof. unfold outCount. f_equal. apply firstPass_map, setTravelTiming_outWeight. Qed.

Lemma firstPass_wf n clusters : wf_clusters n clusters -> wf_clusters n (firstPass clusters).
Proof.
  unfold wf_clusters. intros H. apply Forall_lookup. intros k c Hk.
  rewrite firstPass_lookup in Hk. destruct (clusters !! k) as [c0|] eqn:Hc0; [|done].
  injection Hk as <-. destruct (setTravelTiming_shape clusters k c0) as (-> & -> & _).
  exact (Forall_lookup_1 _ _ _ _ H Hc0).
Qed.

(** The travel times the first pass gives to a travel cluster. *)
Lemma setTravelTiming_travel clusters k c :
  k < length clusters -> ctype c = Travel ->
  travelStartTime (setTravelTiming clusters k c) =
    Some (lastVisitEnd (take k clusters) ?|| startTime c) /\
  travelEndTime (setTravelTiming clusters k c) =
    Some (firstVisitStart (drop (S k) clusters) ?|| endTime c).
Proof.
  intros Hk Hc. unfold setTravelTiming. rewrite (proj2 (is_travel_spec c) Hc). simpl.
  rewrite findPrevVisitEnd_spec, findNextVisitStart_spec by lia. done.
Qed.

(** ** The second pass *)

Lemma countType_cons t c cs :
  countType t (c :: cs) = (if bool_decide (ctype c = t) then 1 else 0) + countType t cs.
Proof. unfold countType. simpl. by destruct (bool_decide (ctype c = t)). Qed.

Lemma countType_app t l1 l2 : countType t (l1 ++ l2) = countType t l1 + countType t l2.
Proof. unfold countType. by rewrite map_app, List.filter_app, length_app. Qed.

Lemma emitAll_app locs st l1 l2 :
  emitAll locs st (l1 ++ l2) = (st1 <- emitAll locs st l1; emitAll locs st1 l2).
Proof.
  revert st. induction l1 as [|c l1 IH]; intros st; simpl; [done|].
  destruct (emitCluster locs st c); simpl; [apply IH | done].
Qed.

(** One cluster moves its own counter by one and appends to the output. *)
Lemma emitCluster_counters locs st c st' :
  emitCluster locs st c = Some st' ->
  visitCounter st' = visitCounter st + (if bool_decide (ctype c = Visit) then 1 else 0) /\
  travelCounter st' = travelCounter st + (if bool_decide (ctype c = Travel) then 1 else 0) /\
  exists pts, finalLocations st' = finalLocations st ++ pts.
Proof.
  unfold emitCluster. destruct (ctype c); simpl.
  - destruct (mapM _ _); simpl; [|done]. destruct (visitPoint _ _ _); simpl; [|done].
    intros [= <-]. simpl. split; [lia|]. split; [lia|]. eauto.
  - destruct (mapM _ _); simpl; [|done]. intros [= <-]. simpl.
    split; [lia|]. split; [lia|]. eauto.
Qed.

Lemma emitAll_counters locs st cs st' :
  emitAll locs st cs = Some st' ->
  visitCounter st' = visitCounter st + countType Visit cs /\
  travelCounter st' = travelCounter st + countType Travel cs /\
  exists pts, finalLocations st' = finalLocations st ++ pts.
Proof.
  revert st. induction cs as [|c cs IH]; intros st; simpl.
  - intros [= ->]. unfold countType. simpl. split; [lia|]. split; [lia|]. exists []. by rewrite app_nil_r.
  - destruct (emitCluster locs st c) as [st1|] eqn:H1; simpl; [|done]. intros H.
    destruct (emitCluster_counters _ _ _ _ H1) as (Hv1 & Ht1 & pts1 & Hp1).
    destruct (IH _ H) as (Hv & Ht & pts & Hp). rewrite !countType_cons.
    split; [lia|]. split; [lia|]. exists (pts1 ++ pts). by rewrite Hp, Hp1, app_assoc.
Qed.

Lemma emitCluster_total locs st c :
  Forall (fun i => i < length locs) (pointIndices c) -> (ctype c = Visit -> pointIndices c <> []) ->
  exists st', emitCluster locs st c = Some st' /\
    length (finalLocations st') = length (finalLocations st) + outWeight c.
Proof.
  intros Hin Hne. unfold emitCluster, outWeight, is_visit.
  destruct (ctype c) eqn:Hc; simpl.
  - destruct (mapM_lookup_in_range locs _ Hin) as [pts Hpts]. rewrite Hpts. simpl.
    pose proof (length_mapM _ _ _ Hpts) as Hl.
    destruct pts as [|first pts]; [destruct (pointIndices c); [by destruct Hne | done]|].
    eexists. split; [reflexivity|]. simpl. rewrite length_app. simpl. lia.
  - destruct (mapM_is_Some_2 (travelPoint locs c (travelCounter st)) (pointIndices c)) as [pts Hpts].
    { eapply Forall_impl; [exact Hin|]. intros i Hi. unfold travelPoint; simpl.
      destruct (lookup_lt_is_Some_2 locs i Hi) as [p ->]. by eexists. }
    rewrite Hpts. simpl. eexists. split; [reflexivity|]. simpl.
    rewrite length_app, (length_mapM _ _ _ Hpts). lia.
Qed.

Lemma emitAll_total locs st cs :
  wf_clusters (length locs) cs ->
  exists st', emitAll locs st cs = Some st' /\
    length (finalLocations st') = length (finalLocations st) + outCount cs.
Proof.
  unfold wf_clusters. revert st. induction cs as [|c cs IH]; intros st Hwf; simpl.
  - eexists. split; [reflexivity | unfold outCount; simpl; lia].
  - apply Forall_cons in Hwf as [[Hin Hne] Hwf].
    destruct (emitCluster_total locs st c Hin Hne) as (st1 & -> & Hl1). simpl.
    destruct (IH st1 Hwf) as (st' & -> & Hl). eexists. split; [reflexivity|].
    unfold outCount in *. simpl. lia.
Qed.

(** The run on a list stops, at the cluster of index [k], in a state whose
    output is a prefix of the final output. *)
Lemma emitAll_at locs st0 l st k c :
  emitAll locs st0 l = Some st -> l !! k = Some c ->
  exists st1 st2, emitAll locs st0 (take k l) = Some st1 /\ emitCluster locs st1 c = Some st2 /\
    forall p, In p (finalLocations st2) -> In p (finalLocations st).
Proof.
  intros Hrun Hk. rewrite <- (take_drop_middle l k c Hk), emitAll_app in Hrun.
  destruct (emitAll locs st0 (take k l)) as [st1|]; simpl in Hrun; [|done].
  simpl in Hrun. destruct (emitCluster locs st1 c) as [st2|] eqn:H2; simpl in Hrun; [|done].
  exists st1, st2. split; [done|]. split; [done|].
  destruct (emitAll_counters _ _ _ _ Hrun) as (_ & _ & pts & ->). intros p Hp.
  apply in_or_app. by left.
Qed.

Lemma setTravelTiming_visit clusters k c : ctype c = Visit -> setTravelTiming clusters k c = c.
Proof. intros Hc. unfold setTravelTiming, is_travel. by rewrite Hc. Qed.

(** The state in which the second pass meets the cluster of index [k]:
    each counter is one more than the clusters of its type before [k], and
    what it emits reaches the output. *)
Lemma process_at cs locs out k c :
  processClusterToLocations cs locs = Some out -> cs !! k = Some c ->
  exists st1 st2, emitCluster locs st1 (setTravelTiming cs k c) = Some st2 /\
    visitCounter st1 = S (countType Visit (take k cs)) /\
    travelCounter st1 = S (countType Travel (take k cs)) /\
    forall p, In p (finalLocations st2) -> In p out.
Proof.
  unfold processClusterToLocations. intros Hrun Hk.
  destruct (emitAll locs _ (firstPass cs)) as [st|] eqn:Hst; simpl in Hrun; [|done].
  injection Hrun as <-.
  assert (Hk' : firstPass cs !! k = Some (setTravelTiming cs k c)) by (by rewrite firstPass_lookup, Hk).
  destruct (emitAll_at _ _ _ _ _ _ Hst Hk') as (st1 & st2 & H1 & H2 & Hin).
  destruct (emitAll_counters _ _ _ _ H1) as (Hv & Ht & _). simpl in Hv, Ht.
  rewrite countType_take in Hv, Ht.
  exists st1, st2. split_and!; [done | done | done |].
  intros p Hp. eapply Permutation_in; [symmetry; apply sortByTime_perm | auto].
Qed.

(** [isVisitPoint p]: [p.node_event_type === "visit"]. *)
Definition isVisitPoint (p : LocationPoint) : bool := bool_decide (node_event_type p = Some EvVisit).

Lemma travelPoints_type locs c id idxs pts :
  mapM (travelPoint locs c id) idxs = Some pts ->
  Forall (fun p => node_event_type p = Some EvTravel) pts.
Proof.
  intros H. apply mapM_Some_1 in H. induction H as [|i p idxs pts Hp _ IH]; constructor; [|done].
  unfold travelPoint in Hp. destruct (locs !! i); simpl in Hp; [|done]. by injection Hp as <-.
Qed.

(** [p.node_event_type] is set: the point is a visit or a travel. *)
Definition hasEvent (p : LocationPoint) : Prop := is_Some (node_event_type p).

Lemma emitCluster_events locs st c st' :
  emitCluster locs st c = Some st' ->
  Forall hasEvent (finalLocations st) -> Forall hasEvent (finalLocations st').
Proof.
  unfold emitCluster. destruct (ctype c); simpl.
  - destruct (mapM _ _) as [pts|]; simpl; [|done]. unfold visitPoint.
    destruct (head pts); simpl; [|done]. intros [= <-] H. simpl.
    apply Forall_app. split; [done|]. repeat constructor. by eexists.
  - destruct (mapM _ _) as [pts|] eqn:Hpts; simpl; [|done]. intros [= <-] H. simpl.
    apply Forall_app. split; [done|].
    eapply Forall_impl; [exact (travelPoints_type _ _ _ _ _ Hpts)|]. intros p Hp. unfold hasEvent. rewrite Hp. by eexists.
Qed.

Lemma emitAll_events locs st cs st' :
  emitAll locs st cs = Some st' ->
  Forall hasEvent (finalLocations st) -> Forall hasEvent (finalLocations st').
Proof.
  revert st. induction cs as [|c cs IH]; intros st; simpl; [by intros [= ->]|].
  destruct (emitCluster locs st c) as [st1|] eqn:H1; simpl; [|done].
  intros H Hst. exact (IH _ H (emitCluster_events _ _ _ _ H1 Hst)).
Qed.

(** Every point [processClusterToLocations] returns is a visit or a travel. *)
Lemma processClusterToLocations_events cs locs out :
  processClusterToLocations cs locs = Some out -> Forall hasEvent out.
Proof.
  unfold processClusterToLocations.
  destruct (emitAll _ _ _) as [st|] eqn:H; simpl; [|done]. intros [= <-].
  apply Forall_sortByTime. exact (emitAll_events _ _ _ _ H (List.Forall_nil _)).
Qed.

Lemma filter_visit_travelPoints locs c id idxs pts :
  mapM (travelPoint locs c id) idxs = Some pts -> List.filter isVisitPoint pts = [].
Proof.
  intros H. apply travelPoints_type in H. induction H as [|p pts Hp _ IH]; [done|].
  simpl. unfold isVisitPoint at 1. rewrite Hp. done.
Qed.

Lemma emitCluster_visit_ids locs st c st' :
  emitCluster locs st c = Some st' ->
  map node_event_id (List.filter isVisitPoint (finalLocations st')) =
    map node_event_id (List.filter isVisitPoint (finalLocations st)) ++
    (if bool_decide (ctype c = Visit) then [Some (visitCounter st)] else []).
Proof.
  unfold emitCluster. destruct (ctype c); simpl.
  - destruct (mapM _ _) as [pts|]; simpl; [|done]. unfold visitPoint.
    destruct (head pts); simpl; [|done]. intros [= <-]. simpl.
    by rewrite List.filter_app, map_app.
  - destruct (mapM _ _) as [pts|] eqn:Hpts; simpl; [|done]. intros [= <-]. simpl.
    by rewrite List.filter_app, (filter_visit_travelPoints _ _ _ _ _ Hpts), map_app, !app_nil_r.
Qed.

Lemma emitAll_visit_ids locs st cs st' :
  emitAll locs st cs = Some st' ->
  map node_event_id (List.filter isVisitPoint (finalLocations st')) =
    map node_event_id (List.filter isVisitPoint (finalLocations st)) ++
    map Some (seq (visitCounter st) (countType Visit cs)).
Proof.
  revert st. induction cs as [|c cs IH]; intros st; simpl.
  - intros [= ->]. unfold countType. simpl. by rewrite app_nil_r.
  - destruct (emitCluster locs st c) as [st1|] eqn:H1; simpl; [|done]. intros H.
    rewrite (IH _ H), (emitCluster_visit_ids _ _ _ _ H1), countType_cons.
    destruct (emitCluster_counters _ _ _ _ H1) as (-> & _).
    destruct (bool_decide (ctype c = Visit)); simpl; rewrite <- app_assoc; [|by rewrite Nat.add_0_r].
    by rewrite Nat.add_1_r.
Qed.

Lemma firstPass_countType t cs : countType t (firstPass cs) = countType t cs.
Proof. unfold countType. by rewrite firstPass_types. Qed.

(** On well-formed clusters the emission pass runs to the end and its
    output has [outCount] points. *)
Lemma processClusterToLocations_run cs locs :
  wf_clusters (length locs) cs ->
  exists st, processClusterToLocations cs locs = Some (sortByTime (finalLocations st)) /\
    length (finalLocations st) = outCount cs.
Proof.
  intros Hwf. unfold processClusterToLocations.
  destruct (emitAll_total locs (mkEmit 1 1 []) (firstPass cs)) as (st & -> & Hl);
    [by apply firstPass_wf|].
  exists st. split; [reflexivity|]. rewrite Hl, firstPass_outCount. simpl. lia.
Qed.

(** ** Properties of [processClusterToLocations] *)

(** [C14] On clusters whose indices are inside the array and whose visits
    are not empty, [processClusterToLocations] raises no error and returns
    one point per visit plus one point per index of each travel, sorted by
    capture time. *)
Theorem processClusterToLocations_total (cs : list Cluster) (locs : list LocationPoint) :
  wf_clusters (length locs) cs ->
  exists out, processClusterToLocations cs locs = Some out /\ length out = outCount cs /\
    Sorted (fun a b => (pointTime a <= pointTime b)%Z) out.
Proof.
  intros Hwf. destruct (processClusterToLocations_run cs locs Hwf) as (st & -> & Hl).
  eexists. split_and!; [reflexivity | by rewrite sortByTime_length | apply sortByTime_sorted].
Qed.

(** [C15] Every point of a travel cluster is kept unchanged but for its
    metadata: type [travel], the id [1 + number of travel clusters before
    it], and as start and end the [endTime] of the nearest visit before
    the cluster and the [startTime] of the nearest visit after it, each
    falling back to the cluster's own time when there is none (or it is
    [0]). *)
Theorem processClusterToLocations_travel_points (cs : list Cluster) (locs : list LocationPoint)
    (out : list LocationPoint) (k : nat) (c : Cluster) (i : nat) (p : LocationPoint) :
  processClusterToLocations cs locs = Some out -> cs !! k = Some c -> ctype c = Travel ->
  In i (pointIndices c) -> locs !! i = Some p ->
  In (withEvent p (Some EvTravel) (Some (S (countType Travel (take k cs))))
        (Some (lastVisitEnd (take k cs) ?|| startTime c))
        (Some (firstVisitStart (drop (S k) cs) ?|| endTime c))) out.
Proof.
  intros Hrun Hk Hc Hi Hp.
  destruct (process_at _ _ _ _ _ Hrun Hk) as (st1 & st2 & Hem & _ & Ht & Hin).
  destruct (setTravelTiming_travel cs k c) as [Hs He]; [by apply lookup_lt_Some in Hk | done |].
  destruct (setTravelTiming_shape cs k c) as (Hty & Hidx & _).
  unfold emitCluster in Hem. rewrite Hty, Hc in Hem.
  destruct (mapM _ _) as [pts|] eqn:Hpts; simpl in Hem; [|done]. injection Hem as <-.
  apply Hin. simpl. apply in_or_app. right.
  eapply mapM_In; [exact Hpts | rewrite Hidx; exact Hi |].
  unfold travelPoint. rewrite Hp. simpl. rewrite Hs, He, Ht. reflexivity.
Qed.

(** [C16] Every visit cluster becomes one output point of type [visit],
    with the id [1 + number of visit clusters before it], the mean
    latitude and longitude of its points, the capture time of its first
    point as [tst], and the cluster's start and end times. *)
Theorem processClusterToLocations_visit_point (cs : list Cluster) (locs : list LocationPoint)
    (out : list LocationPoint) (k : nat) (c : Cluster) :
  processClusterToLocations cs locs = Some out -> cs !! k = Some c -> ctype c = Visit ->
  exists pts first v, mapM (fun i => locs !! i) (pointIndices c) = Some pts /\
    head pts = Some first /\ In v out /\
    node_event_type v = Some EvVisit /\ node_event_id v = Some (S (countType Visit (take k cs))) /\
    lat v = (qsum (map lat pts) / inject_Z (Z.of_nat (length pts)))%Q /\
    lon v = (qsum (map lon pts) / inject_Z (Z.of_nat (length pts)))%Q /\
    tst v = Some (pointTime first) /\
    node_event_start v = Some (startTime c) /\ node_event_end v = Some (endTime c).
Proof.
  intros Hrun Hk Hc.
  destruct (process_at _ _ _ _ _ Hrun Hk) as (st1 & st2 & Hem & Hv & _ & Hin).
  rewrite (setTravelTiming_visit cs k c Hc) in Hem. unfold emitCluster in Hem. rewrite Hc in Hem.
  destruct (mapM _ _) as [pts|] eqn:Hpts; simpl in Hem; [|done].
  unfold visitPoint in Hem. destruct (head pts) as [first|] eqn:Hf; simpl in Hem; [|done].
  injection Hem as <-. do 3 eexists.
  split_and!; [done | done | apply Hin; simpl; apply in_or_app; right; left; reflexivity | ..];
    simpl; rewrite ?Hv; reflexivity.
Qed.

(** [C17] The visit points of the output carry the ids [1], ..., [V], each
    once, where [V] is the number of visit clusters. *)
Theorem processClusterToLocations_visit_ids (cs : list Cluster) (locs : list LocationPoint)
    (out : list LocationPoint) :
  processClusterToLocations cs locs = Some out ->
  Permutation (map node_event_id (List.filter isVisitPoint out))
              (map Some (seq 1 (countType Visit cs))).
Proof.
  unfold processClusterToLocations.
  destruct (emitAll locs _ (firstPass cs)) as [st|] eqn:Hst; simpl; [|done]. intros [= <-].
  apply emitAll_visit_ids in Hst. simpl in Hst. rewrite firstPass_countType in Hst.
  rewrite <- Hst. apply Permutation_map, Permutation_list_filter, sortByTime_perm.
Qed.

(** ** Concrete runs *)

#[export] Instance wf_clusters_dec n cs : Decision (wf_clusters n cs).
Proof. unfold wf_clusters. solve_decision. Defined.

(** A stay of two points at the origin, then two moving points. *)
Definition demo_locs : list LocationPoint :=
  [pointAt (mkCoord 0 0) 10; pointAt (mkCoord 0 0) 20;
   pointAt (mkCoord 1 0) 30; pointAt (mkCoord 2 0) 40].

Definition demo_clusters : list Cluster :=
  [mkCluster Visit [0; 1] 10 20 (Some 0%Q) (Some 0%Q) None None;
   mkCluster Travel [2; 3] 30 40 None None None None].

Lemma processClusterToLocations_total_witness :
  exists out, processClusterToLocations demo_clusters demo_locs = Some out /\ length out = 3 /\
    Sorted (fun a b => (pointTime a <= pointTime b)%Z) out.
Proof.
  apply (processClusterToLocations_total demo_clusters demo_locs).
  apply (bool_decide_unpack _). vm_compute. reflexivity.
Defined.

Lemma processClusterToLocations_travel_points_witness :
  exists out, processClusterToLocations demo_clusters demo_locs = Some out /\
    In (withEvent (pointAt (mkCoord 1 0) 30) (Some EvTravel) (Some 1) (Some 20%Z) (Some 40%Z)) out.
Proof.
  eexists. split; [reflexivity|].
  apply (processClusterToLocations_travel_points demo_clusters demo_locs _ 1
           (mkCluster Travel [2; 3] 30 40 None None None None) 2 (pointAt (mkCoord 1 0) 30));
    simpl; auto.
Defined.

Lemma processClusterToLocations_visit_point_witness :
  exists out, processClusterToLocations demo_clusters demo_locs = Some out /\
  exists pts first v, mapM (fun i => demo_locs !! i) [0; 1] = Some pts /\
    head pts = Some first /\ In v out /\
    node_event_type v = Some EvVisit /\ node_event_id v = Some 1 /\
    lat v = (qsum (map lat pts) / inject_Z (Z.of_nat (length pts)))%Q /\
    lon v = (qsum (map lon pts) / inject_Z (Z.of_nat (length pts)))%Q /\
    tst v = Some (pointTime first) /\
    node_event_start v = Some 10%Z /\ node_event_end v = Some 20%Z.
Proof.
  eexists. split; [reflexivity|].
  apply (processClusterToLocations_visit_point demo_clusters demo_locs _ 0
           (mkCluster Visit [0; 1] 10 20 (Some 0%Q) (Some 0%Q) None None)); reflexivity.
Defined.

Lemma processClusterToLocations_visit_ids_witness :
  exists out, processClusterToLocations demo_clusters demo_locs = Some out /\
    Permutation (map node_event_id (List.filter isVisitPoint out)) [Some 1].
Proof.
  eexists. split; [reflexivity|].
  apply (processClusterToLocations_visit_ids demo_clusters demo_locs). reflexivity.
Defined.
