(* ===== verification/NearbyMerge.v ===== *)
(** * Merging nearby visit clusters

    [mergeNearbyVisitClusters] of [src/src/store/locationEnhancer.js]
    (lines 448-516).  The pipeline does not call it (its call on line 116
    is commented out) but [_internal] exports it to the tests.

    The two [for] loops are Fixpoints with fuel over the index, and the
    [processed] [Set] of indices is a [gset nat].  The reference
    [mergeNearbyRef] states what the loops compute without indices or a
    set: the first remaining cluster, if it is a visit, absorbs every later
    remaining visit whose center is within [mergeRadius] of its own, and
    the recursion goes on with the clusters not absorbed.  It is defined by
    well-founded recursion on the length, with Equations.  The theorems:
    the loops compute the reference, never running out of fuel
    (equivalence), and the output keeps
    every point index once, every travel cluster in order and no more
    clusters than the input.  A concrete run shows a merged visit placed
    before a travel that starts before it ends. *)

From Equations Require Import Equations.
From stdpp Require Import base list options gmap.
From Stdlib Require Import ZArith QArith Permutation Lia.
From S2P Require Import Prelude Geometry Points Discovery Merge Materialize.
Local Open Scope nat_scope.

Section Nearby.
Context `{M : Metric}.

(** [{lat: c.centerLat, lon: c.centerLon}]. *)
Definition centerOf (c : Cluster) : option Coord :=
  match centerLat c, centerLon c with
  | Some la, Some lo => Some (mkCoord la lo)
  | _, _ => None
  end.

(** Lines 466-471: [calculateDistanceInMeters(current, other) <=
    mergeRadius].  A missing center makes the distance [NaN], and the
    comparison is false. *)
Definition nearby (mergeRadius : Q) (cur c : Cluster) : bool :=
  match centerOf cur, centerOf c with
  | Some p, Some q => within mergeRadius p q
  | _, _ => false
  end.

(** The inner loop of lines 463-474, from index [j], collecting into
    [toMerge]. *)
Fixpoint collectNearby (clusters : list Cluster) (mergeRadius : Q) (cur : Cluster)
    (processed : gset nat) (fuel j : nat) (toMerge : list nat) : option (list nat) :=
  match fuel with
  | 0 => None
  | S fuel' =>
      if j <? length clusters then
        cj <- clusters !! j;
        if bool_decide (elem_of j processed) || negb (is_visit cj) then
          collectNearby clusters mergeRadius cur processed fuel' (S j) toMerge
        else if nearby mergeRadius cur cj then
          collectNearby clusters mergeRadius cur processed fuel' (S j) (toMerge ++ [j])
        else collectNearby clusters mergeRadius cur processed fuel' (S j) toMerge
      else Some toMerge
  end.

(** [Math.min]/[Math.max] with an accumulator that starts at
    [Infinity]/[-Infinity], written [None]. *)
Definition minInf (acc : option Z) (x : Z) : Z := match acc with Some a => Z.min a x | None => x end.
Definition maxInf (acc : option Z) (x : Z) : Z := match acc with Some a => Z.max a x | None => x end.

(** The variables of lines 478-480 and [processed]. *)
Record MergeAcc := mkMergeAcc {
  allPointIndices : list nat;
  minStartTime : option Z;
  maxEndTime : option Z;
  mprocessed : gset nat
}.

(** One round of the [toMerge.forEach] of lines 482-488. *)
Definition mergeStep (clusters : list Cluster) (acc : option MergeAcc) (clusterIndex : nat) : option MergeAcc :=
  a <- acc;
  cluster <- clusters !! clusterIndex;
  Some (mkMergeAcc (allPointIndices a ++ pointIndices cluster)
          (Some (minInf (minStartTime a) (startTime cluster)))
          (Some (maxInf (maxEndTime a) (endTime cluster)))
          (union {[ clusterIndex ]} (mprocessed a))).

(** Lines 476-499: the merged cluster and the new [processed].  The
    times stay infinite only for an empty [toMerge], which the caller
    never passes. *)
Definition mergeGroup (clusters : list Cluster) (cur : Cluster) (toMerge : list nat)
    (processed : gset nat) : option (Cluster * gset nat) :=
  a <- fold_left (mergeStep clusters) toMerge (Some (mkMergeAcc [] None None processed));
  s <- minStartTime a;
  e <- maxEndTime a;
  Some (mkCluster Visit (allPointIndices a) s e (centerLat cur) (centerLon cur) None None, mprocessed a).

(** The outer loop of lines 454-513, from index [i]. *)
Fixpoint nearbyLoop (clusters : list Cluster) (mergeRadius : Q) (fuel i : nat)
    (processed : gset nat) (mergedClusters : list Cluster) : option (list Cluster) :=
  match fuel with
  | 0 => None
  | S fuel' =>
      if i <? length clusters then
        if bool_decide (elem_of i processed) then
          nearbyLoop clusters mergeRadius fuel' (S i) processed mergedClusters
        else
          currentCluster <- clusters !! i;
          if is_visit currentCluster then
            toMerge <- collectNearby clusters mergeRadius currentCluster processed
                         (S (length clusters)) (S i) [i];
            if 1 <? length toMerge then
              '(mergedCluster, processed') <- mergeGroup clusters currentCluster toMerge processed;
              nearbyLoop clusters mergeRadius fuel' (S i) processed' (mergedClusters ++ [mergedCluster])
            else nearbyLoop clusters mergeRadius fuel' (S i) (union {[ i ]} processed)
                   (mergedClusters ++ [currentCluster])
          else nearbyLoop clusters mergeRadius fuel' (S i) (union {[ i ]} processed)
                 (mergedClusters ++ [currentCluster])
      else Some mergedClusters
  end.

(** [mergeRadius = 50]. *)
Definition DEFAULT_MERGE_RADIUS : Q := 50.

(** Lines 448-516. *)
Definition mergeNearbyVisitClusters (clusters : list Cluster) (mergeRadius : Q) : option (list Cluster) :=
  if length clusters <=? 1 then Some clusters
  else nearbyLoop clusters mergeRadius (S (length clusters)) 0 empty [].

(** ** The reference *)

(** [d] is absorbed by the visit [c]. *)
Definition absorbs (mergeRadius : Q) (c d : Cluster) : bool := is_visit d && nearby mergeRadius c d.

Definition mergeVisits (cur : Cluster) (group : list Cluster) : Cluster :=
  mkCluster Visit (concat (map pointIndices (cur :: group)))
    (fold_left Z.min (map startTime group) (startTime cur))
    (fold_left Z.max (map endTime group) (endTime cur))
    (centerLat cur) (centerLon cur) None None.

Equations? mergeNearbyRef (mergeRadius : Q) (cs : list Cluster) : list Cluster by wf (length cs) lt :=
  mergeNearbyRef r [] := [];
  mergeNearbyRef r (c :: rest) :=
    if is_visit c then
      match List.filter (absorbs r c) rest with
      | [] => c
      | group => mergeVisits c group
      end :: mergeNearbyRef r (List.filter (fun d => negb (absorbs r c d)) rest)
    else c :: mergeNearbyRef r rest.
Proof.
  all: simpl; try lia.
  eapply Nat.le_lt_trans; [apply List.filter_length_le | lia].
Qed.

(** ** The loops against the reference

    [indexed i (drop i clusters)] pairs each cluster from [i] on with its
    index; [pending] keeps the pairs not yet in [processed], which are
    the clusters the rest of the loop still looks at. *)

Definition unprocessed (P : gset nat) (kc : nat * Cluster) : bool := negb (bool_decide (elem_of kc.1 P)).

Definition pending (cs : list Cluster) (i : nat) (P : gset nat) : list (nat * Cluster) :=
  List.filter (unprocessed P) (indexed i (drop i cs)).

Lemma indexed_fst {A} k (l : list A) : map fst (indexed k l) = seq k (length l).
Proof. revert k. induction l as [|c l IH]; intros k; simpl; [done | by rewrite IH]. Qed.

Lemma indexed_In {A} j (l : list A) k d : In (k, d) (indexed j l) -> j <= k /\ l !! (k - j) = Some d.
Proof.
  revert j. induction l as [|c l IH]; intros j H; simpl in H; [done|].
  destruct H as [[= <- <-]|H]; [split; [lia | by rewrite Nat.sub_diag]|].
  destruct (IH (S j) H) as [Hle Hl]. split; [lia|].
  replace (k - j) with (S (k - S j)) by lia. exact Hl.
Qed.

Lemma pending_lookup cs i P k d : In (k, d) (pending cs i P) -> i <= k /\ cs !! k = Some d.
Proof.
  unfold pending. intros [H _]%filter_In. apply indexed_In in H as [Hle Hl].
  rewrite lookup_drop in Hl. split; [done|]. by replace (i + (k - i)) with k in Hl by lia.
Qed.

(** The head of the pending list at a cluster of the array. *)
Lemma indexed_drop {A} (cs : list A) i c :
  cs !! i = Some c -> indexed i (drop i cs) = (i, c) :: indexed (S i) (drop (S i) cs).
Proof. intros H. by rewrite (drop_S _ _ _ H). Qed.

Lemma pending_end cs i P : length cs <= i -> pending cs i P = [].
Proof. intros H. unfold pending. rewrite drop_ge; [done | lia]. Qed.

Lemma pending_ext cs i P P' : (forall k, i <= k -> elem_of k P <-> elem_of k P') -> pending cs i P = pending cs i P'.
Proof.
  intros H. unfold pending. apply List.filter_ext_in. intros [k d] Hin.
  apply indexed_In in Hin as [Hle _]. unfold unprocessed. cbn [fst]. f_equal. apply bool_decide_ext, H, Hle.
Qed.
Lemma pending_cons cs j P c :
  cs !! j = Some c ->
  pending cs j P = if bool_decide (elem_of j P) then pending cs (S j) P else (j, c) :: pending cs (S j) P.
Proof.
  intros Hc. unfold pending at 1. rewrite (indexed_drop _ _ _ Hc). cbn [List.filter].
  unfold unprocessed at 1. cbn [fst]. by destruct (bool_decide _).
Qed.

(** The inner loop collects the pending visits near [cur], in order. *)
Lemma collectNearby_spec cs r cur P fuel j acc :
  length cs - j < fuel ->
  collectNearby cs r cur P fuel j acc =
  Some (acc ++ map fst (List.filter (fun kc => absorbs r cur kc.2) (pending cs j P))).
Proof.
  revert j acc. induction fuel as [|fuel IH]; intros j acc Hf; [lia|]. cbn [collectNearby].
  destruct (Nat.ltb_spec j (length cs)) as [Hj|Hj].
  - destruct (lookup_lt_is_Some_2 cs j Hj) as [cj Hc]. rewrite Hc. cbn [mbind option_bind].
    rewrite (pending_cons _ _ _ _ Hc). destruct (bool_decide (elem_of j P)); cbn [orb negb].
    + apply IH. lia.
    + cbn [List.filter snd]. change (absorbs r cur cj) with (is_visit cj && nearby r cur cj).
      destruct (is_visit cj), (nearby r cur cj); cbn [negb andb map fst]; rewrite IH by lia; try done.
      by rewrite <- app_assoc.
  - rewrite pending_end by lia. simpl. by rewrite app_nil_r.
Qed.
(** The [forEach] of lines 482-488 after its first round. *)
Lemma mergeStep_fold cs (G : list (nat * Cluster)) ps m e P :
  (forall k d, In (k, d) G -> cs !! k = Some d) ->
  exists P', fold_left (mergeStep cs) (map fst G) (Some (mkMergeAcc ps (Some m) (Some e) P)) =
    Some (mkMergeAcc (ps ++ concat (map pointIndices (map snd G)))
            (Some (fold_left Z.min (map startTime (map snd G)) m))
            (Some (fold_left Z.max (map endTime (map snd G)) e)) P') /\
    (forall k, elem_of k P' <-> elem_of k P \/ In k (map fst G)).
Proof.
  revert ps m e P. induction G as [|[k d] G IH]; intros ps m e P HG; cbn [map fold_left concat].
  - exists P. rewrite app_nil_r. split; [done|]. intros k. simpl. tauto.
  - unfold mergeStep at 2. cbn [mbind option_bind fst]. rewrite (HG k d (or_introl eq_refl)).
    cbn [mbind option_bind allPointIndices minStartTime maxEndTime mprocessed minInf maxInf].
    destruct (IH (ps ++ pointIndices d) (Z.min m (startTime d)) (Z.max e (endTime d)) (union {[ k ]} P))
      as (P' & HF & HP'); [intros k' d' H; apply HG; by right|].
    exists P'. rewrite HF, <- app_assoc. split; [done|].
    intros k'. rewrite HP', elem_of_union, elem_of_singleton. cbn [fst In]. intuition (subst; auto).
Qed.

(** Lines 476-499 on the group [i :: G]. *)
Lemma mergeGroup_spec cs i cur (G : list (nat * Cluster)) P :
  cs !! i = Some cur -> (forall k d, In (k, d) G -> cs !! k = Some d) ->
  exists P', mergeGroup cs cur (i :: map fst G) P = Some (mergeVisits cur (map snd G), P') /\
    (forall k, elem_of k P' <-> elem_of k P \/ k = i \/ In k (map fst G)).
Proof.
  intros Hi HG. unfold mergeGroup. cbn [fold_left]. unfold mergeStep at 2.
  cbn [mbind option_bind]. rewrite Hi.
  cbn [mbind option_bind allPointIndices minStartTime maxEndTime mprocessed minInf maxInf app].
  destruct (mergeStep_fold cs G (pointIndices cur) (startTime cur) (endTime cur) (union {[ i ]} P) HG)
    as (P' & HF & HP').
  rewrite HF. cbn [mbind option_bind allPointIndices minStartTime maxEndTime mprocessed].
  exists P'. split; [done|]. intros k. rewrite HP', elem_of_union, elem_of_singleton. intuition (subst; auto).
Qed.

Lemma map_snd_filter (f : Cluster -> bool) (L : list (nat * Cluster)) :
  map snd (List.filter (fun kc => f kc.2) L) = List.filter f (map snd L).
Proof. induction L as [|[k d] L IH]; simpl; [done|]. destruct (f d); simpl; by rewrite IH. Qed.

Lemma filter_negb_nil {A} (f : A -> bool) (l : list A) :
  List.filter f l = [] -> List.filter (fun x => negb (f x)) l = l.
Proof.
  induction l as [|x l IH]; simpl; [done|]. destruct (f x); simpl; [done|]. intros H. by rewrite IH.
Qed.

Lemma in_map_fst_filter (g : nat * Cluster -> bool) (l : list (nat * Cluster)) k :
  In k (map fst (List.filter g l)) -> In k (map fst l).
Proof. intros (x & <- & Hx)%in_map_iff. apply filter_In in Hx as [Hx _]. by apply in_map. Qed.

Lemma in_fst_filter_cons_ne (g : nat * Cluster -> bool) k d L k' :
  k' <> k -> In k' (map fst (List.filter g ((k, d) :: L))) <-> In k' (map fst (List.filter g L)).
Proof.
  intros Hne. cbn [List.filter]. destruct (g (k, d)); cbn [map fst In]; [|done].
  split; [intros [H|H]; [congruence | done] | by right].
Qed.

(** After a merge, the pending clusters are those that were pending and
    not absorbed. *)
Lemma filter_absorbed (L : list (nat * Cluster)) P P' i (f : Cluster -> bool) :
  NoDup (map fst L) -> ~ In i (map fst L) ->
  (forall k, In k (map fst L) ->
     (elem_of k P' <-> elem_of k P \/ k = i \/
        In k (map fst (List.filter (fun kc => f kc.2) (List.filter (unprocessed P) L))))) ->
  List.filter (unprocessed P') L = List.filter (fun kc => negb (f kc.2)) (List.filter (unprocessed P) L).
Proof.
  induction L as [|[k d] L IH]; intros Hnd Hi HP'; [done|].
  cbn [map fst] in Hnd, Hi. apply NoDup_cons in Hnd as [Hk Hnd]. rewrite list_elem_of_In in Hk.
  assert (HIH : List.filter (unprocessed P') L =
                 List.filter (fun kc => negb (f kc.2)) (List.filter (unprocessed P) L)).
  { apply IH; [done | intros H; apply Hi; by right|].
    intros k' Hk'. rewrite (HP' k' (or_intror Hk')).
    assert (Hne : k' <> k) by (intros ->; contradiction).
    cbn [List.filter]. destruct (unprocessed P (k, d)); [|reflexivity].
    rewrite (in_fst_filter_cons_ne _ _ _ _ _ Hne). reflexivity. }
  pose proof (HP' k (or_introl eq_refl)) as Hkk. cbn [List.filter] in Hkk |- *.
  change (unprocessed P' (k, d)) with (negb (bool_decide (elem_of k P'))).
  change (unprocessed P (k, d)) with (negb (bool_decide (elem_of k P))) in Hkk |- *.
  destruct (bool_decide (elem_of k P)) eqn:EP; cbn [negb] in Hkk |- *.
  - apply bool_decide_eq_true in EP. by rewrite (bool_decide_eq_true_2 (elem_of k P')), HIH by (apply Hkk; by left).
  - apply bool_decide_eq_false in EP. cbn [List.filter snd] in Hkk |- *.
    destruct (f d); cbn [negb map fst In] in Hkk |- *.
    + by rewrite (bool_decide_eq_true_2 (elem_of k P')), HIH by (apply Hkk; right; right; by left).
    + rewrite (bool_decide_eq_false_2 (elem_of k P')); [by rewrite HIH|].
      intros Hin%Hkk. destruct Hin as [H|[H|H]]; [done | subst; apply Hi; by left|].
      by apply in_map_fst_filter, in_map_fst_filter, Hk in H.
Qed.
Lemma absorbed_lookup cs j P (f : nat * Cluster -> bool) k d :
  In (k, d) (List.filter f (pending cs j P)) -> cs !! k = Some d.
Proof. intros [Hin _]%filter_In. by apply pending_lookup in Hin as [_ ->]. Qed.

Lemma indexed_NoDup {A} i (l : list A) : NoDup (map fst (indexed (S i) l)) /\ ~ In i (map fst (indexed (S i) l)).
Proof. rewrite indexed_fst. split; [apply NoDup_seq | rewrite in_seq; lia]. Qed.

(** The outer loop from index [i] computes the reference on the clusters
    still pending. *)
Lemma nearbyLoop_ref cs r fuel i P acc :
  length cs - i < fuel ->
  nearbyLoop cs r fuel i P acc = Some (acc ++ mergeNearbyRef r (map snd (pending cs i P))).
Proof.
  revert i P acc. induction fuel as [|fuel IH]; intros i P acc Hf; [lia|]. cbn [nearbyLoop].
  destruct (Nat.ltb_spec i (length cs)) as [Hi|Hi].
  2:{ rewrite pending_end by lia. cbn [map]. simp mergeNearbyRef. by rewrite app_nil_r. }
  destruct (lookup_lt_is_Some_2 cs i Hi) as [c Hc]. rewrite (pending_cons _ _ _ _ Hc).
  destruct (bool_decide (elem_of i P)); [apply IH; lia|].
  rewrite Hc. cbn [mbind option_bind map snd]. simp mergeNearbyRef.
  assert (Hpend : pending cs (S i) (union {[ i ]} P) = pending cs (S i) P).
  { apply pending_ext. intros k Hk. rewrite elem_of_union, elem_of_singleton. split; [intros [->|H]; [lia|done] | intros H; by right]. }
  destruct (is_visit c) eqn:Hv; [|rewrite IH, Hpend by lia; by rewrite <- app_assoc].
  rewrite collectNearby_spec by lia. cbn [mbind option_bind app length].
  rewrite <- (map_snd_filter (absorbs r c)), <- (map_snd_filter (fun d => negb (absorbs r c d))).
  destruct (List.filter (fun kc => absorbs r c kc.2) (pending cs (S i) P)) as [|g G] eqn:HG.
  - cbn [map length Nat.ltb Nat.leb]. rewrite IH, Hpend by lia.
    rewrite (filter_negb_nil (fun kc => absorbs r c kc.2)) by exact HG. by rewrite <- app_assoc.
  - assert (Hlk : forall k d, In (k, d) (g :: G) -> cs !! k = Some d)
      by (rewrite <- HG; apply absorbed_lookup).
    destruct (mergeGroup_spec cs i c (g :: G) P Hc Hlk) as (P' & HM & HP').
    cbn [map length Nat.ltb Nat.leb]. change (i :: g.1 :: map fst G) with (i :: map fst (g :: G)).
    rewrite HM. cbn [mbind option_bind]. rewrite IH by lia.
    assert (Hp' : pending cs (S i) P' = List.filter (fun kc => negb (absorbs r c kc.2)) (pending cs (S i) P)).
    { unfold pending. destruct (indexed_NoDup i (drop (S i) cs)) as [Hnd Hni].
      apply (filter_absorbed _ P P' i); [done | done|]. intros k _. rewrite HP'.
      unfold pending in HG. by rewrite HG. }
    rewrite Hp'. cbn [map]. by rewrite <- app_assoc.
Qed.

Lemma indexed_snd {A} k (l : list A) : map snd (indexed k l) = l.
Proof. revert k. induction l as [|c l IH]; intros k; simpl; [done | by rewrite IH]. Qed.

Lemma pending_init cs : map snd (pending cs 0 empty) = cs.
Proof.
  unfold pending. rewrite drop_0. transitivity (map snd (indexed 0 cs)); [|apply indexed_snd]. f_equal.
  rewrite <- (List.filter_true (indexed 0 cs)) at 2. apply List.filter_ext_in.
  intros kc _. unfold unprocessed. by rewrite bool_decide_eq_false_2 by set_solver.
Qed.

Lemma mergeNearbyRef_short r cs : length cs <= 1 -> mergeNearbyRef r cs = cs.
Proof.
  destruct cs as [|c [|c' cs]]; intros H; simpl in H; [by simp mergeNearbyRef | | lia].
  simp mergeNearbyRef. by destruct (is_visit c).
Qed.

(** The code computes the reference. *)
Lemma mergeNearbyVisitClusters_eq cs r : mergeNearbyVisitClusters cs r = Some (mergeNearbyRef r cs).
Proof.
  unfold mergeNearbyVisitClusters. destruct (Nat.leb_spec (length cs) 1).
  - by rewrite mergeNearbyRef_short.
  - rewrite nearbyLoop_ref by lia. by rewrite pending_init.
Qed.

(** ** What the reference keeps *)

Lemma filter_split_perm {A} (f : A -> bool) (l : list A) :
  Permutation (List.filter f l ++ List.filter (fun x => negb (f x)) l) l.
Proof.
  induction l as [|x l IH]; simpl; [done|]. destruct (f x); simpl; [by constructor|].
  rewrite <- Permutation_middle. by constructor.
Qed.

Lemma mergeHead_points r c rest :
  pointIndices (match List.filter (absorbs r c) rest with [] => c | group => mergeVisits c group end) =
  pointIndices c ++ concat (map pointIndices (List.filter (absorbs r c) rest)).
Proof. destruct (List.filter (absorbs r c) rest); simpl; [by rewrite app_nil_r | done]. Qed.

Lemma mergeNearbyRef_perm r cs :
  Permutation (concat (map pointIndices (mergeNearbyRef r cs))) (concat (map pointIndices cs)).
Proof.
  funelim (mergeNearbyRef r cs); simp mergeNearbyRef; [done|].
  destruct (is_visit c); cbn [map concat]; [|by apply Permutation_app_head].
  rewrite mergeHead_points, <- app_assoc. apply Permutation_app_head.
  rewrite H. rewrite <- concat_app, <- map_app, <- !flat_map_concat_map.
  apply Permutation_flat_map, filter_split_perm.
Qed.
Lemma mergeNearbyRef_length r cs : length (mergeNearbyRef r cs) <= length cs.
Proof.
  funelim (mergeNearbyRef r cs); simp mergeNearbyRef; [done|].
  destruct (is_visit c); cbn [length]; [|lia].
  pose proof (List.filter_length_le (fun d => negb (absorbs r c d)) rest). lia.
Qed.

Lemma travel_not_visit d : is_travel d = true -> is_visit d = false.
Proof. rewrite is_travel_spec. unfold is_visit. intros ->. by apply bool_decide_eq_false_2. Qed.

Lemma filter_travel_unabsorbed r c l :
  List.filter is_travel (List.filter (fun d => negb (absorbs r c d)) l) = List.filter is_travel l.
Proof.
  induction l as [|d l IH]; simpl; [done|].
  destruct (is_travel d) eqn:Ht.
  - unfold absorbs at 1. rewrite (travel_not_visit d Ht). simpl. rewrite Ht. by f_equal.
  - destruct (negb (absorbs r c d)); simpl; [rewrite Ht|]; done.
Qed.

Lemma mergeHead_visit r c rest :
  is_visit c = true ->
  is_travel (match List.filter (absorbs r c) rest with [] => c | group => mergeVisits c group end) = false.
Proof.
  intros Hv. destruct (is_travel _) eqn:Ht; [|done]. revert Ht.
  destruct (List.filter (absorbs r c) rest); [|done]. intros Ht. by rewrite (travel_not_visit c Ht) in Hv.
Qed.

Lemma mergeNearbyRef_travels r cs : List.filter is_travel (mergeNearbyRef r cs) = List.filter is_travel cs.
Proof.
  funelim (mergeNearbyRef r cs); simp mergeNearbyRef; [done|].
  destruct (is_visit c) eqn:Hv; cbn [List.filter].
  - rewrite mergeHead_visit, H, filter_travel_unabsorbed by done.
    unfold is_travel at 2. rewrite (bool_decide_eq_false_2 (ctype c = Travel)); [done|].
    unfold is_visit in Hv. apply bool_decide_eq_true in Hv. by rewrite Hv.
  - by rewrite H0.
Qed.

(** [C12] [mergeNearbyVisitClusters] computes the reference: it never
    runs out of fuel, and the index loops with their [processed] set
    return what [mergeNearbyRef] returns, on every input and radius. *)
Theorem mergeNearbyVisitClusters_refines_ref cs r :
  mergeNearbyVisitClusters cs r = Some (mergeNearbyRef r cs).
Proof.
  unfold mergeNearbyVisitClusters. destruct (Nat.leb_spec (length cs) 1).
  - by rewrite mergeNearbyRef_short.
  - rewrite nearbyLoop_ref by lia. by rewrite pending_init.
Qed.

(** [C13] Merging nearby visits keeps every point index (the output's
    indices are a permutation of the input's), never adds clusters, and
    keeps the travel clusters unchanged and in order. *)
Theorem mergeNearbyVisitClusters_keeps cs r out :
  mergeNearbyVisitClusters cs r = Some out ->
  Permutation (concat (map pointIndices out)) (concat (map pointIndices cs)) /\
  length out <= length cs /\ List.filter is_travel out = List.filter is_travel cs.
Proof.
  rewrite mergeNearbyVisitClusters_eq. intros [= <-].
  split_and!; [apply mergeNearbyRef_perm | apply mergeNearbyRef_length | apply mergeNearbyRef_travels].
Qed.
End Nearby.

(** ** A concrete run: two visits at one place around a travel *)

Definition visitA := mkCluster Visit [0;1] 0 10 (Some 0%Q) (Some 0%Q) None None.
Definition travelB := mkCluster Travel [2] 11 20 None None None None.
Definition visitC := mkCluster Visit [3;4] 21 30 (Some 0%Q) (Some 0%Q) None None.

Definition mergedAC := mkCluster Visit [0;1;3;4] 0 30 (Some 0%Q) (Some 0%Q) None None.

Lemma mergeNearbyVisitClusters_keeps_witness :
  @mergeNearbyVisitClusters PlanarMetric [visitA; travelB; visitC] DEFAULT_MERGE_RADIUS = Some [mergedAC; travelB] /\
  (Permutation (concat (map pointIndices [mergedAC; travelB])) (concat (map pointIndices [visitA; travelB; visitC])) /\
   length [mergedAC; travelB] <= length [visitA; travelB; visitC] /\
   List.filter is_travel [mergedAC; travelB] = List.filter is_travel [visitA; travelB; visitC]).
Proof.
  split; [vm_compute; reflexivity|].
  apply (mergeNearbyVisitClusters_keeps (M := PlanarMetric) [visitA; travelB; visitC] DEFAULT_MERGE_RADIUS [mergedAC; travelB]).
  vm_compute. reflexivity.
Defined.

(** The merged visit ends after the travel that separates its parts
    starts, and comes before it in the output. *)
Example mergeNearbyVisitClusters_time_order :
  @mergeNearbyVisitClusters PlanarMetric [visitA; travelB; visitC] DEFAULT_MERGE_RADIUS = Some [mergedAC; travelB] /\
  (startTime travelB < endTime mergedAC)%Z.
Proof. split; vm_compute; reflexivity. Qed.
