(* ===== verification/Enhancer.v ===== *)
(** * The entry points: [enhanceLocationData] and [clusterLocationPoints]

    Lines 19-49 and 84-136 of [src/src/store/locationEnhancer.js].  A
    location history is the object [user -> device -> points], modelled as
    an association list in the order of [Object.keys].  [enhanceLocationData]
    nulls the four metadata fields of every point of the object it is
    given, in place, and returns either that same object (clustering
    disabled) or a new one built by [clusterLocationPoints]: each device's
    points are sorted, clustered, merged and materialized.  The model
    returns the pair (the caller's object after the call, the returned
    object), which makes the sharing of the disabled case explicit. *)

From stdpp Require Import base list options.
From Stdlib Require Import ZArith QArith Sorted Permutation Lia.
From Stdlib Require String.
Import String.StringSyntax.
From S2P Require Import Prelude Geometry Points Discovery Merge Materialize.
Local Open Scope nat_scope.
Local Open Scope locenh_scope.

(** [user -> device -> points]. *)
Definition LocationHistory : Type :=
  list (String.string * list (String.string * list LocationPoint)).

(** The fields of [clusteringConfig] the code reads; [None] is an absent
    field.  Sizes are non-negative integers. *)
Record ClusteringConfig := mkConfig {
  enabled : option bool;
  clusterRadius : option Q;
  minVisitClusterSize : option nat;
  minTravelClusterSize : option nat
}.

(** [x || d] on a number: [undefined] and [0] are falsy. *)
Definition js_orQ (x : option Q) (d : Q) : Q :=
  match x with
  | Some q => if Qeq_bool q 0 then d else q
  | None => d
  end.

Definition js_orN (x : option nat) (d : nat) : nat :=
  match x with
  | Some (S k) => S k
  | _ => d
  end.

(** Lines 30-33 applied to every point of the history. *)
Definition resetHistory (h : LocationHistory) : LocationHistory :=
  map (fun '(user, devices) =>
         (user, map (fun '(device, points) => (device, map resetMetadata points)) devices)) h.

Section Pipeline.
Context `{M : Metric}.

(** Lines 95-127 for one device. *)
Definition clusterDevice (CLUSTER_RADIUS : Q) (MIN_VISIT_CLUSTER_SIZE MIN_TRAVEL_CLUSTER_SIZE : nat)
    (points : list LocationPoint) : option (list LocationPoint) :=
  let locations := sortByTime points in
  clusters <- findLocationClusters locations CLUSTER_RADIUS MIN_VISIT_CLUSTER_SIZE
               MIN_TRAVEL_CLUSTER_SIZE;
  mergedClusters <- mergeConsecutiveTravelClusters clusters;
  processClusterToLocations mergedClusters locations.

(** Lines 84-136. *)
Definition clusterLocationPoints (locationHistory : LocationHistory)
    (clusteringConfig : ClusteringConfig) : option LocationHistory :=
  let CLUSTER_RADIUS := js_orQ (clusterRadius clusteringConfig) 20 in
  let MIN_VISIT_CLUSTER_SIZE := js_orN (minVisitClusterSize clusteringConfig) 3 in
  let MIN_TRAVEL_CLUSTER_SIZE := js_orN (minTravelClusterSize clusteringConfig) 7 in
  mapM (fun '(user, devices) =>
          filtered <- mapM (fun '(device, points) =>
                             processed <- clusterDevice CLUSTER_RADIUS MIN_VISIT_CLUSTER_SIZE
                                           MIN_TRAVEL_CLUSTER_SIZE points;
                             Some (device, processed)) devices;
          Some (user, filtered))
       locationHistory.

(** Lines 19-49: the caller's history after the call, and the returned
    history. *)
Definition enhanceLocationData (rawLocationHistory : LocationHistory)
    (clusteringConfig : ClusteringConfig) : option (LocationHistory * LocationHistory) :=
  let raw := resetHistory rawLocationHistory in
  if bool_decide (enabled clusteringConfig = Some true) then
    clusteredData <- clusterLocationPoints raw clusteringConfig;
    Some (raw, clusteredData)
  else Some (raw, raw).

End Pipeline.

(** ** The cluster lists of the pipeline are well formed *)

Lemma tiling_wf n minVisit i cs : tiling n minVisit i cs -> wf_clusters n cs.
Proof.
  unfold wf_clusters.
  induction 1 as [|i j c cs Hty Hsp Hsz Ht IH|i c cs Hty Hmv Hi Hidx Ht IH]; constructor; auto.
  - pose proof (tiling_le _ _ _ _ Ht). split; [|intros _; by apply (spans_nonempty i j)].
    eapply Forall_impl; [exact (spans_bounds _ _ _ Hsp)|]. simpl. lia.
  - pose proof (tiling_le _ _ _ _ Ht). split; [|congruence].
    rewrite Hidx. apply List.Forall_forall. intros x Hx%in_seq. lia.
Qed.

Lemma In_allIndices c cs i : In c cs -> In i (pointIndices c) -> In i (allIndices cs).
Proof. intros Hc Hi. unfold allIndices. apply in_concat. exists (pointIndices c). by rewrite in_map_iff; eauto. Qed.

(** What a cluster of the merged list is: a visit of the input, or a
    travel whose indices are indices of the input. *)
Definition merged_member (cs : list Cluster) (m : Cluster) : Prop :=
  (In m cs /\ ctype m = Visit) \/
  (ctype m = Travel /\ forall i, In i (pointIndices m) -> In i (allIndices cs)).

Lemma merged_member_cons c cs m : merged_member cs m -> merged_member (c :: cs) m.
Proof.
  intros [[Hin Hv] | [Ht Hi]]; [left; split; [by right | done] | right; split; [done|]].
  intros i Hm. unfold allIndices. simpl. apply in_or_app. right. by apply Hi.
Qed.

Lemma is_travel_false c : is_travel c = false -> ctype c = Visit.
Proof. unfold is_travel. destruct (ctype c); [done|]. by rewrite bool_decide_eq_true_2. Qed.

Lemma mergeRef_members cs : forall m, In m (mergeRef cs) -> merged_member cs m.
Proof.
  induction cs as [|c cs IH]; intros m Hm; [done|]. rewrite mergeRef_cons in Hm.
  assert (Hfresh : merged_member (c :: cs) (freshTravel c)).
  { right. split; [done|]. intros i Hi. unfold allIndices. simpl. apply in_or_app. by left. }
  destruct (is_travel c) eqn:Hc.
  - destruct cs as [|d rest]; [destruct Hm as [<-|[]]; exact Hfresh|].
    destruct (is_travel d).
    + destruct (mergeRef (d :: rest)) as [|m0 ms] eqn:Hr.
      * destruct Hm as [<-|[]]. exact Hfresh.
      * destruct Hm as [<-|Hm]; [|apply merged_member_cons, IH; by right].
        right. split; [done|]. intros i Hi. simpl in Hi.
        change (allIndices (c :: d :: rest)) with (pointIndices c ++ allIndices (d :: rest)).
        apply in_or_app. apply in_app_or in Hi as [Hi|Hi]; [by left|right].
        destruct (IH m0 (or_introl eq_refl)) as [[Hin _] | [_ Hsub]];
          [by apply (In_allIndices m0) | by apply Hsub].
    + destruct Hm as [<-|Hm]; [exact Hfresh | by apply merged_member_cons, IH].
  - destruct Hm as [<-|Hm]; [left; split; [by left | by apply is_travel_false] |].
    by apply merged_member_cons, IH.
Qed.

Lemma wf_allIndices n cs : wf_clusters n cs -> forall i, In i (allIndices cs) -> i < n.
Proof.
  unfold wf_clusters, allIndices. intros Hwf i Hi. apply in_concat in Hi as (l & Hl & Hi).
  apply in_map_iff in Hl as (c & <- & Hc). rewrite List.Forall_forall in Hwf.
  destruct (Hwf c Hc) as [Hb _]. rewrite List.Forall_forall in Hb. auto.
Qed.

Lemma mergeRef_wf n cs : wf_clusters n cs -> wf_clusters n (mergeRef cs).
Proof.
  intros Hwf. unfold wf_clusters. apply List.Forall_forall. intros m Hm.
  destruct (mergeRef_members cs m Hm) as [[Hin Hv] | [Ht Hsub]].
  - unfold wf_clusters in Hwf. rewrite List.Forall_forall in Hwf. auto.
  - split; [|congruence]. apply List.Forall_forall. intros i Hi.
    apply (wf_allIndices n cs Hwf), Hsub, Hi.
Qed.

Lemma outWeight_le c : (ctype c = Visit -> pointIndices c <> []) -> outWeight c <= length (pointIndices c).
Proof.
  intros Hne. unfold outWeight, is_visit.
  destruct (bool_decide_reflect (ctype c = Visit)) as [Hv|_]; [|lia].
  destruct (pointIndices c); [by destruct Hne | simpl; lia].
Qed.

(** A well-formed list emits at most one point per index. *)
Lemma outCount_le n cs : wf_clusters n cs -> outCount cs <= length (allIndices cs).
Proof.
  unfold wf_clusters, outCount, allIndices. induction 1 as [|c cs [_ Hne] _ IH]; [done|].
  simpl. rewrite length_app. pose proof (outWeight_le c Hne). lia.
Qed.

Lemma merge_wf n cs :
  wf_clusters n cs ->
  exists cs', mergeConsecutiveTravelClusters cs = Some cs' /\ wf_clusters n cs' /\
    allIndices cs' = allIndices cs.
Proof.
  intros Hwf. destruct (merge_result cs) as (cs' & H & [[_ ->] | [_ ->]]); eexists; split; eauto.
  split; [by apply mergeRef_wf | apply mergeRef_indices].
Qed.

Lemma discovery_wf `{M : Metric} locs r minVisit minTravel :
  exists cs, findLocationClusters locs r minVisit minTravel = Some cs /\
    wf_clusters (length locs) cs /\ length (allIndices cs) <= length locs.
Proof.
  destruct (findLocationClusters_tiling locs r minVisit minTravel) as (cs & H & H1 & H2).
  exists cs. split; [done|].
  destruct (Nat.le_gt_cases (length locs) 1) as [Hle|Hgt].
  - rewrite (H1 Hle). split; [constructor | simpl; lia].
  - split; [exact (tiling_wf _ _ _ _ (H2 Hgt))|].
    destruct (tiling_ordered _ _ _ _ (H2 Hgt)) as [Hs Hb]. apply sorted_bounded_length; [done|].
    eapply Forall_impl; [exact Hb|]. simpl. lia.
Qed.

(** The per-device pipeline never fails; its output is sorted by time and
    no longer than its input. *)
Lemma clusterDevice_run `{M : Metric} R MV MT points :
  exists out, clusterDevice R MV MT points = Some out /\ length out <= length points /\
    Sorted (fun a b => (pointTime a <= pointTime b)%Z) out.
Proof.
  unfold clusterDevice.
  destruct (discovery_wf (sortByTime points) R MV MT) as (cs & -> & Hwf & Hlen). simpl.
  destruct (merge_wf _ _ Hwf) as (cs' & -> & Hwf' & Hidx). simpl.
  destruct (processClusterToLocations_run cs' _ Hwf') as (st & -> & Hl).
  eexists. split_and!; [reflexivity | | apply sortByTime_sorted].
  pose proof (outCount_le _ _ Hwf'). rewrite sortByTime_length in *. rewrite Hidx in *. lia.
Qed.

(** The shape of a history kept by clustering: same users and devices in
    the same order, each device's points sorted by time and no more
    numerous than before. *)
Definition clustered_like (h out : LocationHistory) : Prop :=
  Forall2 (fun ud ud' => fst ud = fst ud' /\
             Forall2 (fun dp dp' => fst dp = fst dp' /\ length (snd dp') <= length (snd dp) /\
                                    Sorted (fun a b => (pointTime a <= pointTime b)%Z) (snd dp'))
                     (snd ud) (snd ud'))
          h out.

Lemma clusterLocationPoints_run `{M : Metric} h cfg :
  exists out, clusterLocationPoints h cfg = Some out /\ clustered_like h out.
Proof.
  unfold clusterLocationPoints. apply mapM_Forall2_total. intros [user devices] _.
  destruct (mapM_Forall2_total
              (fun '(device, points) =>
                 processed <- clusterDevice (js_orQ (clusterRadius cfg) 20)
                               (js_orN (minVisitClusterSize cfg) 3)
                               (js_orN (minTravelClusterSize cfg) 7) points;
                 Some (device, processed))
              (fun dp dp' => fst dp = fst dp' /\ length (snd dp') <= length (snd dp) /\
                             Sorted (fun a b => (pointTime a <= pointTime b)%Z) (snd dp'))
              devices) as (ds & -> & Hds).
  { intros [device points] _.
    destruct (clusterDevice_run (js_orQ (clusterRadius cfg) 20) (js_orN (minVisitClusterSize cfg) 3)
                (js_orN (minTravelClusterSize cfg) 7) points) as (out & -> & Hl & Hs).
    eexists. split; [reflexivity | done]. }
  eexists. split; [reflexivity | done].
Qed.

(** Every point of a history: [Object.keys] of users, then of devices. *)
Definition historyPoints (h : LocationHistory) : list LocationPoint :=
  concat (map (fun ud => concat (map snd (snd ud))) h).

Lemma clusterDevice_events `{M : Metric} R MV MT points out :
  clusterDevice R MV MT points = Some out -> Forall hasEvent out.
Proof.
  unfold clusterDevice.
  destruct (findLocationClusters _ _ _ _) as [cs|]; simpl; [|done].
  destruct (mergeConsecutiveTravelClusters cs) as [cs'|]; simpl; [|done].
  apply processClusterToLocations_events.
Qed.

(** With clustering enabled every returned point is a visit or a travel:
    the metadata is applied to all of them. *)
Lemma enhanceLocationData_enabled_events `{M : Metric} h cfg raw out :
  enabled cfg = Some true -> enhanceLocationData h cfg = Some (raw, out) ->
  Forall hasEvent (historyPoints out).
Proof.
  intros He. unfold enhanceLocationData. rewrite bool_decide_eq_true_2 by done.
  destruct (clusterLocationPoints _ _) as [out'|] eqn:Hc; simpl; [|done]. intros [= _ <-].
  unfold clusterLocationPoints in Hc. unfold historyPoints. apply Forall_concat, Forall_map.
  apply (mapM_Forall_out _ _ _ _ Hc). intros [user devices] ud Hud. simpl in Hud.
  destruct (mapM _ devices) as [ds|] eqn:Hds; simpl in Hud; [|done]. injection Hud as <-. simpl.
  apply Forall_concat, Forall_map. apply (mapM_Forall_out _ _ _ _ Hds).
  intros [device points] dp Hdp. simpl in Hdp.
  destruct (clusterDevice _ _ _ points) as [pts|] eqn:Hpts; simpl in Hdp; [|done].
  injection Hdp as <-. exact (clusterDevice_events _ _ _ _ _ Hpts).
Qed.

(** ** Properties of the entry points *)

(** [C18] With clustering enabled, [enhanceLocationData] never fails, for
    every history and configuration: it nulls the metadata of the caller's
    points and returns a history with the same users and devices in the
    same order, each device's points sorted by capture time and no more
    numerous than its input points. *)
Theorem enhanceLocationData_total `{M : Metric} (h : LocationHistory) (cfg : ClusteringConfig) :
  enabled cfg = Some true ->
  exists out, enhanceLocationData h cfg = Some (resetHistory h, out) /\
    clustered_like (resetHistory h) out.
Proof.
  intros He. unfold enhanceLocationData. rewrite bool_decide_eq_true_2 by done.
  destruct (clusterLocationPoints_run (resetHistory h) cfg) as (out & -> & Hout).
  eexists. split; [reflexivity | exact Hout].
Qed.

(** [C19] With clustering disabled, [enhanceLocationData] returns the
    caller's own history object, in which every point keeps its
    coordinates, times and passthrough fields and has its four metadata
    fields nulled; users, devices and lengths are unchanged. *)
Theorem enhanceLocationData_disabled `{M : Metric} (h : LocationHistory) (cfg : ClusteringConfig) :
  enabled cfg <> Some true ->
  exists out, enhanceLocationData h cfg = Some (out, out) /\
    Forall2 (fun ud ud' => fst ud = fst ud' /\
               Forall2 (fun dp dp' => fst dp = fst dp' /\
                          Forall2 (fun p q => coord q = coord p /\ tst q = tst p /\
                                     timestamp q = timestamp p /\ acc q = acc p /\ alt q = alt p /\
                                     node_event_type q = None /\ node_event_id q = None /\
                                     node_event_start q = None /\ node_event_end q = None)
                                  (snd dp) (snd dp'))
                       (snd ud) (snd ud'))
            h out.
Proof.
  intros He. unfold enhanceLocationData. rewrite bool_decide_eq_false_2 by done.
  eexists. split; [reflexivity|]. unfold resetHistory.
  apply Forall2_fmap_r, Forall_Forall2_diag, Forall_forall. intros [user devices] _.
  split; [done|]. apply Forall2_fmap_r, Forall_Forall2_diag, Forall_forall. intros [d ps] _.
  split; [done|]. apply Forall2_fmap_r, Forall_Forall2_diag, Forall_forall. intros p _.
  done.
Qed.

(** [C20] A device with a single point loses it when clustering is
    enabled: [findLocationClusters] returns no cluster for fewer than two
    points, so the device's list comes back empty. *)
Theorem enhanceLocationData_single_point `{M : Metric} (cfg : ClusteringConfig)
    (user device : String.string) (p : LocationPoint) :
  enabled cfg = Some true ->
  enhanceLocationData [(user, [(device, [p])])] cfg =
    Some ([(user, [(device, [resetMetadata p])])], [(user, [(device, [])])]).
Proof. intros He. unfold enhanceLocationData. rewrite bool_decide_eq_true_2 by done. reflexivity. Qed.

Local Open Scope string_scope.

Lemma enhanceLocationData_single_point_witness :
  @enhanceLocationData PlanarMetric
    [("alice", [("phone", [pointAt (mkCoord 1 2) 5])])]
    (mkConfig (Some true) None None None) =
  Some ([("alice", [("phone", [resetMetadata (pointAt (mkCoord 1 2) 5)])])],
        [("alice", [("phone", [])])]).
Proof. apply enhanceLocationData_single_point. reflexivity. Defined.

Lemma mean_coord (locs : list LocationPoint) (A : Coord) :
  locs <> [] -> Forall (fun p => coord_eq (coord p) A) locs ->
  (qsum (map lat locs) / inject_Z (Z.of_nat (length locs)) == clat A)%Q /\
  (qsum (map lon locs) / inject_Z (Z.of_nat (length locs)) == clon A)%Q.
Proof.
  intros Hne Hall. split; [rewrite <- (length_map lat locs) | rewrite <- (length_map lon locs)];
    apply qsum_const_mean; try (destruct locs; done);
    apply Forall_map; eapply Forall_impl; try exact Hall; intros p [Hlat Hlon]; assumption.
Qed.

(** [C21] A device that never moves (spec Scenario A): when its [n >= 2]
    points all lie at one location [A], the radius is non-negative and
    [minVisitClusterSize <= n], its output is a single point, of type
    [visit] with id [1], at the location [A]. *)
Theorem clusterDevice_stationary `{M : Metric} (R : Q) (MV MT : nat) (points : list LocationPoint)
    (A : Coord) :
  (0 <= R)%Q -> 2 <= length points -> MV <= length points ->
  Forall (fun p => coord_eq (coord p) A) points ->
  exists v, clusterDevice R MV MT points = Some [v] /\
    node_event_type v = Some EvVisit /\ node_event_id v = Some 1 /\ coord_eq (coord v) A.
Proof.
  intros HR Hn Hmv Hall. unfold clusterDevice.
  pose proof (Forall_sortByTime _ _ Hall) as Hall'.
  pose proof (sortByTime_length points) as Hlen.
  destruct (findLocationClusters_stationary_run (sortByTime points) A R MV MT) as (c & -> & Hty & Hidx);
    [done | lia | lia | done |].
  simpl. unfold processClusterToLocations, firstPass. simpl.
  rewrite setTravelTiming_visit by done. unfold emitCluster. rewrite Hty, Hidx, mapM_lookup_seq.
  simpl. unfold visitPoint.
  destruct (sortByTime points) as [|p0 rest] eqn:Hs; [simpl in Hlen; lia|]. simpl.
  destruct (mean_coord (p0 :: rest) A) as [Hlat Hlon]; [done | done |].
  eexists. split; [reflexivity|]. split_and!; [done | done |]. split; assumption.
Qed.

Lemma clusterDevice_stationary_witness :
  exists v, @clusterDevice PlanarMetric 20 3 7
    [pointAt (mkCoord 1 2) 30; pointAt (mkCoord 1 2) 10; pointAt (mkCoord 1 2) 20] = Some [v] /\
    node_event_type v = Some EvVisit /\ node_event_id v = Some 1 /\ coord_eq (coord v) (mkCoord 1 2).
Proof.
  apply (clusterDevice_stationary (M := PlanarMetric) 20 3 7); [vm_compute; discriminate | simpl; lia | simpl; lia |].
  repeat constructor.
Defined.

(** A history with one user and two devices. *)
Definition demo_history : LocationHistory :=
  [("alice", [("phone", [pointAt (mkCoord 0 0) 20; pointAt (mkCoord 0 0) 10; pointAt (mkCoord 0 0) 30;
                         pointAt (mkCoord 1 0) 40]);
              ("watch", [pointAt (mkCoord 5 5) 7])])].

Lemma enhanceLocationData_total_witness :
  exists out, @enhanceLocationData PlanarMetric demo_history (mkConfig (Some true) None None None) =
    Some (resetHistory demo_history, out) /\ clustered_like (resetHistory demo_history) out.
Proof. apply enhanceLocationData_total. reflexivity. Defined.

Lemma enhanceLocationData_disabled_witness :
  exists out, @enhanceLocationData PlanarMetric demo_history (mkConfig (Some false) None None None) =
    Some (out, out) /\
    Forall2 (fun ud ud' => fst ud = fst ud' /\
               Forall2 (fun dp dp' => fst dp = fst dp' /\
                          Forall2 (fun p q => coord q = coord p /\ tst q = tst p /\
                                     timestamp q = timestamp p /\ acc q = acc p /\ alt q = alt p /\
                                     node_event_type q = None /\ node_event_id q = None /\
                                     node_event_start q = None /\ node_event_end q = None)
                                  (snd dp) (snd dp'))
                       (snd ud) (snd ud'))
            demo_history out.
Proof. apply enhanceLocationData_disabled. vm_compute. discriminate. Defined.
