(* ===== verification/Store.v ===== *)
(** * The Vuex store state and its mutations

    [src/src/store/mutations.js]: one mutation per setter of the state.
    The state is a record of the fields the mutations write; the values
    the application stores in them but never inspects here (the abort
    controller, version strings) get simple types.  A JavaScript object
    used as a map ([map.layers]) is an association list in key order:
    assigning to an existing key updates it in place, a new key is
    appended. *)

From stdpp Require Import base list options sets.
From Stdlib Require Import ZArith QArith Lia.
From Stdlib Require String.
From S2P Require Import Prelude Geometry Points Enhancer.
Local Open Scope nat_scope.

Definition Key : Type := String.string.

#[export] Instance Key_eq_dec : EqDecision Key := String.string_dec.

Record MapState := mkMapState {
  center : Q * Q;
  zoom : Q;
  layers : list (Key * bool)
}.

Record State := mkState {
  isLoading : bool;
  recorderVersion : Key;
  users : list Key;
  devices : list (Key * list Key);
  lastLocations : list LocationPoint;
  locationHistory : LocationHistory;
  selectedUser : option Key;
  selectedDevice : option Key;
  startDateTime : Key;
  endDateTime : Key;
  mapState : MapState;  (* [state.map] *)
  distanceTravelled : Q;
  elevationGain : Q;
  elevationLoss : Q;
  requestAbortController : option nat;
  clustering : ClusteringConfig
}.

(** The mutation types of [mutation-types], with their payloads. *)
Inductive Mutation :=
| SET_IS_LOADING (isLoading : bool)
| SET_RECORDER_VERSION (version : Key)
| SET_USERS (users : list Key)
| SET_DEVICES (devices : list (Key * list Key))
| SET_LAST_LOCATIONS (lastLocations : list LocationPoint)
| SET_LOCATION_HISTORY (locationHistory : LocationHistory)
| SET_SELECTED_USER (selectedUser : option Key)
| SET_SELECTED_DEVICE (selectedDevice : option Key)
| SET_START_DATE_TIME (startDateTime : Key)
| SET_END_DATE_TIME (endDateTime : Key)
| SET_MAP_CENTER (center : Q * Q)
| SET_MAP_ZOOM (zoom : Q)
| SET_MAP_LAYER_VISIBILITY (layer : Key) (visibility : bool)
| SET_DISTANCE_TRAVELLED (distanceTravelled : Q)
| SET_ELEVATION_GAIN (elevationGain : Q)
| SET_ELEVATION_LOSS (elevationLoss : Q)
| SET_REQUEST_ABORT_CONTROLLER (requestAbortController : option nat)
| SET_CLUSTERING_ENABLED (enabled : bool)
| SET_CLUSTER_RADIUS (radius : Q)
| SET_MIN_VISIT_CLUSTER_SIZE (size : nat)
| SET_MIN_TRAVEL_CLUSTER_SIZE (size : nat).

(** Lines 3-67: [state] after [commit(type, payload)]. *)
Definition commit (state : State) (m : Mutation) : State :=
  match m with
  | SET_IS_LOADING v => {| state with isLoading := v |}
  | SET_RECORDER_VERSION v => {| state with recorderVersion := v |}
  | SET_USERS v => {| state with users := v |}
  | SET_DEVICES v => {| state with devices := v |}
  | SET_LAST_LOCATIONS v => {| state with lastLocations := v |}
  | SET_LOCATION_HISTORY v => {| state with locationHistory := v |}
  | SET_SELECTED_USER v => {| state with selectedUser := v |}
  | SET_SELECTED_DEVICE v => {| state with selectedDevice := v |}
  | SET_START_DATE_TIME v => {| state with startDateTime := v |}
  | SET_END_DATE_TIME v => {| state with endDateTime := v |}
  | SET_MAP_CENTER v => let ms := mapState state in {| state with mapState := {| ms with center := v |} |}
  | SET_MAP_ZOOM v => let ms := mapState state in {| state with mapState := {| ms with zoom := v |} |}
  | SET_MAP_LAYER_VISIBILITY layer visibility =>
      let ms := mapState state in
      {| state with mapState := {| ms with layers := assoc_set layer visibility (layers ms) |} |}
  | SET_DISTANCE_TRAVELLED v => {| state with distanceTravelled := v |}
  | SET_ELEVATION_GAIN v => {| state with elevationGain := v |}
  | SET_ELEVATION_LOSS v => {| state with elevationLoss := v |}
  | SET_REQUEST_ABORT_CONTROLLER v => {| state with requestAbortController := v |}
  | SET_CLUSTERING_ENABLED v =>
      let cs := clustering state in {| state with clustering := {| cs with enabled := Some v |} |}
  | SET_CLUSTER_RADIUS v =>
      let cs := clustering state in {| state with clustering := {| cs with clusterRadius := Some v |} |}
  | SET_MIN_VISIT_CLUSTER_SIZE v =>
      let cs := clustering state in {| state with clustering := {| cs with minVisitClusterSize := Some v |} |}
  | SET_MIN_TRAVEL_CLUSTER_SIZE v =>
      let cs := clustering state in {| state with clustering := {| cs with minTravelClusterSize := Some v |} |}
  end.

