(* ===== verification/Getters.v ===== *)
(** * The store getters

    [src/src/store/getters.js].  [filteredLocationHistory] passes the
    store's location history through [enhanceLocationData] and drops the
    points less accurate than [config.filters.minAccuracy]; the two other
    getters read its result as Leaflet coordinates, the second one cutting
    each device's track where two consecutive points are farther apart than
    [config.map.maxPointDistance].  The application configuration
    ([@/config]) and [distanceBetweenCoordinates] ([@/util]) are not part
    of the sources: they are parameters of the section.  Each getter
    returns the state after the call as well as its value, since
    [enhanceLocationData] writes into the store's points. *)

From stdpp Require Import base list options.
From Stdlib Require Import ZArith QArith Qabs Sorted Lia.
From S2P Require Import Prelude Geometry Points Enhancer Store.
Import String.StringSyntax.
Local Open Scope string_scope.
Local Open Scope nat_scope.

(** The two settings of [@/config] the getters read. *)
Record AppConfig := mkAppConfig {
  minAccuracy : option Q;        (* [config.filters.minAccuracy], [null] is [None] *)
  maxPointDistance : option Q    (* [config.map.maxPointDistance] when it is a number *)
}.

(** The comparison [a < b] of two numbers. *)
Definition Qltb (a b : Q) : bool := negb (Qle_bool b a).

Lemma Qltb_spec a b : Qltb a b = true <-> (a < b)%Q.
Proof.
  unfold Qltb. rewrite negb_true_iff. split.
  - intros H. apply Qnot_le_lt. intros Hle. apply Qle_bool_iff in Hle. congruence.
  - intros H. destruct (Qle_bool b a) eqn:E; [|done]. apply Qle_bool_iff in E. exfalso. apply (Qlt_not_le a b); done.
Qed.

Section Getters.
Context `{M : Metric}.
Variable config : AppConfig.
Variable distanceBetweenCoordinates : Coord -> Coord -> Q.

(** Lines 27-31: a point is kept unless [minAccuracy] is set and
    [location.acc > minAccuracy] ([undefined > m] is false). *)
Definition keepLocation (location : LocationPoint) : bool :=
  match minAccuracy config, acc location with
  | Some m, Some a => negb (Qltb m a)
  | _, _ => true
  end.

Lemma keepLocation_spec p :
  keepLocation p = true <-> forall m a, minAccuracy config = Some m -> acc p = Some a -> (a <= m)%Q.
Proof.
  unfold keepLocation. destruct (minAccuracy config) as [m|], (acc p) as [a|]; split;
    try (intros _; done); try (intros _ ? ? ? ?; congruence).
  - intros H m' a' [= <-] [= <-]. apply negb_true_iff in H.
    apply Qnot_lt_le. intros Hlt. apply Qltb_spec in Hlt. congruence.
  - intros H. destruct (Qltb m a) eqn:E; [|done]. apply Qltb_spec in E.
    exfalso. exact (Qlt_not_le m a E (H m a eq_refl eq_refl)).
Qed.

(** Lines 16-37.  [enhanceLocationData] is called without a clustering
    configuration. *)
Definition filteredLocationHistory (state : State) : option (State * LocationHistory) :=
  '(raw, enhancedLocationHistory) <- enhanceLocationData (locationHistory state)
                                      (mkConfig None None None None);
  Some ({| state with locationHistory := raw |},
        List.map (fun '(user, devices) =>
                    (user, List.map (fun '(device, locations) =>
                                       (device, List.filter keepLocation locations)) devices))
                 enhancedLocationHistory).

(** [L.latLng(location.lat, location.lon)]. *)
Definition latLng (location : LocationPoint) : Coord := coord location.

(** Lines 46-57. *)
Definition filteredLocationHistoryLatLngs (state : State) : option (State * list Coord) :=
  '(state', locationHistory) <- filteredLocationHistory state;
  Some (state', concat (List.map (fun '(_, devices) =>
                           concat (List.map (fun '(_, locations) => List.map latLng locations)
                                            devices)) locationHistory)).

(** Lines 77-81: group splitting is on when [maxPointDistance] is a
    positive number. *)
Definition splitDistance : option Q :=
  match maxPointDistance config with
  | Some d => if Qltb 0 d then Some d else None
  | None => None
  end.

(** Lines 73-94: one point of a device, with the groups already closed
    and the current group [latLngs]. *)
Definition groupStep (acc : list (list Coord) * list Coord) (latLng : Coord)
    : list (list Coord) * list Coord :=
  let '(groups, latLngs) := acc in
  match splitDistance, last latLngs with
  | Some d, Some lastLatLng =>
      if Qltb d (distanceBetweenCoordinates lastLatLng latLng)
      then (groups ++ [latLngs], [latLng])
      else (groups, latLngs ++ [latLng])
  | _, _ => (groups, latLngs ++ [latLng])
  end.

(** Lines 72-95 for one device. *)
Definition deviceGroups (groups : list (list Coord)) (locations : list LocationPoint)
    : list (list Coord) :=
  let '(groups', latLngs) := fold_left groupStep (List.map latLng locations) (groups, []) in
  groups' ++ [latLngs].

(** Lines 67-99. *)
Definition filteredLocationHistoryLatLngGroups (state : State)
    : option (State * list (list Coord)) :=
  '(state', locationHistory) <- filteredLocationHistory state;
  Some (state', fold_left (fun groups '(_, devices) =>
                             fold_left (fun groups '(_, locations) => deviceGroups groups locations)
                                       devices groups)
                          locationHistory []).

End Getters.

(** ** The history getter *)

Section GetterProofs.
Context `{M : Metric}.
Variable config : AppConfig.

(** The accuracy filter applied to every device of a history. *)
Definition accuracyFiltered (h : LocationHistory) : LocationHistory :=
  List.map (fun '(user, devices) =>
              (user, List.map (fun '(device, locations) =>
                                 (device, List.filter (keepLocation config) locations)) devices)) h.

Lemma filteredLocationHistory_eq (state : State) :
  filteredLocationHistory config state =
    Some ({| state with locationHistory := resetHistory (locationHistory state) |},
          accuracyFiltered (resetHistory (locationHistory state))).
Proof. reflexivity. Qed.

(** [C22] The getter never clusters: whatever clustering settings were
    committed to the store (here [SET_CLUSTERING_ENABLED true]), it
    returns the same history as before the commit, in which no point
    carries a visit or travel event, because [enhanceLocationData] is
    called without the store's clustering configuration. *)
Theorem filteredLocationHistory_ignores_clustering (state : State) :
  exists state1 state2 out,
    filteredLocationHistory config state = Some (state1, out) /\
    filteredLocationHistory config (commit state (SET_CLUSTERING_ENABLED true)) = Some (state2, out) /\
    Forall (fun ud => Forall (fun dp => Forall (fun p => node_event_type p = None) (snd dp)) (snd ud)) out.
Proof.
  rewrite !filteredLocationHistory_eq. do 3 eexists. split; [reflexivity|]. split; [reflexivity|].
  unfold accuracyFiltered, resetHistory. rewrite map_map.
  apply List.Forall_forall. intros [u ds] Hin. apply in_map_iff in Hin as ([u' ds'] & [= <- <-] & _).
  rewrite map_map. apply List.Forall_forall. intros [d ps] Hin. apply in_map_iff in Hin as ([d' ps'] & [= <- <-] & _).
  apply List.Forall_forall. intros p Hp. simpl in Hp. apply filter_In in Hp as [Hp _].
  apply in_map_iff in Hp as (q & <- & _). done.
Qed.

(** [C23] The getter writes into the store: after it runs, the store's
    location history has the metadata of every point nulled.  Each device
    of the result keeps, in their order, the store's points (metadata
    nulled) whose accuracy does not exceed [minAccuracy], and only those:
    a point is returned exactly when [minAccuracy] is unset, the point has
    no accuracy, or its accuracy is at most [minAccuracy]. *)
Theorem filteredLocationHistory_accuracy (state : State) :
  exists state' out, filteredLocationHistory config state = Some (state', out) /\
    locationHistory state' = resetHistory (locationHistory state) /\
    clustering state' = clustering state /\
    Forall2 (fun ud ud' => fst ud = fst ud' /\
               Forall2 (fun dp dp' => fst dp = fst dp' /\
                          sublist (snd dp') (List.map resetMetadata (snd dp)) /\
                          forall p, In p (List.map resetMetadata (snd dp)) ->
                            (In p (snd dp') <->
                             forall m a, minAccuracy config = Some m -> acc p = Some a -> (a <= m)%Q))
                       (snd ud) (snd ud'))
            (locationHistory state) out.
Proof.
  rewrite filteredLocationHistory_eq. do 2 eexists. split; [reflexivity|]. split_and!; [done | done |].
  unfold accuracyFiltered, resetHistory. rewrite map_map.
  apply Forall2_fmap_r, Forall_Forall2_diag, Forall_forall. intros [u ds] _. split; [done|]. simpl.
  rewrite map_map. apply Forall2_fmap_r, Forall_Forall2_diag, Forall_forall. intros [d ps] _.
  split; [done|]. split; [apply filter_sublist|]. simpl.
  intros p Hp. rewrite filter_In, <- keepLocation_spec. tauto.
Qed.

End GetterProofs.

(** ** The coordinate groups *)

Section GroupProofs.
Context `{M : Metric}.
Variable config : AppConfig.
Variable distanceBetweenCoordinates : Coord -> Coord -> Q.

Local Abbreviation step := (groupStep config distanceBetweenCoordinates).
Local Abbreviation dist := distanceBetweenCoordinates.

(** Consecutive coordinates of a group are at most [d] apart. *)
Definition coherent (d : Q) (g : list Coord) : Prop :=
  forall i a b, g !! i = Some a -> g !! S i = Some b -> (dist a b <= d)%Q.

Lemma coherent_single d x : coherent d [x].
Proof. intros [|i] a b _ Hb; done. Qed.

Lemma coherent_snoc d g x :
  coherent d g -> (forall l, last g = Some l -> (dist l x <= d)%Q) -> coherent d (g ++ [x]).
Proof.
  intros Hg Hl i a b Ha Hb.
  destruct (decide (S i < length g)) as [Hi|Hi].
  - rewrite lookup_app_l in Ha by lia. rewrite lookup_app_l in Hb by lia. eauto.
  - rewrite lookup_app_r in Hb by lia. destruct (S i - length g) as [|k] eqn:Hk; [|by destruct k].
    injection Hb as <-. rewrite lookup_app_l in Ha by lia.
    apply Hl. rewrite last_lookup. replace (pred (length g)) with i by lia. exact Ha.
Qed.

Lemma groupStep_concat groups latLngs x :
  let '(groups', latLngs') := step (groups, latLngs) x in
  concat groups' ++ latLngs' = concat groups ++ latLngs ++ [x].
Proof.
  unfold groupStep. destruct (splitDistance config) as [d|], (last latLngs) as [l|]; simpl;
    rewrite ?concat_app; simpl; rewrite ?app_nil_r, ?app_assoc; try done.
  destruct (Qltb d (dist l x)); simpl; rewrite ?concat_app; simpl; by rewrite ?app_nil_r, ?app_assoc.
Qed.

Lemma fold_groupStep_concat xs groups latLngs :
  let '(groups', latLngs') := fold_left step xs (groups, latLngs) in
  concat groups' ++ latLngs' = concat groups ++ latLngs ++ xs.
Proof.
  revert groups latLngs. induction xs as [|x xs IH]; intros groups latLngs; cbn [fold_left].
  - by rewrite app_nil_r.
  - pose proof (groupStep_concat groups latLngs x) as H.
    destruct (step (groups, latLngs) x) as [g1 c1]. specialize (IH g1 c1).
    destruct (fold_left step xs (g1, c1)). by rewrite IH, app_assoc, H, <- !app_assoc.
Qed.

Lemma deviceGroups_concat groups locations :
  concat (deviceGroups config distanceBetweenCoordinates groups locations) =
    concat groups ++ List.map latLng locations.
Proof.
  unfold deviceGroups. pose proof (fold_groupStep_concat (List.map latLng locations) groups []) as H.
  destruct (fold_left step _ _) as [g c]. rewrite concat_app. simpl. by rewrite app_nil_r.
Qed.

Lemma groupStep_coherent d groups latLngs x :
  splitDistance config = Some d -> Forall (coherent d) groups -> coherent d latLngs ->
  let '(groups', latLngs') := step (groups, latLngs) x in
  Forall (coherent d) groups' /\ coherent d latLngs'.
Proof.
  intros Hd Hg Hc. unfold groupStep. rewrite Hd.
  destruct (last latLngs) as [l|] eqn:Hl.
  - destruct (Qltb d (dist l x)) eqn:Hlt.
    + split; [apply Forall_app; split; [done | by constructor] | apply coherent_single].
    + split; [done|]. apply coherent_snoc; [done|]. intros l' Hl'. rewrite Hl in Hl'.
      injection Hl' as <-. apply Qnot_lt_le. intros H. apply Qltb_spec in H. congruence.
  - apply last_None in Hl as ->. split; [done | apply coherent_single].
Qed.

Lemma deviceGroups_coherent d groups locations :
  splitDistance config = Some d -> Forall (coherent d) groups ->
  Forall (coherent d) (deviceGroups config distanceBetweenCoordinates groups locations).
Proof.
  intros Hd Hg. unfold deviceGroups.
  assert (H : forall xs g c, Forall (coherent d) g -> coherent d c ->
            let '(g', c') := fold_left step xs (g, c) in Forall (coherent d) g' /\ coherent d c').
  { induction xs as [|x xs IH]; intros g c Hg' Hc; cbn [fold_left]; [done|].
    pose proof (groupStep_coherent d g c x Hd Hg' Hc) as Hs.
    destruct (step (g, c) x) as [g1 c1]. apply IH; apply Hs. }
  specialize (H (List.map latLng locations) groups [] Hg (fun i a b Ha => ltac:(done))).
  destruct (fold_left step _ _) as [g c]. destruct H as [Hg' Hc].
  apply Forall_app. split; [done | by constructor].
Qed.

(** The two nested [forEach] of lines 70-97. *)
Definition allGroups (h : LocationHistory) (groups : list (list Coord)) : list (list Coord) :=
  fold_left (fun groups '(_, devices) =>
               fold_left (fun groups '(_, locations) =>
                            deviceGroups config distanceBetweenCoordinates groups locations)
                         devices groups) h groups.

Lemma allGroups_concat h groups :
  concat (allGroups h groups) =
    concat groups ++ concat (List.map (fun '(_, devices) =>
                               concat (List.map (fun '(_, locations) => List.map latLng locations)
                                                devices)) h).
Proof.
  unfold allGroups. revert groups. induction h as [|[u ds] h IH]; intros groups; cbn [fold_left].
  - simpl. by rewrite app_nil_r.
  - rewrite IH. cbn [List.map concat]. rewrite app_assoc. f_equal.
    clear IH. revert groups. induction ds as [|[d ps] ds IH]; intros groups; cbn [fold_left].
    + simpl. by rewrite app_nil_r.
    + rewrite IH, deviceGroups_concat. cbn [List.map concat]. by rewrite <- !app_assoc.
Qed.

Lemma allGroups_coherent d h groups :
  splitDistance config = Some d -> Forall (coherent d) groups -> Forall (coherent d) (allGroups h groups).
Proof.
  intros Hd. unfold allGroups. revert groups. induction h as [|[u ds] h IH]; intros groups Hg;
    cbn [fold_left]; [done|].
  apply IH. clear IH. revert groups Hg. induction ds as [|[dv ps] ds IH]; intros groups Hg;
    cbn [fold_left]; [done|].
  apply IH, deviceGroups_coherent; done.
Qed.

End GroupProofs.

(** [C24] Splitting the tracks into groups loses and repeats no
    coordinate: read in order, the groups are exactly the coordinates
    returned by [filteredLocationHistoryLatLngs]. *)
Theorem filteredLocationHistoryLatLngGroups_flatten `{M : Metric} (config : AppConfig)
    (distanceBetweenCoordinates : Coord -> Coord -> Q) (state : State) :
  exists state1 state2 groups latLngs,
    filteredLocationHistoryLatLngGroups config distanceBetweenCoordinates state = Some (state1, groups) /\
    filteredLocationHistoryLatLngs config state = Some (state2, latLngs) /\
    concat groups = latLngs.
Proof.
  unfold filteredLocationHistoryLatLngGroups, filteredLocationHistoryLatLngs.
  rewrite filteredLocationHistory_eq. do 4 eexists. split; [reflexivity|]. split; [reflexivity|].
  exact (allGroups_concat config distanceBetweenCoordinates _ []).
Qed.

(** [C25] When group splitting is on with distance [d], two consecutive
    coordinates of a group are never more than [d] apart. *)
Theorem filteredLocationHistoryLatLngGroups_coherent `{M : Metric} (config : AppConfig)
    (distanceBetweenCoordinates : Coord -> Coord -> Q) (state : State) (d : Q) :
  splitDistance config = Some d ->
  exists state' groups,
    filteredLocationHistoryLatLngGroups config distanceBetweenCoordinates state = Some (state', groups) /\
    Forall (coherent distanceBetweenCoordinates d) groups.
Proof.
  intros Hd. unfold filteredLocationHistoryLatLngGroups.
  rewrite filteredLocationHistory_eq. do 2 eexists. split; [reflexivity|].
  exact (allGroups_coherent config distanceBetweenCoordinates d _ [] Hd (List.Forall_nil _)).
Qed.

(** ** A concrete store *)

Definition demo_state : State :=
  mkState false "2.0" [] [] [] demo_history None None "today" "today" (mkMapState (0%Q, 0%Q) 10 []) 0 0 0 None
    (mkConfig None None None None).

(** Distance along the meridian, in degrees. *)
Definition demo_distance (a b : Coord) : Q := Qabs (clat b - clat a).

Lemma filteredLocationHistoryLatLngGroups_coherent_witness :
  exists state' groups,
    @filteredLocationHistoryLatLngGroups PlanarMetric (mkAppConfig None (Some (1/2)%Q)) demo_distance
      demo_state = Some (state', groups) /\
    Forall (coherent demo_distance (1/2)%Q) groups.
Proof. apply filteredLocationHistoryLatLngGroups_coherent. vm_compute. reflexivity. Defined.
