(* ===== verification/Scripts.v ===== *)
(** * The demo and debugging scripts

    [src/public/clustering-demo.js] builds a test history for the browser
    console ([generateTestLocationData]) and the two clustering
    configurations its [testEnabled] and [testDisabled] print, with the
    result each one expects; it never calls the enhancer.
    [src/debug_real_data.js] runs [enhanceLocationData] on 30 recorded
    points and counts the visit and travel points it gets back.

    The data are translated as they are written: [Math.random()] is a
    parameter [random], the [k]-th call returning [random k], and
    [Date.now()] is [baseTime]; the recorder's fields other than
    [lat], [lon], [tst], [acc], [alt] and the four metadata fields are
    passthrough fields the engine only copies.  The theorems check the
    scripts' expectations against the model for every draw and every
    metric: the disabled run returns the generated data untouched, the
    enabled one puts a visit or travel event on every point.  The
    debugging script's full-pipeline run passes no configuration, so it
    takes the disabled path of [enhanceLocationData] and never clusters. *)

From stdpp Require Import base list options.
From Stdlib Require Import ZArith QArith Lia.
From Stdlib Require String.
Import String.StringSyntax.
From S2P Require Import Prelude Geometry Points Materialize Enhancer.
Local Open Scope string_scope.
Local Open Scope Z_scope.

(** ** [clustering-demo.js] *)

(** The object literals of lines 19-25, 30-36 and 41-47: [tst] and
    [timestamp] equal, [acc: 5], no metadata fields. *)
Definition testPoint (la lo : Q) (t : Z) : LocationPoint :=
  mkPoint la lo (Some t) (Some t) (Some 5%Q) None None None None None.

(** Lines 7-52.  The loops draw [Math.random()] for the latitude, then
    the longitude, of each point of the two visits: draws [0..9] at Times
    Square, [10..17] at Central Park. *)
Definition generateTestLocationData (baseTime : Z) (random : nat -> Q) : LocationHistory :=
  let jitter k := ((random k - (1 # 2)) * (1 # 10000))%Q in
  let timesSquare :=
    map (fun i => testPoint ((407589 # 10000) + jitter (2 * i)%nat)%Q
                            ((-739851 # 10000) + jitter (2 * i + 1)%nat)%Q
                            (baseTime + Z.of_nat i * 60000)) (seq 0 5) in
  let travel :=
    map (fun i => testPoint ((407589 # 10000) + inject_Z (Z.of_nat (i + 1)) * (1 # 100))%Q
                            ((-739851 # 10000) + inject_Z (Z.of_nat (i + 1)) * (1 # 100))%Q
                            (baseTime + Z.of_nat (5 + i) * 60000)) (seq 0 3) in
  let centralPark :=
    map (fun i => testPoint ((407829 # 10000) + jitter (10 + 2 * i)%nat)%Q
                            ((-739654 # 10000) + jitter (11 + 2 * i)%nat)%Q
                            (baseTime + Z.of_nat (8 + i) * 60000)) (seq 0 4) in
  [("testUser", [("testDevice", timesSquare ++ travel ++ centralPark)])].

(** Lines 59-64, the configuration of [testEnabled]. *)
Definition testEnabledConfig : ClusteringConfig := mkConfig (Some true) (Some 10%Q) (Some 3%nat) (Some 5%nat).

(** Lines 77-82, the configuration of [testDisabled]. *)
Definition testDisabledConfig : ClusteringConfig := mkConfig (Some false) (Some 10%Q) (Some 3%nat) (Some 5%nat).

(** ** [debug_real_data.js] *)

(** Line 7: the 30 recorded points, all with [null] metadata. *)
Definition realData : list LocationPoint := [
  mkPoint (558766864 # 10000000) (128333159 # 10000000) (Some 1751300522) None (Some (7256999969482422 # 1000000000000000)) (Some 43%Q) None None None None;
  mkPoint (558768547 # 10000000) (128331671 # 10000000) (Some 1751300654) None (Some (475 # 100)) (Some 42%Q) None None None None;
  mkPoint (558750395 # 10000000) (128298282 # 10000000) (Some 1751301508) None (Some (3815000152587891 # 100000000000000)) (Some 45%Q) None None None None;
  mkPoint (558777671 # 10000000) (128337622 # 10000000) (Some 1751301518) None (Some (7271700286865234 # 100000000000000)) (Some 43%Q) None None None None;
  mkPoint (558767888 # 10000000) (128332181 # 10000000) (Some 1751301646) None (Some (3819000005722046 # 1000000000000000)) (Some 39%Q) None None None None;
  mkPoint (558766651 # 10000000) (128332079 # 10000000) (Some 1751301833) None (Some (1286999988555908 # 100000000000000)) (Some 43%Q) None None None None;
  mkPoint (55876662 # 1000000) (128331931 # 10000000) (Some 1751301870) None (Some (1094799995422363 # 100000000000000)) (Some 43%Q) None None None None;
  mkPoint (558766776 # 10000000) (128332084 # 10000000) (Some 1751301911) None (Some (1179100036621094 # 100000000000000)) (Some 43%Q) None None None None;
  mkPoint (558766729 # 10000000) (128332084 # 10000000) (Some 1751303047) None (Some 106%Q) (Some 43%Q) None None None None;
  mkPoint (558766657 # 10000000) (128332055 # 10000000) (Some 1751303346) None (Some (1272799968719482 # 100000000000000)) (Some 43%Q) None None None None;
  mkPoint (558766776 # 10000000) (128332084 # 10000000) (Some 1751304443) None (Some (11425 # 100)) (Some 43%Q) None None None None;
  mkPoint (55876685 # 1000000) (128332004 # 10000000) (Some 1751305051) None (Some 100%Q) (Some 43%Q) None None None None;
  mkPoint (558767778 # 10000000) (128334445 # 10000000) (Some 1751305605) None (Some (2597500038146973 # 100000000000000)) (Some 43%Q) None None None None;
  mkPoint (55876875 # 1000000) (128330749 # 10000000) (Some 1751305620) None (Some (6420000076293945 # 1000000000000000)) (Some 8%Q) None None None None;
  mkPoint (558770245 # 10000000) (128331474 # 10000000) (Some 1751305650) None (Some (23625 # 1000)) (Some 40%Q) None None None None;
  mkPoint (558817579 # 10000000) (128326035 # 10000000) (Some 1751305824) None (Some (9654199981689453 # 100000000000000)) (Some 50%Q) None None None None;
  mkPoint (55876745 # 1000000) (128333918 # 10000000) (Some 1751306318) None (Some 100%Q) (Some 43%Q) None None None None;
  mkPoint (558766576 # 10000000) (128331965 # 10000000) (Some 1751306589) None (Some (1098099994659424 # 100000000000000)) (Some 43%Q) None None None None;
  mkPoint (558766576 # 10000000) (128331965 # 10000000) (Some 1751306978) None (Some (2823099899291992 # 100000000000000)) (Some 43%Q) None None None None;
  mkPoint (558767402 # 10000000) (128333039 # 10000000) (Some 1751308361) None (Some (9336999893188477 # 1000000000000000)) (Some 43%Q) None None None None;
  mkPoint (558716271 # 10000000) (128288255 # 10000000) (Some 1751308920) None (Some (1945 # 10)) (Some 42%Q) None None None None;
  mkPoint (558751071 # 10000000) (128398476 # 10000000) (Some 1751308965) None (Some (29477099609375 # 100000000000)) (Some 42%Q) None None None None;
  mkPoint (558765212 # 10000000) (128400815 # 10000000) (Some 1751309047) None (Some (7075 # 100)) (Some 44%Q) None None None None;
  mkPoint (558772504 # 10000000) (128332371 # 10000000) (Some 1751309226) None (Some (3519400024414062 # 100000000000000)) (Some 42%Q) None None None None;
  mkPoint (558775978 # 10000000) (128331219 # 10000000) (Some 1751309638) None (Some (3925 # 10)) (Some 43%Q) None None None None;
  mkPoint (558766628 # 10000000) (128332062 # 10000000) (Some 1751310576) None (Some (8268499755859375 # 100000000000000)) (Some 43%Q) None None None None;
  mkPoint (558767063 # 10000000) (128332652 # 10000000) (Some 1751311211) None (Some (3800039978027344 # 10000000000000)) (Some 43%Q) None None None None;
  mkPoint (558750371 # 10000000) (12829815 # 1000000) (Some 1751311667) None (Some (825 # 10)) (Some 43%Q) None None None None;
  mkPoint (558766702 # 10000000) (128332104 # 10000000) (Some 1751312586) None (Some (1523049926757812 # 10000000000000)) (Some 43%Q) None None None None;
  mkPoint (558766702 # 10000000) (128332104 # 10000000) (Some 1751312917) None (Some (18475 # 100)) (Some 43%Q) None None None None].

(** Lines 13-17. *)
Definition testHistory : LocationHistory := [("testUser", [("testDevice", realData)])].

(** Line 20 passes no configuration: the default parameter [{}]. *)
Definition defaultConfig : ClusteringConfig := mkConfig None None None None.

(** [p.node_event_type === 'travel'] (line 26). *)
Definition isTravelPoint (p : LocationPoint) : bool := bool_decide (node_event_type p = Some EvTravel).

(** Lines 20-29: the points of [result.testUser.testDevice] and the
    numbers of visit and travel points printed. *)
Definition fullPipeline `{M : Metric} : option (list LocationPoint * nat * nat) :=
  '(_, result) <- enhanceLocationData testHistory defaultConfig;
  devices <- assoc_get "testUser" result;
  processedPoints <- assoc_get "testDevice" devices;
  Some (processedPoints, length (List.filter isVisitPoint processedPoints),
        length (List.filter isTravelPoint processedPoints)).

(** Line 49: [[...realData].sort((a, b) => a.tst - b.tst)]; every point
    of [realData] has a [tst]. *)
Definition sortedData : list LocationPoint := sort_by (fun p => default 0 (tst p)) realData.

(** ** The scripts' expectations *)

Lemma resetHistory_generate baseTime random :
  resetHistory (generateTestLocationData baseTime random) = generateTestLocationData baseTime random.
Proof. reflexivity. Qed.

(** [testDisabled] expects the original data back with [null] metadata:
    [enhanceLocationData] returns the caller's generated history itself,
    unchanged, whatever [Math.random()] and [Date.now()] return. *)
Theorem demo_disabled_returns_input `{M : Metric} baseTime random :
  enhanceLocationData (generateTestLocationData baseTime random) testDisabledConfig =
    Some (generateTestLocationData baseTime random, generateTestLocationData baseTime random).
Proof.
  unfold enhanceLocationData. rewrite bool_decide_eq_false_2 by done.
  by rewrite resetHistory_generate.
Qed.

(** [testEnabled] expects clustering and metadata: [enhanceLocationData]
    succeeds on the generated history, leaves it unchanged, and every
    point it returns is a visit or a travel point. *)
Theorem demo_enabled_events `{M : Metric} baseTime random :
  exists out, enhanceLocationData (generateTestLocationData baseTime random) testEnabledConfig =
    Some (generateTestLocationData baseTime random, out) /\ Forall hasEvent (historyPoints out).
Proof.
  destruct (clusterLocationPoints_run (generateTestLocationData baseTime random) testEnabledConfig)
    as (out & Hc & _).
  assert (H : enhanceLocationData (generateTestLocationData baseTime random) testEnabledConfig =
                Some (generateTestLocationData baseTime random, out)).
  { unfold enhanceLocationData. rewrite bool_decide_eq_true_2 by done.
    by rewrite resetHistory_generate, Hc. }
  exists out. split; [done|]. exact (enhanceLocationData_enabled_events _ testEnabledConfig _ _ eq_refl H).
Qed.

(** The recording is already in capture order: the clustering analysis
    of lines 49-51 runs on [realData] as recorded. *)
Example sortedData_in_order : sortedData = realData.
Proof. vm_compute. reflexivity. Qed.
