(* ===== verification/GeoKey.v ===== *)
(** * The geocoding cache key

    [`${lat.toFixed(4)},${lon.toFixed(4)}`] of [src/src/geocoding.js]
    (lines 18-19 and 357-358).  [Number.prototype.toFixed(4)] prints a
    minus sign for a negative number and then the digits of the integer
    [n] closest to [|x| * 10^4], the larger one on a tie.  The printed
    string is determined by the sign and [n] and determines them, so the
    key is modelled as the pair of these two values per coordinate.  The
    decimal value of [x] is taken exactly (the binary rounding of doubles
    is not modelled) and [|x| < 10^21], where [toFixed] switches to
    exponent notation, holds for coordinates. *)

From stdpp Require Import base list options.
From Stdlib Require Import ZArith QArith Qabs Qround Lia Lqa.
From S2P Require Import Prelude.

(** The string [x.toFixed(4)]: its sign and its digits. *)
Definition toFixed4 (x : Q) : bool * Z :=
  (negb (Qle_bool 0 x), Qfloor (Qabs x * 10000 + (1 # 2))).

Definition CacheKey : Type := (bool * Z) * (bool * Z).

Definition cacheKey (lat lon : Q) : CacheKey := (toFixed4 lat, toFixed4 lon).

#[export] Instance CacheKey_eq_dec : EqDecision CacheKey.
Proof. solve_decision. Defined.

(** ** Properties *)

Lemma toFixed4_digits_bounds (x : Q) :
  (inject_Z (snd (toFixed4 x)) <= Qabs x * 10000 + (1 # 2) < inject_Z (snd (toFixed4 x)) + 1)%Q.
Proof.
  unfold toFixed4. cbn [snd]. split; [apply Qfloor_le|].
  apply Qlt_le_trans with (inject_Z (Qfloor (Qabs x * 10000 + (1 # 2)) + 1)); [apply Qlt_floor|].
  rewrite inject_Z_plus. apply Qle_refl.
Qed.

Lemma toFixed4_sign (x : Q) : fst (toFixed4 x) = true <-> (x < 0)%Q.
Proof.
  unfold toFixed4. cbn [fst]. rewrite negb_true_iff. split.
  - intros H. apply Qnot_le_lt. intros Hle. apply Qle_bool_iff in Hle. congruence.
  - intros H. destruct (Qle_bool 0 x) eqn:E; [|done]. apply Qle_bool_iff in E.
    exfalso. apply (Qlt_not_le x 0); done.
Qed.

(** Two numbers printed alike by [toFixed(4)] differ by less than
    [10^-4]. *)
Lemma toFixed4_close (x y : Q) : toFixed4 x = toFixed4 y -> (Qabs (x - y) < 1 # 10000)%Q.
Proof.
  intros Heq.
  pose proof (toFixed4_digits_bounds x) as [Hx1 Hx2].
  pose proof (toFixed4_digits_bounds y) as [Hy1 Hy2].
  assert (Hd : snd (toFixed4 x) = snd (toFixed4 y)) by (by rewrite Heq).
  assert (Hs : (x < 0)%Q <-> (y < 0)%Q).
  { rewrite <- !toFixed4_sign. by rewrite Heq. }
  rewrite Hd in Hx1, Hx2.
  assert (Habs : (Qabs (Qabs x - Qabs y) < 1 # 10000)%Q).
  { apply Qabs_Qlt_condition. split; nra. }
  destruct (Qlt_le_dec x 0) as [Hxn|Hxp].
  - assert (Hyn : (y < 0)%Q) by (by apply Hs).
    rewrite (Qabs_neg x), (Qabs_neg y) in Habs by lra.
    rewrite Qabs_Qlt_condition in Habs |- *. lra.
  - assert (Hyp : (0 <= y)%Q) by (apply Qnot_lt_le; intros H; apply Hs in H; lra).
    rewrite (Qabs_pos x), (Qabs_pos y) in Habs by lra. exact Habs.
Qed.

(** A positive number below [1/20000] prints the digits [0.0000]. *)
Lemma toFixed4_small (y : Q) : (0 < y)%Q -> (y < 1 # 20000)%Q -> snd (toFixed4 y) = 0%Z.
Proof.
  intros Hy1 Hy2. unfold toFixed4. cbn [snd].
  assert (Hq : (1 # 2 < Qabs y * 10000 + (1 # 2) < 1)%Q) by (rewrite (Qabs_pos y) by lra; lra).
  pose proof (Qfloor_le (Qabs y * 10000 + (1 # 2))) as H1.
  pose proof (Qlt_floor (Qabs y * 10000 + (1 # 2))) as H2.
  set (n := Qfloor _) in *.
  assert (Ha : (n < 1)%Z) by (rewrite Zlt_Qlt; unfold inject_Z at 2; lra).
  assert (Hb : (-1 < n)%Z).
  { rewrite Zlt_Qlt. rewrite inject_Z_plus in H2. unfold inject_Z at 1. unfold inject_Z in H2 at 2. lra. }
  lia.
Qed.

(** [C26] Coordinates that share a cache key are less than [10^-4]
    degrees apart in latitude and in longitude (about 11 m): the cache
    never answers for a point with the name of a distant one. *)
Theorem cacheKey_close (lat1 lon1 lat2 lon2 : Q) :
  cacheKey lat1 lon1 = cacheKey lat2 lon2 ->
  (Qabs (lat1 - lat2) < 1 # 10000)%Q /\ (Qabs (lon1 - lon2) < 1 # 10000)%Q.
Proof. intros H. split; apply toFixed4_close; [exact (f_equal fst H) | exact (f_equal snd H)]. Qed.

Lemma cacheKey_close_witness :
  cacheKey (5932 # 100) (1806 # 100) = cacheKey (593200004 # 10000000) (1806 # 100) /\
  (Qabs ((5932 # 100) - (593200004 # 10000000)) < 1 # 10000)%Q /\
  (Qabs ((1806 # 100) - (1806 # 100)) < 1 # 10000)%Q.
Proof.
  assert (H : cacheKey (5932 # 100) (1806 # 100) = cacheKey (593200004 # 10000000) (1806 # 100))
    by (vm_compute; reflexivity).
  split; [exact H | exact (cacheKey_close _ _ _ _ H)].
Defined.

(** [C27] The key splits at the equator and at the prime meridian: a
    latitude [x] with [0 < x < 1/20000] and its opposite [-x] both print
    the digits [0.0000], but [-x] prints a minus sign, so two points less
    than [10^-4] degrees apart get different keys. *)
Theorem cacheKey_sign_split (x lon : Q) :
  (0 < x)%Q -> (x < 1 # 20000)%Q ->
  snd (toFixed4 x) = 0%Z /\ snd (toFixed4 (- x)) = 0%Z /\ cacheKey x lon <> cacheKey (- x) lon.
Proof.
  intros Hpos Hsmall.
  pose proof toFixed4_small as Hd.
  split; [by apply Hd|]. split.
  - unfold toFixed4. cbn [snd]. rewrite Qabs_opp. by apply (Hd x).
  - intros H. assert (Hs : fst (toFixed4 x) = fst (toFixed4 (- x))) by exact (f_equal (fun k => fst (fst k)) H).
    assert (Hn : fst (toFixed4 (- x)) = true) by (apply toFixed4_sign; lra).
    assert (Hp : fst (toFixed4 x) = false).
    { destruct (fst (toFixed4 x)) eqn:E; [|done]. apply toFixed4_sign in E. lra. }
    rewrite Hs in Hp. congruence.
Qed.

Lemma cacheKey_sign_split_witness :
  snd (toFixed4 (1 # 100000)) = 0%Z /\ snd (toFixed4 (- (1 # 100000))) = 0%Z /\
  cacheKey (1 # 100000) 18 <> cacheKey (- (1 # 100000)) 18.
Proof. apply cacheKey_sign_split; vm_compute; reflexivity. Defined.
