(* ===== verification/GeoName.v ===== *)
(** * Naming a place from a Nominatim answer

    The body of [reverseGeocode] in [src/src/geocoding.js] after the
    answer is parsed (lines 49-309): it picks a point of interest, adds
    the facility it belongs to when the name is only a track or a gate,
    and falls back to the facility, to address components, and to the
    place type.

    A JavaScript string is a sequence of UTF-16 code units; it is
    modelled as a [String.string] whose characters are the code units,
    which covers every string of code units below 256 (ASCII and
    Latin-1).  [toLowerCase], the case-insensitive comparison of the
    [/i] regular expressions, [\s] and [trim] are written out for that
    range.  The JSON answer is a record; [data.address] is an object,
    modelled as an association list from field names to strings (a field
    that is not a string is not modelled). *)

From stdpp Require Import base list options.
From Stdlib Require Import Lia.
From Stdlib Require String Ascii.
Import String.StringSyntax.
From S2P Require Import Prelude.
Local Open Scope string_scope.

Local Abbreviation string := String.string.
Local Abbreviation ascii := Ascii.ascii.

(** ** Characters *)

Definition code (c : ascii) : nat := Ascii.nat_of_ascii c.

Definition isDigit (c : ascii) : bool := (48 <=? code c)%nat && (code c <=? 57)%nat.

(** [toLowerCase] of one code unit below 256: [A-Z] and the Latin-1 capitals 0xC0-0xDE but the sign 0xD7. *)
Definition lowerL1 (c : ascii) : ascii :=
  let n := code c in
  if ((65 <=? n) && (n <=? 90)) || ((192 <=? n) && (n <=? 222) && negb (n =? 215)) then
    Ascii.ascii_of_nat (n + 32)
  else c.

(** [[a-z]] under the [i] flag: an ASCII letter of either case. *)
Definition isLetterCI (c : ascii) : bool := (97 <=? code (lowerL1 c))%nat && (code (lowerL1 c) <=? 122)%nat.

Definition isLower (c : ascii) : bool := (97 <=? code c)%nat && (code c <=? 122)%nat.

(** [\s] and the characters [trim] removes, below 256. *)
Definition isSpace (c : ascii) : bool :=
  let n := code c in ((9 <=? n) && (n <=? 13)) || (n =? 32) || (n =? 160).

(** ** Strings *)

Fixpoint toLowerCase (s : string) : string :=
  match s with
  | String.EmptyString => String.EmptyString
  | String.String c s' => String.String (lowerL1 c) (toLowerCase s')
  end.

(** [p] occurs in [s] ([s.includes(p)]). *)
Fixpoint includes (p s : string) : bool :=
  String.prefix p s ||
  match s with String.EmptyString => false | String.String _ s' => includes p s' end.

Fixpoint dropWhile (f : ascii -> bool) (s : string) : string :=
  match s with
  | String.String c s' => if f c then dropWhile f s' else s
  | String.EmptyString => s
  end.

Definition rev_string (s : string) : string :=
  String.string_of_list_ascii (rev (String.list_ascii_of_string s)).

Definition trim (s : string) : string := rev_string (dropWhile isSpace (rev_string (dropWhile isSpace s))).

(** [s.split(sep)] for a one-character separator. *)
Fixpoint split (sep : ascii) (s : string) : list string :=
  match s with
  | String.EmptyString => [String.EmptyString]
  | String.String c s' =>
      let parts := split sep s' in
      if Ascii.ascii_dec c sep then String.EmptyString :: parts
      else match parts with
           | [] => [String.String c String.EmptyString]
           | w :: ws => String.String c w :: ws
           end
  end.

Definition comma : ascii := Ascii.ascii_of_nat 44.
Definition space : ascii := Ascii.ascii_of_nat 32.

(** The truthiness of an optional string: present and not empty. *)
Definition truthy (o : option string) : bool :=
  match o with Some s => negb (String.eqb s String.EmptyString) | None => false end.

(** [a || b] on optional strings: the first truthy one. *)
Definition orElse (a b : option string) : option string := if truthy a then a else b.

(** ** Regular expressions *)

Definition startsDigit (s : string) : bool :=
  match s with String.String c _ => isDigit c | String.EmptyString => false end.

(** [\d+] followed by the end of the string. *)
Definition digitsToEnd (s : string) : bool :=
  startsDigit s && String.eqb (dropWhile isDigit s) String.EmptyString.

(** [s] starts with [kw] ignoring case. *)
Definition startsWithCI (kw s : string) : bool := String.prefix (toLowerCase kw) (toLowerCase s).

(** [/(station|airport|...)/i] (lines 86, 99 and 108). *)
Definition facilityKeywords : list string :=
  ["station"; "airport"; "mall"; "center"; "centre"; "terminal"; "bahnhof"; "flygplats";
   "centrum"; "hauptbahnhof"].

Definition isFacility (s : string) : bool :=
  existsb (fun kw => includes (toLowerCase kw) (toLowerCase s)) facilityKeywords.

(** Lines 130-133: a house number or a code such as [12], [2G], [A2] or
    [2/3]. *)
Definition isCode (s : string) : bool :=
  digitsToEnd s ||
  (startsDigit s && match dropWhile isDigit s with
                    | String.String c String.EmptyString => isLetterCI c
                    | _ => false end) ||
  match s with String.String c r => isLetterCI c && digitsToEnd r | _ => false end ||
  (startsDigit s && match dropWhile isDigit s with
                    | String.String c r => Ascii.eqb c (Ascii.ascii_of_nat 47) && digitsToEnd r
                    | _ => false end).

(** [/^(yes|no|true|false|\d+)$/i] (lines 209-228). *)
Definition isPlaceholder (s : string) : bool :=
  existsb (String.eqb (toLowerCase s)) ["yes"; "no"; "true"; "false"] || digitsToEnd s.

(** The code units of the letters a and A with a ring above (0xE5 and
    0xC5), and the keyword of line 158, whose source text is the UTF-8
    encoding of that small letter (the bytes 0xC3 0xA5) read as two
    characters. *)
Definition a_ring : ascii := Ascii.ascii_of_nat 229.
Definition A_ring : ascii := Ascii.ascii_of_nat 197.
Definition spar_source : string :=
  String.append "sp" (String.String (Ascii.ascii_of_nat 195) (String.String (Ascii.ascii_of_nat 165) "r")).

(** The shapes of the [specificPatterns] of lines 156-165. *)
Inductive Pattern :=
| KeywordDigits (kws : list string)   (* [/^(kw|...)\s*\d+/i] *)
| DigitsLetter                         (* [/^\d+[a-z]?$/] *)
| KeywordAlnum (kws : list string).   (* [/^(kw|...)\s*[a-z0-9]/i] *)

Definition afterKeyword (kw s : string) : string :=
  dropWhile isSpace (String.substring (String.length kw) (String.length s) s).

Definition testPattern (p : Pattern) (s : string) : bool :=
  match p with
  | KeywordDigits kws => existsb (fun kw => startsWithCI kw s && startsDigit (afterKeyword kw s)) kws
  | DigitsLetter =>
      startsDigit s && match dropWhile isDigit s with
                       | String.EmptyString => true
                       | String.String c String.EmptyString => isLower c
                       | _ => false end
  | KeywordAlnum kws =>
      existsb (fun kw => startsWithCI kw s &&
                 match afterKeyword kw s with
                 | String.String c _ => isLetterCI c || isDigit c
                 | String.EmptyString => false end) kws
  end.

Definition specificPatterns : list Pattern :=
  [KeywordDigits ["track"; "platform"; "gate"; "terminal"; "pier"; "dock"; "bay"; "stand"];
   KeywordDigits [spar_source; "plattform"; "terminal"; "gate"];
   KeywordDigits ["gleis"; "bahnsteig"];
   KeywordDigits ["voie"; "quai"];
   KeywordDigits ["level"];
   KeywordDigits ["floor"];
   DigitsLetter;
   KeywordAlnum ["terminal"; "hall"; "wing"; "section"]].

(** Lines 167-169. *)
Definition isSpecificLocation (s : string) : bool :=
  existsb (fun p => testPattern p s) specificPatterns.

(** ** The answer *)

(** [data.address], a JSON object of strings. *)
Definition Address : Type := list (string * string).

Definition get (addr : Address) (k : string) : option string := assoc_get k addr.

(** The parsed answer: [data.address], [data.namedetails?.name],
    [data.display_name], [data.type], [data.class], and whether
    [data.error] is truthy. *)
Record Response := mkResponse {
  address : option Address;
  namedetailsName : option string;
  display_name : option string;
  rtype : option string;
  rclass : option string;
  rerror : bool
}.

(** ** The name, step by step *)

(** Lines 71-80. *)
Definition facilityFields : list string :=
  ["building"; "public_building"; "amenity"; "railway"; "aeroway"; "leisure"; "tourism"; "man_made"].

Definition facilityName (o : option string) : bool :=
  match o with Some s => truthy o && isFacility s | None => false end.

(** The first candidate that names a facility (the loops of lines 82-92
    and 105-114). *)
Fixpoint firstFacility (fs : list (option string)) : option string :=
  match fs with
  | [] => None
  | f :: fs' => if facilityName f then f else firstFacility fs'
  end.

(** Lines 66-117: [mainFacilityName]. *)
Definition mainFacilityName (data : Response) : option string :=
  match address data with
  | None => None
  | Some addr =>
      match firstFacility (map (get addr) facilityFields) with
      | Some f => Some f
      | None =>
          if facilityName (namedetailsName data) then namedetailsName data
          else match display_name data with
               | Some dn =>
                   if truthy (Some dn)
                   then firstFacility (map (fun p => Some (trim p)) (take 3 (split comma dn)))
                   else None
               | None => None
               end
      end
  end.

(** Lines 122-138: the first part of [display_name] unless it is a code. *)
Definition firstPartName (dn : string) : option string :=
  let firstPart := trim (hd String.EmptyString (split comma dn)) in
  if truthy (Some firstPart) && negb (isCode firstPart) then Some firstPart else None.

(** Lines 119-138: the point of interest. *)
Definition poiName (data : Response) : option string :=
  if truthy (namedetailsName data) then namedetailsName data
  else match display_name data with
       | Some dn => if truthy (Some dn) then firstPartName dn else None
       | None => None
       end.

(** [ctx.toLowerCase() !== name.toLowerCase() &&
    !name.toLowerCase().includes(ctx.toLowerCase().split(" ")[0])]. *)
Definition notIncluded (ctx name : string) : bool :=
  negb (String.eqb (toLowerCase ctx) (toLowerCase name)) &&
  negb (includes (hd String.EmptyString (split space (toLowerCase ctx))) (toLowerCase name)).

(** Lines 171-198: the facility, the building or the area, whichever
    comes first and is not already part of the name. *)
Definition contextFor (name : string) (mf bc ac : option string) : option string :=
  let fits o := match o with Some c => truthy o && notIncluded c name | None => false end in
  if fits mf then mf else if fits bc then bc else if fits ac then ac else None.

(** Lines 207-232: an amenity, building, shop, leisure or tourism value
    that is not a placeholder. *)
Fixpoint firstNamed (addr : Address) (keys : list string) : option string :=
  match keys with
  | [] => None
  | k :: ks =>
      match get addr k with
      | Some v => if truthy (Some v) && negb (isPlaceholder v) then Some v else firstNamed addr ks
      | None => firstNamed addr ks
      end
  end.

(** Lines 140-233: the context of a specific name, then the facility and
    the address components as the name; returns the name and the
    context. *)
Definition addressStage (addr : Address) (mf ln : option string) : option string * option string :=
  let bc := orElse (get addr "building") (orElse (get addr "public_building") (get addr "amenity")) in
  let ac := orElse (get addr "aeroway") (orElse (get addr "railway")
              (orElse (get addr "leisure") (get addr "tourism"))) in
  let ctx := match ln with
             | Some l => if truthy ln && (truthy bc || truthy ac || truthy mf) && isSpecificLocation l
                         then contextFor l mf bc ac else None
             | None => None
             end in
  let ln := if negb (truthy ln) && truthy mf then mf else ln in
  let ln := if negb (truthy ln) then
              match firstNamed addr ["amenity"; "building"; "shop"; "leisure"; "tourism"] with
              | Some n => Some n
              | None => ln
              end
            else ln in
  (ln, ctx).

(** Lines 235-238. *)
Definition withContext (ln ctx : option string) : option string :=
  match ln, ctx with
  | Some l, Some c => if truthy ln && truthy ctx then Some (String.append c (String.append ", " l)) else ln
  | _, _ => ln
  end.

(** Lines 247-254: the road, else the pedestrian way, else the path. *)
Definition streetPart (addr : Address) : list string :=
  let street := orElse (get addr "road") (orElse (get addr "pedestrian") (get addr "path")) in
  match street with
  | Some r => if truthy street then [r] else []
  | None => []
  end.

(** Lines 256-259: the house number before the street. *)
Definition withHouseNumber (addr : Address) (parts : list string) : list string :=
  match parts, get addr "house_number" with
  | r :: rest, Some h => if truthy (Some h) then String.append h (String.append " " r) :: rest else parts
  | _, _ => parts
  end.

(** Lines 261-269: the neighbourhood, else the suburb, else the city
    district. *)
Definition withLocality (addr : Address) (parts : list string) : list string :=
  let area := orElse (get addr "neighbourhood") (orElse (get addr "suburb") (get addr "city_district")) in
  match area with
  | Some a => if truthy area then app parts [a] else parts
  | None => parts
  end.

(** [addressParts.some(part => part.toLowerCase().includes(v.toLowerCase()))]. *)
Definition mentioned (v : string) (parts : list string) : bool :=
  existsb (fun part => includes (toLowerCase v) (toLowerCase part)) parts.

(** One branch of lines 271-293: add the value of [k] unless a part
    mentions it, else try the next branch. *)
Definition addPlace (addr : Address) (parts : list string) (k : string) (rest : list string) : list string :=
  match get addr k with
  | Some v => if truthy (Some v) && negb (mentioned v parts) then app parts [v] else rest
  | None => rest
  end.

(** Lines 271-293: the city, else the town, else the village. *)
Definition withPlace (addr : Address) (parts : list string) : list string :=
  addPlace addr parts "city" (addPlace addr parts "town" (addPlace addr parts "village" parts)).

(** Lines 244-293: [addressParts]. *)
Definition addressParts (addr : Address) : list string :=
  withPlace addr (withLocality addr (withHouseNumber addr (streetPart addr))).

(** Lines 240-300: the address as the name. *)
Definition addressName (addr : Address) : option string :=
  let parts := addressParts addr in
  match parts with
  | [] => None
  | _ => Some (String.concat ", " (take 3 parts))
  end.

(** Lines 302-305: the place type as the last resort. *)
Definition typeName (data : Response) : option string :=
  match rtype data, rclass data with
  | Some t, Some c =>
      if truthy (rtype data) && truthy (rclass data)
      then Some (String.append t (String.append " (" (String.append c ")"))) else None
  | _, _ => None
  end.

(** Lines 45-54 and 56-309: the name [reverseGeocode] caches and returns
    for a parsed answer ([None] for a [null] answer). *)
Definition nameOf (answer : option Response) : option string :=
  match answer with
  | None => None
  | Some data =>
      if rerror data then None
      else
        let mf := mainFacilityName data in
        let '(ln, ctx) := match address data with
                          | Some addr => addressStage addr mf (poiName data)
                          | None => (poiName data, None)
                          end in
        let ln := withContext ln ctx in
        let fromAddress := match address data with Some addr => addressName addr | None => None end in
        let ln := if negb (truthy ln) then match fromAddress with Some n => Some n | None => ln end else ln in
        if negb (truthy ln) then match typeName data with Some n => Some n | None => ln end else ln
  end.

(** ** Properties *)

(** What [locationName] holds: [null] or a non-empty string. *)
Definition nameLike (o : option string) : Prop := o = None \/ truthy o = true.

Lemma truthy_nameLike o : truthy o = true -> nameLike o.
Proof. by right. Qed.

Lemma truthy_append_cons (c s : string) (x : ascii) : truthy (Some (String.append c (String.String x s))) = true.
Proof. by destruct c. Qed.

Lemma truthy_Some_iff (s : string) : truthy (Some s) = true <-> s <> String.EmptyString.
Proof. destruct s; simpl; split; done. Qed.

Lemma facilityName_truthy o : facilityName o = true -> truthy o = true.
Proof. destruct o; simpl; [by intros [-> _]%andb_prop | done]. Qed.

Lemma firstFacility_nameLike fs : nameLike (firstFacility fs).
Proof.
  induction fs as [|f fs IH]; simpl; [by left|].
  destruct (facilityName f) eqn:E; [|done]. right. by apply facilityName_truthy.
Qed.

Lemma mainFacilityName_nameLike data : nameLike (mainFacilityName data).
Proof.
  unfold mainFacilityName. destruct (address data); [|by left].
  pose proof (firstFacility_nameLike (map (get a) facilityFields)) as H.
  destruct (firstFacility _) as [f|]; [exact H|].
  destruct (facilityName (namedetailsName data)) eqn:E.
  - right. by apply facilityName_truthy.
  - destruct (display_name data); [|by left]. destruct (truthy _); [apply firstFacility_nameLike | by left].
Qed.

Lemma firstPartName_nameLike dn : nameLike (firstPartName dn).
Proof. unfold firstPartName. case_match eqn:F; [right; by apply andb_prop in F as [F _] | by left]. Qed.

Lemma poiName_nameLike data : nameLike (poiName data).
Proof.
  unfold poiName. destruct (truthy (namedetailsName data)) eqn:E; [by right|].
  destruct (display_name data) as [dn|]; [|by left].
  destruct (truthy (Some dn)); [apply firstPartName_nameLike | by left].
Qed.

Lemma firstNamed_nameLike addr keys : nameLike (firstNamed addr keys).
Proof.
  induction keys as [|k ks IH]; simpl; [by left|].
  destruct (get addr k); [|done]. destruct (_ && _) eqn:E; [|done]. right. by apply andb_prop in E as [E _].
Qed.

Lemma addressStage_nameLike addr mf ln :
  nameLike mf -> nameLike ln -> nameLike (fst (addressStage addr mf ln)).
Proof.
  intros Hm Hl. unfold addressStage. cbn [fst].
  set (ln1 := if negb (truthy ln) && truthy mf then mf else ln).
  assert (H1 : nameLike ln1) by (unfold ln1; destruct (_ && _); assumption).
  destruct (negb (truthy ln1)); [|exact H1].
  pose proof (firstNamed_nameLike addr ["amenity"; "building"; "shop"; "leisure"; "tourism"]) as H2.
  destruct (firstNamed _ _); [exact H2 | exact H1].
Qed.

Lemma withContext_nameLike ln ctx : nameLike ln -> nameLike (withContext ln ctx).
Proof.
  intros H. unfold withContext. destruct ln, ctx; try exact H. destruct (_ && _); [|exact H].
  right. apply truthy_append_cons.
Qed.

Section Parts.
Variable addr : Address.
Let good (parts : list string) : Prop := Forall (fun p => truthy (Some p) = true) parts.

Lemma streetPart_good : good (streetPart addr).
Proof.
  unfold streetPart. destruct (orElse _ _) as [r|]; [|constructor].
  destruct (truthy (Some r)) eqn:E; repeat constructor; done.
Qed.

Lemma withHouseNumber_good parts : good parts -> good (withHouseNumber addr parts).
Proof.
  intros H. unfold withHouseNumber. destruct parts as [|r rest]; [exact H|].
  destruct (get addr "house_number") as [h|]; [|exact H]. destruct (truthy (Some h)); [|exact H].
  constructor; [apply truthy_append_cons | by inversion H].
Qed.

Lemma withLocality_good parts : good parts -> good (withLocality addr parts).
Proof.
  intros H. unfold withLocality. destruct (orElse _ _) as [a|]; [|exact H].
  destruct (truthy (Some a)) eqn:E; [|exact H]. apply Forall_app; split; [exact H | by repeat constructor].
Qed.

Lemma addPlace_good parts k rest : good parts -> good rest -> good (addPlace addr parts k rest).
Proof.
  intros H Hr. unfold addPlace. destruct (get addr k) as [v|]; [|exact Hr].
  destruct (_ && _) eqn:E; [|exact Hr]. apply andb_prop in E as [E _].
  apply Forall_app; split; [exact H | by repeat constructor].
Qed.

Lemma addressParts_truthy : good (addressParts addr).
Proof.
  unfold addressParts, withPlace.
  pose proof (withLocality_good _ (withHouseNumber_good _ streetPart_good)) as H.
  by repeat apply addPlace_good.
Qed.

End Parts.

(** [parts.join(", ")] of non-empty parts, at least one, is not empty. *)
Lemma concat_truthy (parts : list string) :
  parts <> [] -> Forall (fun p => truthy (Some p) = true) parts ->
  truthy (Some (String.concat ", " parts)) = true.
Proof.
  destruct parts as [|p [|q ps]]; intros Hn Hf; [done | by inversion Hf|]. simpl. apply truthy_append_cons.
Qed.

Lemma addressName_nameLike addr : nameLike (addressName addr).
Proof.
  unfold addressName. pose proof (addressParts_truthy addr) as H.
  destruct (addressParts addr) as [|p ps] eqn:E; [by left|]. right. apply concat_truthy.
  - destruct ps; simpl; done.
  - by apply Forall_take.
Qed.

Lemma typeName_nameLike data : nameLike (typeName data).
Proof.
  unfold typeName. destruct (rtype data), (rclass data); try (by left).
  destruct (_ && _); [right; apply truthy_append_cons | by left].
Qed.

(** A fallback replaces a falsy name with a name or leaves it. *)
Lemma fallback_nameLike (ln fb : option string) :
  nameLike ln -> nameLike fb ->
  nameLike (if negb (truthy ln) then match fb with Some n => Some n | None => ln end else ln).
Proof. intros Hl Hf. destruct (negb (truthy ln)); [|exact Hl]. by destruct fb. Qed.

Lemma digit_not_space (c : ascii) : isDigit c = true -> isSpace c = false.
Proof. destruct c as [[] [] [] [] [] [] [] []]; by vm_compute. Qed.

(** [C35] The Swedish keyword of line 158 never matches: its source text
    is the UTF-8 encoding of the word for track (s, p, a with a ring, r)
    read as five characters ([spar_source]), so a name such as that word
    followed by [2] is never taken for a part of a station and gets no
    context, while [Plattform 2] does. *)
Theorem spar_never_specific (rest : string) (d : ascii) (rest' : string) :
  isDigit d = true ->
  isSpecificLocation (String.append "sp" (String.String a_ring rest)) = false /\
  isSpecificLocation (String.append "Sp" (String.String A_ring rest)) = false /\
  isSpecificLocation (String.append "Plattform " (String.String d rest')) = true.
Proof.
  intros Hd. split_and!; [reflexivity | reflexivity|].
  unfold isSpecificLocation. simpl. unfold afterKeyword. simpl. rewrite (digit_not_space d Hd). cbn [startsDigit]. by rewrite Hd.
Qed.

Lemma spar_never_specific_witness :
  isSpecificLocation (String.append "sp" (String.String a_ring "r 2")) = false /\
  isSpecificLocation (String.append "Sp" (String.String A_ring "r 2")) = false /\
  isSpecificLocation (String.append "Plattform " (String.String (Ascii.ascii_of_nat 50) String.EmptyString)) = true.
Proof. apply spar_never_specific. reflexivity. Defined.

(** [C36] The name [reverseGeocode] caches and returns is [null] or a
    non-empty string: every branch that sets [locationName] checks the
    value it takes, so a cached name is never the empty string. *)
Theorem nameOf_nonempty (answer : option Response) :
  nameOf answer = None \/ exists s, nameOf answer = Some s /\ s <> String.EmptyString.
Proof.
  assert (H : nameLike (nameOf answer)).
  { destruct answer as [data|]; [|by left]. simpl. destruct (rerror data); [by left|].
    pose proof (poiName_nameLike data) as Hp.
    assert (Hs : nameLike (fst (match address data with
                                | Some addr => addressStage addr (mainFacilityName data) (poiName data)
                                | None => (poiName data, None) end))).
    { destruct (address data); [apply addressStage_nameLike, Hp; apply mainFacilityName_nameLike | exact Hp]. }
    destruct (match address data with Some _ => _ | None => _ end) as [ln ctx].
    apply fallback_nameLike; [|apply typeName_nameLike].
    apply fallback_nameLike; [by apply withContext_nameLike|].
    destruct (address data); [apply addressName_nameLike | by left]. }
  destruct H as [H|H]; [by left|]. right. destruct (nameOf answer) as [s|]; [|done].
  exists s. split; [done|]. by apply truthy_Some_iff.
Qed.
