(* ===== verification/GeoQueue.v ===== *)
(** * The rate-limited geocoding client

    [reverseGeocodeWithRateLimit] and [processRequestQueue] of
    [src/src/geocoding.js] (lines 320-580) and the cache operations (lines
    6, 585-597), as a state machine over the module-level variables.

    The code is asynchronous.  Between two [await]s a JavaScript function
    runs without interruption, so the model has one transition per
    macrotask that can resume it: a call of [reverseGeocodeWithRateLimit]
    (its body and the promise executor run synchronously, and so does
    [processRequestQueue] up to its first [await]), the rate-limit timer
    of line 478, the completion of a [reverseGeocode] call, the 15-second
    timer of line 487 winning the race, the 30-second timer of line 369,
    and [clearGeoccodingCache].  Each event carries the time [Date.now()]
    returns while it runs.  [processRequestQueue] suspended at one of its
    two [await]s is the [suspension] of the state; its loop between them
    is [runLoop].

    [reverseGeocode] (lines 16-318) catches every error and answers
    [null] for it, so its completion carries [Some name] or [None]; the
    name it computes from the Nominatim reply is [GeoName.nameOf].  Each
    caller's promise is identified by a number; [settled] records, in
    order, the outcome of each promise the first time it settles (later
    resolutions are ignored, as for a JavaScript promise).  [requestTimes]
    is ghost state: the times at which [lastRequestTime] was set.

    The invariants [QInv] and [Inv] hold in every [reachable] state
    ([reachable_Inv]); [PromiseInv] (a pending caller has an armed timer)
    too ([reachable_PromiseInv]), through the relation [kept] that every
    operation but a new call satisfies.  The properties C28-C34 follow,
    with witnesses on two concrete runs, [demo_events] and
    [breaker_events]. *)

From stdpp Require Import base list options.
From Stdlib Require Import ZArith QArith Lia.
From Stdlib Require String.
Import String.StringSyntax.
From S2P Require Import Prelude GeoKey.
Local Open Scope Z_scope.

Definition MIN_REQUEST_INTERVAL : Z := 500.
Definition MAX_QUEUE_SIZE : nat := 20.
Definition MAX_CONSECUTIVE_ERRORS : nat := 3.
Definition CIRCUIT_BREAKER_RESET_TIME : Z := 300000.
Definition maxProcessingAttempts : nat := 50.
Definition REQUEST_TIMEOUT : Z := 15000.
Definition CALL_TIMEOUT : Z := 30000.

(** Why a promise is rejected: the [Error] messages of the code. *)
Inductive Reason :=
| QueueFull           (* "Geocoding queue is full", line 402 *)
| CircuitBreakerOpen  (* "Circuit breaker open", line 521 *)
| ProcessingLimit     (* "Processing limit reached", line 551 *)
| RequestTimeout      (* "Request timeout", line 487 *)
| GeocodingTimeout.   (* "Geocoding request timeout", line 370 *)

Inductive Outcome :=
| Resolved (name : option String.string)
| Rejected (reason : Reason).

(** A queued request (lines 407-412): the callers waiting for it. *)
Record Request := mkRequest {
  rlat : Q;
  rlon : Q;
  rkey : CacheKey;
  callbacks : list nat
}.

(** Where [processRequestQueue] is suspended. *)
Inductive Suspension :=
| Idle
| Sleeping (request : Request) (processedCount : nat) (wakeAt : Z)     (* line 478 *)
| Racing (request : Request) (processedCount : nat) (fetchId : nat) (startedAt : Z).  (* line 490 *)

Record GState := mkGState {
  geocodingCache : list (CacheKey * option String.string);
  requestQueue : list Request;
  isProcessingQueue : bool;
  suspension : Suspension;
  lastRequestTime : Z;
  consecutiveErrors : nat;
  circuitBreakerOpen : bool;
  lastErrorTime : Z;
  pendingFetches : list (nat * CacheKey);   (* [reverseGeocode] calls not yet completed *)
  nextFetchId : nat;
  timers : list (nat * Z);                  (* armed 30-second timers and their deadlines *)
  settled : list (nat * Outcome);
  callers : list nat;                       (* promise ids used so far *)
  clock : Z;
  requestTimes : list Z                     (* ghost: the values given to [lastRequestTime] *)
}.

(** The module's initial state (lines 6, 324-339). *)
Definition initialState : GState :=
  mkGState [] [] false Idle 0 0 false 0 [] 0 [] [] [] 0 [].

Inductive Event :=
| Call (id : nat) (lat lon : Q) (now : Z)
| Wake (now : Z)
| FetchDone (fetchId : nat) (name : option String.string) (now : Z)
| RaceTimeout (now : Z)
| CallTimeout (id : nat) (now : Z)
| ClearCache (now : Z).

(** ** Promises *)

Definition clearTimer (id : nat) (ts : list (nat * Z)) : list (nat * Z) :=
  List.filter (fun t => negb (Nat.eqb (fst t) id)) ts.

Definition isSettled (id : nat) (st : GState) : bool :=
  existsb (fun p => Nat.eqb (fst p) id) (settled st).

(** [wrappedResolve]/[wrappedReject] (lines 373-381): clear the timer and
    settle the promise unless it has already settled. *)
Definition settle (id : nat) (o : Outcome) (st : GState) : GState :=
  let st := {| st with timers := clearTimer id (timers st) |} in
  if isSettled id st then st else {| st with settled := settled st ++ [(id, o)] |}.

(** [callbacks.forEach(cb => cb.resolve(result))] and the like. *)
Definition settleAll (ids : list nat) (o : Outcome) (st : GState) : GState :=
  fold_left (fun st id => settle id o st) ids st.

(** ** [processRequestQueue] *)

(** Lines 543-559, after the loop. *)
Definition finishLoop (processedCount : nat) (st : GState) : GState :=
  let st :=
    if (maxProcessingAttempts <=? processedCount)%nat then
      settleAll (concat (map callbacks (requestQueue st))) (Rejected ProcessingLimit)
        {| st with requestQueue := [] |}
    else st in
  {| st with isProcessingQueue := false; suspension := Idle |}.

(** Lines 481-490 when the cache has no entry: set [lastRequestTime],
    call [reverseGeocode] and wait for the race. *)
Definition launch (request : Request) (processedCount : nat) (now : Z) (st : GState) : GState :=
  {| st with lastRequestTime := now;
             requestTimes := requestTimes st ++ [now];
             pendingFetches := pendingFetches st ++ [(nextFetchId st, rkey request)];
             nextFetchId := S (nextFetchId st);
             suspension := Racing request processedCount (nextFetchId st) now |}.

(** The [while] loop of lines 446-541 from its condition, on the queue
    [q] (the state's queue); it runs until an [await] or the end. *)
Fixpoint runLoop (q : list Request) (processedCount : nat) (now : Z) (st : GState) : GState :=
  match q with
  | request :: rest =>
      if (processedCount <? maxProcessingAttempts)%nat then
        let st := {| st with requestQueue := rest |} in
        let processedCount := S processedCount in
        match assoc_get (rkey request) (geocodingCache st) with
        | Some result =>
            runLoop rest processedCount now (settleAll (callbacks request) (Resolved result) st)
        | None =>
            if now - lastRequestTime st <? MIN_REQUEST_INTERVAL then
              {| st with suspension := Sleeping request processedCount
                                         (lastRequestTime st + MIN_REQUEST_INTERVAL) |}
            else launch request processedCount now st
        end
      else finishLoop processedCount st
  | [] => finishLoop processedCount st
  end.

(** Lines 492-502 and the loop that follows: the race resolved with
    [result]. *)
Definition onSuccess (request : Request) (processedCount : nat) (result : option String.string)
    (now : Z) (st : GState) : GState :=
  let st := settleAll (callbacks request) (Resolved result) {| st with consecutiveErrors := 0%nat |} in
  runLoop (requestQueue st) processedCount now st.

(** Lines 503-540: the race rejected with [Request timeout]. *)
Definition onError (request : Request) (processedCount : nat) (now : Z) (st : GState) : GState :=
  let st := {| st with consecutiveErrors := S (consecutiveErrors st); lastErrorTime := now |} in
  if (MAX_CONSECUTIVE_ERRORS <=? consecutiveErrors st)%nat then
    let st := settleAll (concat (map callbacks (requestQueue st))) (Rejected CircuitBreakerOpen)
                {| st with circuitBreakerOpen := true; requestQueue := [] |} in
    finishLoop processedCount st
  else
    let st := settleAll (callbacks request) (Rejected RequestTimeout) st in
    runLoop (requestQueue st) processedCount now st.

(** Lines 432-441: start the processor unless it runs or the queue is
    empty. *)
Definition processRequestQueue (now : Z) (st : GState) : GState :=
  if isProcessingQueue st then st
  else match requestQueue st with
       | [] => st
       | _ => runLoop (requestQueue st) 0 now {| st with isProcessingQueue := true |}
       end.

(** ** [reverseGeocodeWithRateLimit] (lines 341-430) *)

(** [requestQueue.find(req => req.cacheKey === key)] followed by
    [existingRequest.callbacks.push(...)]. *)
Fixpoint addCallback (key : CacheKey) (id : nat) (q : list Request) : option (list Request) :=
  match q with
  | [] => None
  | r :: rest =>
      if decide (rkey r = key) then Some (mkRequest (rlat r) (rlon r) (rkey r) (callbacks r ++ [id]) :: rest)
      else r' <- addCallback key id rest; Some (r :: r')
  end.

(** Lines 367-429: the promise executor, after the cache missed. *)
Definition enqueue (id : nat) (lat lon : Q) (key : CacheKey) (now : Z) (st : GState) : GState :=
  let st := {| st with timers := timers st ++ [(id, now + CALL_TIMEOUT)] |} in
  match addCallback key id (requestQueue st) with
  | Some q => {| st with requestQueue := q |}
  | None =>
      if (MAX_QUEUE_SIZE <=? length (requestQueue st))%nat then settle id (Rejected QueueFull) st
      else processRequestQueue now
             {| st with requestQueue := requestQueue st ++ [mkRequest lat lon key [id]] |}
  end.

Definition reverseGeocodeWithRateLimit (id : nat) (lat lon : Q) (now : Z) (st : GState) : GState :=
  let st := {| st with callers := callers st ++ [id] |} in
  if circuitBreakerOpen st && (now - lastErrorTime st <? CIRCUIT_BREAKER_RESET_TIME) then
    settle id (Resolved None) st
  else
    let st := if circuitBreakerOpen st
              then {| st with circuitBreakerOpen := false; consecutiveErrors := 0%nat |} else st in
    let key := cacheKey lat lon in
    match assoc_get key (geocodingCache st) with
    | Some result => settle id (Resolved result) st
    | None => enqueue id lat lon key now st
    end.

(** ** Events *)

(** Lines 585-587: [geocodingCache.clear()]. *)
Definition clearGeoccodingCache (st : GState) : GState := {| st with geocodingCache := [] |}.

Definition removeFetch (fid : nat) (l : list (nat * CacheKey)) : list (nat * CacheKey) :=
  List.filter (fun f => negb (Nat.eqb (fst f) fid)) l.

(** One macrotask; [None] when the event cannot happen in this state
    (time going backwards, a timer that is not armed or not due, a
    completion of no pending call, a promise id used twice). *)
Definition step (st : GState) (e : Event) : option GState :=
  match e with
  | Call id lat lon now =>
      if (now <? clock st) || existsb (Nat.eqb id) (callers st) then None
      else Some (reverseGeocodeWithRateLimit id lat lon now {| st with clock := now |})
  | Wake now =>
      match suspension st with
      | Sleeping request count wakeAt =>
          if (now <? clock st) || (now <? wakeAt) then None
          else
            let st := {| st with clock := now |} in
            (* [reverseGeocode] answers from the cache without a fetch (line 22) *)
            match assoc_get (rkey request) (geocodingCache st) with
            | Some cached =>
                Some (onSuccess request count cached now
                        {| st with lastRequestTime := now; requestTimes := requestTimes st ++ [now] |})
            | None => Some (launch request count now st)
            end
      | _ => None
      end
  | FetchDone fid name now =>
      if now <? clock st then None
      else match find (fun f => Nat.eqb (fst f) fid) (pendingFetches st) with
           | None => None
           | Some (_, key) =>
               (* lines 52-53, 308 and 315: [reverseGeocode] caches its answer *)
               let st := {| st with clock := now;
                                    geocodingCache := assoc_set key name (geocodingCache st);
                                    pendingFetches := removeFetch fid (pendingFetches st) |} in
               match suspension st with
               | Racing request count fid' _ =>
                   if Nat.eqb fid fid' then Some (onSuccess request count name now st) else Some st
               | _ => Some st
               end
           end
  | RaceTimeout now =>
      match suspension st with
      | Racing request count _ startedAt =>
          if (now <? clock st) || (now <? startedAt + REQUEST_TIMEOUT) then None
          else Some (onError request count now {| st with clock := now |})
      | _ => None
      end
  | CallTimeout id now =>
      match find (fun t => Nat.eqb (fst t) id) (timers st) with
      | Some (_, deadline) =>
          if (now <? clock st) || (now <? deadline) then None
          else Some (settle id (Rejected GeocodingTimeout) {| st with clock := now |})
      | None => None
      end
  | ClearCache now =>
      if now <? clock st then None
      else Some (clearGeoccodingCache {| st with clock := now |})
  end.

Fixpoint run (st : GState) (es : list Event) : option GState :=
  match es with
  | [] => Some st
  | e :: es' => st' <- step st e; run st' es'
  end.

Definition reachable (st : GState) : Prop := exists es, run initialState es = Some st.

(** ** Invariants *)

Definition running (s : Suspension) : bool :=
  match s with Idle => false | _ => true end.

(** Consecutive values at least [MIN_REQUEST_INTERVAL] apart. *)
Fixpoint spaced (l : list Z) : Prop :=
  match l with
  | a :: ((b :: _) as l') => a + MIN_REQUEST_INTERVAL <= b /\ spaced l'
  | _ => True
  end.

Definition lastOr0 (l : list Z) : Z := default 0 (last l).

(** What every state satisfies, also in the middle of the loop. *)
Record QInv (st : GState) : Prop := {
  q_bound : (length (requestQueue st) <= MAX_QUEUE_SIZE)%nat;
  q_keys : NoDup (map rkey (requestQueue st));
  q_breaker : circuitBreakerOpen st = (MAX_CONSECUTIVE_ERRORS <=? consecutiveErrors st)%nat;
  q_errors : (consecutiveErrors st <= MAX_CONSECUTIVE_ERRORS)%nat;
  q_spaced : spaced (0 :: requestTimes st);
  q_last : lastRequestTime st = lastOr0 (requestTimes st);
  q_settled : NoDup (map fst (settled st))
}.

(** What holds between two macrotasks. *)
Record Inv (st : GState) : Prop := {
  inv_q : QInv st;
  inv_processing : isProcessingQueue st = running (suspension st);
  inv_idle : suspension st = Idle -> requestQueue st = [];
  inv_breaker_idle : circuitBreakerOpen st = true -> suspension st = Idle;
  inv_wake : forall r c w, suspension st = Sleeping r c w -> w = lastRequestTime st + MIN_REQUEST_INTERVAL
}.

Lemma spaced_snoc (l : list Z) (a x : Z) :
  spaced (a :: l) -> lastOr0 (a :: l) + MIN_REQUEST_INTERVAL <= x -> spaced (a :: l ++ [x]).
Proof.
  revert a. induction l as [|b l IH]; intros a Hs Hx.
  - split; [exact Hx | done].
  - destruct Hs as [Hab Hs]. split; [done|]. apply IH; [done|].
    unfold lastOr0 in *. by rewrite last_cons_cons in Hx.
Qed.

Lemma lastOr0_snoc l x : lastOr0 (l ++ [x]) = x.
Proof. unfold lastOr0. by rewrite last_snoc. Qed.

Lemma lastOr0_cons0 l : lastOr0 (0 :: l) = lastOr0 l.
Proof. unfold lastOr0. destruct l; [done|]. by rewrite last_cons_cons. Qed.

(** Settling promises only touches the timers and the outcomes. *)
Lemma settle_eq id o st :
  exists ts ss, settle id o st = {| st with timers := ts; settled := ss |} /\
    (NoDup (map fst (settled st)) -> NoDup (map fst ss)).
Proof.
  unfold settle, isSettled. simpl. destruct (existsb _ (settled st)) eqn:E.
  - eexists _, _. split; [reflexivity | done].
  - eexists _, _. split; [reflexivity|]. intros Hn. rewrite map_app. simpl.
    apply NoDup_app. split_and!; [done | | apply NoDup_singleton].
    intros x Hx Hy. apply list_elem_of_singleton in Hy. subst x.
    apply list_elem_of_In, in_map_iff in Hx as ([i o'] & Hi & Hin). simpl in Hi. subst i.
    assert (Ht : existsb (fun p => Nat.eqb (fst p) id) (settled st) = true)
      by (apply existsb_exists; exists (id, o'); split; [done | apply Nat.eqb_refl]).
    rewrite Ht in E. discriminate.
Qed.

Lemma settleAll_eq ids o st :
  exists ts ss, settleAll ids o st = {| st with timers := ts; settled := ss |} /\
    (NoDup (map fst (settled st)) -> NoDup (map fst ss)).
Proof.
  unfold settleAll. revert st. induction ids as [|id ids IH]; intros st; simpl.
  - exists (timers st), (settled st). by destruct st.
  - destruct (settle_eq id o st) as (ts & ss & -> & Hn).
    destruct (IH {| st with timers := ts; settled := ss |}) as (ts' & ss' & -> & Hn').
    exists ts', ss'. split; [done|]. intros H. apply Hn'. simpl. auto.
Qed.

Lemma settleAll_QInv ids o st : QInv st -> QInv (settleAll ids o st).
Proof.
  intros [] . destruct (settleAll_eq ids o st) as (ts & ss & -> & Hn). constructor; simpl; auto.
Qed.

Lemma settle_QInv id o st : QInv st -> QInv (settle id o st).
Proof.
  intros []. destruct (settle_eq id o st) as (ts & ss & -> & Hn). constructor; simpl; auto.
Qed.

(** [QInv] only reads six fields. *)
Lemma QInv_ext st st' :
  requestQueue st' = requestQueue st -> circuitBreakerOpen st' = circuitBreakerOpen st ->
  consecutiveErrors st' = consecutiveErrors st -> requestTimes st' = requestTimes st ->
  lastRequestTime st' = lastRequestTime st -> settled st' = settled st -> QInv st -> QInv st'.
Proof. intros Hq Hb He Ht Hl Hs []. constructor; congruence. Qed.

Ltac qinv_frame H := eapply QInv_ext; [..| exact H]; reflexivity.

Lemma QInv_clear_queue st : QInv st -> QInv {| st with requestQueue := [] |}.
Proof. intros []. constructor; simpl; auto using NoDup_nil_2; lia. Qed.

Lemma QInv_pop st r rest : QInv st -> requestQueue st = r :: rest -> QInv {| st with requestQueue := rest |}.
Proof.
  intros [] Hq. rewrite Hq in *. simpl in *. constructor; simpl; auto; [lia|]. by inversion q_keys0.
Qed.

(** Setting [lastRequestTime] at least [MIN_REQUEST_INTERVAL] after its
    previous value (line 482). *)
Lemma QInv_request st now :
  QInv st -> lastRequestTime st + MIN_REQUEST_INTERVAL <= now ->
  QInv {| st with lastRequestTime := now; requestTimes := requestTimes st ++ [now] |}.
Proof.
  intros [] Hnow. constructor; simpl; auto.
  - apply spaced_snoc; [done|]. rewrite lastOr0_cons0. lia.
  - by rewrite lastOr0_snoc.
Qed.

Lemma launch_Inv r count now st :
  QInv st -> isProcessingQueue st = true -> circuitBreakerOpen st = false ->
  lastRequestTime st + MIN_REQUEST_INTERVAL <= now -> Inv (launch r count now st).
Proof.
  intros Hq Hp Hb Hnow. pose proof (QInv_request st now Hq Hnow) as Hq'.
  constructor; simpl; auto; try congruence. qinv_frame Hq'.
Qed.

Lemma finishLoop_Inv count st :
  QInv st -> requestQueue st = [] \/ (maxProcessingAttempts <= count)%nat -> Inv (finishLoop count st).
Proof.
  intros Hq Hc. unfold finishLoop.
  destruct (Nat.leb_spec maxProcessingAttempts count) as [Hle|Hgt].
  - pose proof (settleAll_QInv (concat (map callbacks (requestQueue st))) (Rejected ProcessingLimit) _
                  (QInv_clear_queue st Hq)) as Hq'.
    destruct (settleAll_eq (concat (map callbacks (requestQueue st))) (Rejected ProcessingLimit)
                {| st with requestQueue := [] |}) as (ts & ss & Heq & _). rewrite Heq in Hq' |- *.
    constructor; simpl; [qinv_frame Hq' | done | done | done | done].
  - destruct Hc as [Hc|]; [|lia]. constructor; simpl; [qinv_frame Hq | done | done | done | done].
Qed.

Lemma runLoop_Inv q count now st :
  QInv st -> requestQueue st = q -> isProcessingQueue st = true -> circuitBreakerOpen st = false ->
  Inv (runLoop q count now st).
Proof.
  revert count st. induction q as [|r rest IH]; intros count st Hq Heq Hp Hb; simpl.
  - by apply finishLoop_Inv; [|left].
  - destruct (Nat.ltb_spec count maxProcessingAttempts) as [Hlt|Hge];
      [|apply finishLoop_Inv; [exact Hq | by right]].
    pose proof (QInv_pop st r rest Hq Heq) as Hq1.
    destruct (assoc_get (rkey r) (geocodingCache st)) as [cached|] eqn:Hc.
    + destruct (settleAll_eq (callbacks r) (Resolved cached) {| st with requestQueue := rest |})
        as (ts & ss & Heq' & _).
      pose proof (settleAll_QInv (callbacks r) (Resolved cached) _ Hq1) as Hq2. rewrite Heq' in Hq2 |- *.
      apply IH; simpl; auto.
    + destruct (Z.ltb_spec (now - lastRequestTime st) MIN_REQUEST_INTERVAL) as [Hw|Hw].
      * constructor; simpl; [qinv_frame Hq1 | done | done | congruence |].
        intros r' c w [= _ _ <-]. reflexivity.
      * apply launch_Inv; simpl; auto. lia.
Qed.

Lemma onSuccess_Inv r count result now st :
  QInv st -> isProcessingQueue st = true -> circuitBreakerOpen st = false ->
  Inv (onSuccess r count result now st).
Proof.
  intros Hq Hp Hb. unfold onSuccess.
  destruct (settleAll_eq (callbacks r) (Resolved result) {| st with consecutiveErrors := 0%nat |})
    as (ts & ss & -> & Hn).
  apply runLoop_Inv; simpl; auto. destruct Hq. constructor; simpl; auto; lia.
Qed.

Lemma onError_Inv r count now st :
  QInv st -> isProcessingQueue st = true -> circuitBreakerOpen st = false ->
  Inv (onError r count now st).
Proof.
  intros Hq Hp Hb. unfold onError. cbv zeta. cbn [consecutiveErrors].
  pose proof (q_breaker st Hq) as Hbe. rewrite Hb in Hbe. symmetry in Hbe. apply Nat.leb_gt in Hbe.
  destruct (Nat.leb_spec MAX_CONSECUTIVE_ERRORS (S (consecutiveErrors st))) as [Hge|Hlt].
  - apply finishLoop_Inv; [|left].
    + apply settleAll_QInv. destruct Hq. constructor; simpl; auto using NoDup_nil_2; try lia.
      unfold MAX_CONSECUTIVE_ERRORS in *. destruct (consecutiveErrors st) as [|[|[|e]]]; simpl; done || lia.
    + match goal with |- requestQueue (settleAll ?ids ?o ?s) = [] =>
        destruct (settleAll_eq ids o s) as (ts & ss & -> & _) end. done.
  - assert (Hq1 : QInv {| st with consecutiveErrors := S (consecutiveErrors st); lastErrorTime := now |}).
    { destruct Hq. constructor; simpl; auto; try lia. rewrite Hb. unfold MAX_CONSECUTIVE_ERRORS in *.
      destruct (consecutiveErrors st) as [|[|[|e]]]; simpl; done || lia. }
    destruct (settleAll_eq (callbacks r) (Rejected RequestTimeout)
      {| st with consecutiveErrors := S (consecutiveErrors st); lastErrorTime := now |}) as (ts & ss & Heq & _).
    pose proof (settleAll_QInv (callbacks r) (Rejected RequestTimeout) _ Hq1) as Hq2.
    rewrite Heq in Hq2 |- *. apply runLoop_Inv; simpl; auto.
Qed.

(** [Inv] only reads eight fields. *)
Lemma Inv_ext st st' :
  requestQueue st' = requestQueue st -> isProcessingQueue st' = isProcessingQueue st ->
  suspension st' = suspension st -> circuitBreakerOpen st' = circuitBreakerOpen st ->
  consecutiveErrors st' = consecutiveErrors st -> requestTimes st' = requestTimes st ->
  lastRequestTime st' = lastRequestTime st -> settled st' = settled st -> Inv st -> Inv st'.
Proof.
  intros Hq Hp Hs Hb He Ht Hl Hse [Hqi Hpr Hi Hbi Hw].
  constructor.
  - eapply QInv_ext; eauto.
  - congruence.
  - intros H. rewrite Hq. apply Hi. congruence.
  - intros H. rewrite Hs. apply Hbi. congruence.
  - intros r c w Hsw. rewrite Hl. apply (Hw r c w). congruence.
Qed.

Ltac inv_frame H := eapply Inv_ext; [..| exact H]; reflexivity.

Lemma settle_Inv id o st : Inv st -> Inv (settle id o st).
Proof.
  intros Hi. destruct (settle_eq id o st) as (ts & ss & Heq & Hn).
  pose proof (settle_QInv id o st (inv_q st Hi)) as Hq. rewrite Heq in Hq |- *.
  destruct Hi as [_ Hp Hid Hb Hw]. constructor; simpl; auto.
Qed.

Lemma addCallback_keys key id q q' : addCallback key id q = Some q' -> map rkey q' = map rkey q.
Proof.
  revert q'. induction q as [|r q IH]; intros q' H; simpl in H; [done|].
  destruct (decide (rkey r = key)); [by injection H as <-|].
  destruct (addCallback key id q) as [q1|] eqn:E; simpl in H; [|done].
  injection H as <-. simpl. f_equal. by apply IH.
Qed.

Lemma addCallback_None key id q : addCallback key id q = None -> ~ elem_of key (map rkey q).
Proof.
  induction q as [|r q IH]; simpl; [intros _; apply not_elem_of_nil|].
  destruct (decide (rkey r = key)); [done|].
  destruct (addCallback key id q); simpl; [done|]. intros H Hin.
  apply elem_of_cons in Hin as [->|Hin]; [done | by apply IH].
Qed.

Lemma processRequestQueue_Inv now st :
  QInv st -> isProcessingQueue st = running (suspension st) -> circuitBreakerOpen st = false ->
  (forall r c w, suspension st = Sleeping r c w -> w = lastRequestTime st + MIN_REQUEST_INTERVAL) ->
  Inv (processRequestQueue now st).
Proof.
  intros Hq Hp Hb Hw. unfold processRequestQueue. destruct (isProcessingQueue st) eqn:Hpr.
  - constructor; auto; [congruence | intros H; rewrite H in Hp; done | intros; congruence].
  - destruct (requestQueue st) as [|r q] eqn:Hqe.
    + constructor; auto; [congruence | intros; congruence].
    + rewrite <- Hqe. apply runLoop_Inv; simpl; auto. qinv_frame Hq.
Qed.

Lemma enqueue_Inv id lat lon key now st :
  Inv st -> circuitBreakerOpen st = false -> Inv (enqueue id lat lon key now st).
Proof.
  intros Hi Hb. unfold enqueue.
  assert (Hi1 : Inv {| st with timers := timers st ++ [(id, now + CALL_TIMEOUT)] |}) by inv_frame Hi.
  cbn [requestQueue]. destruct (addCallback key id (requestQueue st)) as [q|] eqn:Ha.
  - destruct Hi1 as [[] Hp Hid Hbi Hw]. pose proof (addCallback_keys _ _ _ _ Ha) as Hk.
    assert (Hl : length q = length (requestQueue st)) by (rewrite <- (length_map rkey q), Hk; apply length_map).
    constructor; [constructor|..]; simpl in *; try rewrite Hk; try rewrite Hl; auto.
    intros Hs. apply Hid in Hs. rewrite Hs in Hl. by destruct q.
  - destruct (Nat.leb_spec MAX_QUEUE_SIZE (length (requestQueue st))) as [Hf|Hf];
      [by apply settle_Inv|].
    set (st2 := {| st with timers := timers st ++ [(id, now + CALL_TIMEOUT)];
                           requestQueue := requestQueue st ++ [mkRequest lat lon key [id]] |}).
    assert (Hq2 : QInv st2).
    { destruct Hi as [[] _ _ _ _]. constructor; simpl; auto.
      - rewrite length_app. simpl. lia.
      - rewrite map_app. simpl. apply NoDup_app. split_and!; [done | | apply NoDup_singleton].
        intros x Hx ->%list_elem_of_singleton. by apply (addCallback_None key id (requestQueue st)). }
    destruct Hi as [_ Hpr Hid Hbi Hw]. apply processRequestQueue_Inv; [exact Hq2 | unfold st2; simpl; done..].
Qed.

Lemma reverseGeocodeWithRateLimit_Inv id lat lon now st :
  Inv st -> Inv (reverseGeocodeWithRateLimit id lat lon now st).
Proof.
  intros Hi. unfold reverseGeocodeWithRateLimit. cbn [circuitBreakerOpen lastErrorTime].
  assert (Hi0 : Inv {| st with callers := callers st ++ [id] |}) by inv_frame Hi.
  destruct (circuitBreakerOpen st) eqn:Hb; simpl.
  - destruct (now - lastErrorTime st <? CIRCUIT_BREAKER_RESET_TIME); [by apply settle_Inv|].
    assert (Hi1 : Inv {| st with callers := callers st ++ [id]; circuitBreakerOpen := false;
                                consecutiveErrors := 0%nat |}).
    { destruct Hi0 as [[] Hp Hid Hbi Hw]. constructor; [constructor|..]; simpl in *; auto; lia. }
    destruct (assoc_get _ _); [by apply settle_Inv | by apply enqueue_Inv].
  - destruct (assoc_get _ _); [by apply settle_Inv | by apply enqueue_Inv].
Qed.


(** While a request is in flight or asleep the processor runs and the
    breaker is closed. *)
Lemma Inv_running st :
  Inv st -> suspension st <> Idle -> isProcessingQueue st = true /\ circuitBreakerOpen st = false.
Proof.
  intros Hi Hs. split; [rewrite (inv_processing st Hi); by destruct (suspension st)|].
  destruct (circuitBreakerOpen st) eqn:E; [|done]. by apply (inv_breaker_idle st Hi) in E.
Qed.

(** Every event keeps the invariant. *)
Lemma step_Inv st e st' : Inv st -> step st e = Some st' -> Inv st'.
Proof.
  intros Hi Hs. destruct e as [id lat lon now|now|fid name now|now|id now|now]; simpl in Hs.
  - destruct (_ || _); [done|]. injection Hs as <-.
    apply reverseGeocodeWithRateLimit_Inv. inv_frame Hi.
  - destruct (suspension st) as [|r c w|] eqn:Hsu; try done.
    destruct (Z.ltb_spec now (clock st)), (Z.ltb_spec now w); simpl in Hs; try done.
    pose proof (inv_wake st Hi r c w Hsu) as Hw.
    destruct (Inv_running st Hi) as [Hp Hb]; [by rewrite Hsu|].
    destruct (assoc_get _ _) as [cached|]; injection Hs as <-.
    + apply onSuccess_Inv; simpl; auto.
      pose proof (QInv_request st now (inv_q st Hi)) as Hq. qinv_frame (Hq ltac:(lia)).
    + apply launch_Inv; simpl; auto; [qinv_frame (inv_q st Hi) | lia].
  - destruct (now <? clock st); [done|].
    destruct (find _ (pendingFetches st)) as [[f key]|]; [|done].
    assert (Hi1 : Inv {| st with clock := now; geocodingCache := assoc_set key name (geocodingCache st);
                                 pendingFetches := removeFetch fid (pendingFetches st) |}) by inv_frame Hi.
    simpl in Hs. destruct (suspension st) as [|r c w|r c f' t] eqn:Hsu; try (injection Hs as <-; exact Hi1).
    destruct (Nat.eqb fid f'); injection Hs as <-; [|exact Hi1].
    destruct (Inv_running st Hi) as [Hp Hb]; [by rewrite Hsu|].
    apply onSuccess_Inv; simpl; auto. qinv_frame (inv_q st Hi).
  - destruct (suspension st) as [| |r c f t] eqn:Hsu; try done.
    destruct (_ || _); [done|]. injection Hs as <-.
    destruct (Inv_running st Hi) as [Hp Hb]; [by rewrite Hsu|].
    apply onError_Inv; simpl; auto. qinv_frame (inv_q st Hi).
  - destruct (find _ (timers st)) as [[i d]|]; [|done]. destruct (_ || _); [done|].
    injection Hs as <-. apply settle_Inv. inv_frame Hi.
  - destruct (now <? clock st); [done|]. injection Hs as <-. inv_frame Hi.
Qed.

Lemma initialState_Inv : Inv initialState.
Proof.
  constructor; [constructor|..]; simpl; try done; try lia; constructor.
Qed.

(** An invariant of [step] holds along every run. *)
Lemma run_preserves (P : GState -> Prop) :
  (forall st e st', P st -> step st e = Some st' -> P st') ->
  forall es st st', P st -> run st es = Some st' -> P st'.
Proof.
  intros Hstep es. induction es as [|e es IH]; intros st st' Hi Hr; simpl in Hr; [by injection Hr as <-|].
  destruct (step st e) as [s|] eqn:Hs; simpl in Hr; [|done]. exact (IH s st' (Hstep st e s Hi Hs) Hr).
Qed.

Lemma reachable_Inv st : reachable st -> Inv st.
Proof. intros [es Hr]. exact (run_preserves Inv step_Inv es _ _ initialState_Inv Hr). Qed.

(** ** No promise is forgotten *)

(** A promise is settled or its 30-second timer is armed. *)
Definition covered (st : GState) (id : nat) : Prop :=
  isSettled id st = true \/ exists d, In (id, d) (timers st).

(** [st'] is reached from [st] by settling and timer work only: the
    same callers, outcomes only appended, and every covered promise stays
    covered. *)
Record kept (st st' : GState) : Prop := {
  kept_callers : callers st' = callers st;
  kept_settled : exists l, settled st' = settled st ++ l;
  kept_covered : forall id, covered st id -> covered st' id
}.

Definition PromiseInv (st : GState) : Prop := forall id, In id (callers st) -> covered st id.

Lemma kept_refl st : kept st st.
Proof. split; [done | exists []; by rewrite app_nil_r | done]. Qed.

Lemma kept_trans st1 st2 st3 : kept st1 st2 -> kept st2 st3 -> kept st1 st3.
Proof.
  intros [C1 [l1 S1] H1] [C2 [l2 S2] H2]. split; [congruence | | auto].
  exists (l1 ++ l2). by rewrite S2, S1, app_assoc.
Qed.

(** Arming timers keeps everything covered. *)
Lemma kept_arm st st' ts :
  timers st' = timers st ++ ts -> settled st' = settled st -> callers st' = callers st -> kept st st'.
Proof.
  intros Ht Hs Hc. split; [done | exists []; by rewrite Hs, app_nil_r|].
  intros id [H|(d & Hd)]; [left | right]; unfold isSettled in *; [by rewrite Hs|].
  exists d. rewrite Ht. apply in_or_app. by left.
Qed.

Lemma kept_frame st st' :
  timers st' = timers st -> settled st' = settled st -> callers st' = callers st -> kept st st'.
Proof. intros Ht. apply (kept_arm st st' []). by rewrite Ht, app_nil_r. Qed.

Ltac kept_frame := apply kept_frame; reflexivity.

Lemma isSettled_settle i id o st : isSettled i (settle id o st) = isSettled i st || Nat.eqb i id.
Proof.
  unfold settle, isSettled. simpl. destruct (existsb _ (settled st)) eqn:E; simpl.
  - destruct (Nat.eqb_spec i id) as [->|]; [by rewrite E | by rewrite orb_false_r].
  - rewrite existsb_app. simpl. by rewrite orb_false_r, Nat.eqb_sym.
Qed.

Lemma timers_settle id o st : timers (settle id o st) = clearTimer id (timers st).
Proof. unfold settle. simpl. by destruct (isSettled id _). Qed.

Lemma settle_covers id o st : covered (settle id o st) id /\ kept st (settle id o st).
Proof.
  split; [left; rewrite isSettled_settle, Nat.eqb_refl; apply orb_true_r|].
  split; [unfold settle; simpl; by destruct (isSettled id _)|..].
  - unfold settle. simpl. destruct (isSettled id _); simpl; [exists []; by rewrite app_nil_r | by eexists].
  - intros i [Hi|(d & Hd)]; [left; by rewrite isSettled_settle, Hi|].
    destruct (Nat.eqb_spec i id) as [->|Hne]; [left; rewrite isSettled_settle, Nat.eqb_refl; apply orb_true_r|].
    right. exists d. rewrite timers_settle. apply filter_In. split; [done|]. simpl.
    by rewrite (proj2 (Nat.eqb_neq i id) Hne).
Qed.

Lemma settleAll_kept ids o st : kept st (settleAll ids o st).
Proof.
  unfold settleAll. revert st. induction ids as [|id ids IH]; intros st; simpl; [apply kept_refl|].
  eapply kept_trans; [apply (settle_covers id o st) | apply IH].
Qed.

Lemma finishLoop_kept count st : kept st (finishLoop count st).
Proof.
  unfold finishLoop. destruct (_ <=? _)%nat; [|kept_frame].
  eapply kept_trans; [apply (kept_frame st {| st with requestQueue := [] |}); reflexivity|].
  eapply kept_trans; [apply settleAll_kept | kept_frame].
Qed.

Lemma runLoop_kept q count now st : kept st (runLoop q count now st).
Proof.
  revert count st. induction q as [|r rest IH]; intros count st; simpl; [apply finishLoop_kept|].
  destruct (_ <? _)%nat; [|apply finishLoop_kept].
  assert (H1 : kept st {| st with requestQueue := rest |}) by kept_frame.
  destruct (assoc_get _ _).
  - eapply kept_trans; [exact H1|]. eapply kept_trans; [apply settleAll_kept | apply IH].
  - destruct (_ <? _); eapply kept_trans; try exact H1; kept_frame.
Qed.

Lemma onSuccess_kept r count result now st : kept st (onSuccess r count result now st).
Proof.
  unfold onSuccess. eapply kept_trans; [apply (kept_frame st {| st with consecutiveErrors := 0%nat |}); reflexivity|].
  eapply kept_trans; [apply settleAll_kept | apply runLoop_kept].
Qed.

Lemma onError_kept r count now st : kept st (onError r count now st).
Proof.
  unfold onError. cbv zeta.
  assert (H1 : kept st {| st with consecutiveErrors := S (consecutiveErrors st); lastErrorTime := now |})
    by kept_frame.
  eapply kept_trans; [exact H1|]. destruct (_ <=? _)%nat.
  - eapply kept_trans; [|apply finishLoop_kept]. eapply kept_trans; [|apply settleAll_kept]. kept_frame.
  - eapply kept_trans; [apply settleAll_kept | apply runLoop_kept].
Qed.

Lemma processRequestQueue_kept now st : kept st (processRequestQueue now st).
Proof.
  unfold processRequestQueue. destruct (isProcessingQueue st); [apply kept_refl|].
  destruct (requestQueue st); [apply kept_refl|].
  eapply kept_trans; [|apply runLoop_kept]. kept_frame.
Qed.

Lemma enqueue_covers id lat lon key now st :
  covered (enqueue id lat lon key now st) id /\ kept st (enqueue id lat lon key now st).
Proof.
  unfold enqueue. set (st1 := {| st with timers := timers st ++ [(id, now + CALL_TIMEOUT)] |}).
  assert (Hc1 : covered st1 id) by (right; eexists; apply in_or_app; right; left; reflexivity).
  assert (Hk1 : kept st st1) by (eapply kept_arm; reflexivity).
  cbn [requestQueue st1]. destruct (addCallback key id (requestQueue st)) as [q|].
  - split; [|eapply kept_trans; [exact Hk1 | kept_frame]].
    destruct Hc1 as [H|H]; [left | right]; exact H.
  - destruct (_ <=? _)%nat.
    + destruct (settle_covers id (Rejected QueueFull) st1) as [Hc Hk]. split; [exact Hc|].
      eapply kept_trans; [exact Hk1 | exact Hk].
    + set (st2 := {| st with timers := timers st ++ [(id, now + CALL_TIMEOUT)];
                             requestQueue := requestQueue st ++ [mkRequest lat lon key [id]] |}).
      assert (Hk2 : kept st1 st2) by kept_frame.
      pose proof (processRequestQueue_kept now st2) as Hk3.
      split; [apply (kept_covered _ _ Hk3), (kept_covered _ _ Hk2), Hc1|].
      eapply kept_trans; [exact Hk1|]. eapply kept_trans; [exact Hk2 | exact Hk3].
Qed.

(** A call registers its caller and covers its promise; everything else
    is kept. *)
Lemma reverseGeocodeWithRateLimit_covers id lat lon now st :
  covered (reverseGeocodeWithRateLimit id lat lon now st) id /\
  kept {| st with callers := callers st ++ [id] |} (reverseGeocodeWithRateLimit id lat lon now st).
Proof.
  unfold reverseGeocodeWithRateLimit. set (st1 := {| st with callers := callers st ++ [id] |}).
  destruct (_ && _); [apply settle_covers|].
  set (st2 := if circuitBreakerOpen st1 then _ else _).
  assert (H12 : kept st1 st2) by (unfold st2; destruct (circuitBreakerOpen st1); kept_frame).
  cbv zeta. destruct (assoc_get _ _) as [o|].
  - destruct (settle_covers id (Resolved o) st2) as [Hc Hk]. exact (conj Hc (kept_trans _ _ _ H12 Hk)).
  - destruct (enqueue_covers id lat lon (cacheKey lat lon) now st2) as [Hc Hk].
    exact (conj Hc (kept_trans _ _ _ H12 Hk)).
Qed.

(** Every event but a call is kept; a call is kept from the state with
    its caller registered, and covers that caller. *)
Lemma step_kept st e st' :
  step st e = Some st' ->
  match e with
  | Call id _ _ _ => covered st' id /\ kept {| st with callers := callers st ++ [id] |} st'
  | _ => kept st st'
  end.
Proof.
  intros Hs. destruct e as [id lat lon now|now|fid name now|now|id now|now]; simpl in Hs.
  - destruct (_ || _); [done|]. injection Hs as <-.
    destruct (reverseGeocodeWithRateLimit_covers id lat lon now {| st with clock := now |}) as [Hc Hk].
    split; [exact Hc|]. eapply kept_trans; [|exact Hk]. kept_frame.
  - destruct (suspension st); try done. destruct (_ || _); [done|].
    destruct (assoc_get _ _); injection Hs as <-; [|kept_frame].
    eapply kept_trans; [|apply onSuccess_kept]. kept_frame.
  - destruct (now <? clock st); [done|]. destruct (find _ _) as [[f key]|]; [|done]. simpl in Hs.
    destruct (suspension st); [| |destruct (Nat.eqb fid _)]; injection Hs as <-; try kept_frame.
    eapply kept_trans; [|apply onSuccess_kept]. kept_frame.
  - destruct (suspension st); try done. destruct (_ || _); [done|]. injection Hs as <-.
    eapply kept_trans; [|apply onError_kept]. kept_frame.
  - destruct (find _ _) as [[i d]|]; [|done]. destruct (_ || _); [done|]. injection Hs as <-.
    eapply kept_trans; [|apply settle_covers]. kept_frame.
  - destruct (now <? clock st); [done|]. injection Hs as <-. kept_frame.
Qed.

Lemma step_PromiseInv st e st' : PromiseInv st -> step st e = Some st' -> PromiseInv st'.
Proof.
  intros Hp Hs. apply step_kept in Hs. destruct e as [id lat lon now| | | | |];
    try (intros i Hi; rewrite (kept_callers _ _ Hs) in Hi; by apply (kept_covered _ _ Hs), Hp).
  destruct Hs as [Hc Hk]. intros i Hi. rewrite (kept_callers _ _ Hk) in Hi. simpl in Hi.
  apply in_app_or in Hi as [Hi|[<-|[]]]; [|done]. apply (kept_covered _ _ Hk), (Hp i Hi).
Qed.

Lemma reachable_PromiseInv st : reachable st -> PromiseInv st.
Proof. intros [es Hr]. apply (run_preserves PromiseInv step_PromiseInv es initialState); [|done]. by intros i []. Qed.

Lemma run_snoc st es e : run st (es ++ [e]) = st' <- run st es; step st' e.
Proof.
  revert st. induction es as [|e' es IH]; intros st; simpl; [by destruct (step st e)|].
  destruct (step st e'); simpl; [apply IH | done].
Qed.

Lemma reachable_step st e st' : reachable st -> step st e = Some st' -> reachable st'.
Proof. intros [es Hr] Hs. exists (es ++ [e]). by rewrite run_snoc, Hr. Qed.

(** ** What the loop leaves alone *)

Lemma spaced_tail (a : Z) (l : list Z) : spaced (a :: l) -> spaced l.
Proof. destruct l; simpl; tauto. Qed.

Lemma spaced_lookup (l : list Z) (i : nat) (a b : Z) :
  spaced l -> l !! i = Some a -> l !! S i = Some b -> a + MIN_REQUEST_INTERVAL <= b.
Proof.
  revert i. induction l as [|x l IH]; intros i Hs Ha Hb; [done|].
  destruct i as [|i]; simpl in Ha, Hb.
  - injection Ha as <-. destruct l as [|y l]; [done|]. injection Hb as <-. apply Hs.
  - exact (IH i (spaced_tail x l Hs) Ha Hb).
Qed.

Lemma isSettled_settleAll i ids o st :
  isSettled i (settleAll ids o st) = isSettled i st || existsb (Nat.eqb i) ids.
Proof.
  unfold settleAll. revert st. induction ids as [|id ids IH]; intros st; simpl; [by rewrite orb_false_r|].
  by rewrite IH, isSettled_settle, orb_assoc.
Qed.

Lemma existsb_eqb_notin (i : nat) (ids : list nat) : ~ In i ids -> existsb (Nat.eqb i) ids = false.
Proof.
  intros Hn. apply not_true_is_false. intros (j & Hj & E)%existsb_exists.
  apply Nat.eqb_eq in E as ->. by apply Hn.
Qed.

(** The fields that settling, sleeping and launching never write. *)
Definition loopFrame (st : GState) : list (CacheKey * option String.string) * nat * bool :=
  (geocodingCache st, consecutiveErrors st, circuitBreakerOpen st).

(** Settling writes the timers and the outcomes only. *)
Lemma settleAll_shape ids o st :
  exists ts ss, settleAll ids o st = {| st with timers := ts; settled := ss |}.
Proof.
  unfold settleAll. revert st. induction ids as [|id ids IH]; intros st; simpl; [exists (timers st), (settled st); by destruct st|].
  destruct (IH (settle id o st)) as (ts & ss & ->). exists ts, ss.
  unfold settle. by destruct (isSettled id _).
Qed.

Lemma settleAll_loopFrame ids o st : loopFrame (settleAll ids o st) = loopFrame st.
Proof. by destruct (settleAll_shape ids o st) as (ts & ss & ->). Qed.

Lemma finishLoop_loopFrame count st : loopFrame (finishLoop count st) = loopFrame st.
Proof. unfold finishLoop. destruct (_ <=? _)%nat; [|done]. exact (settleAll_loopFrame _ _ _). Qed.

Lemma runLoop_loopFrame q count now st : loopFrame (runLoop q count now st) = loopFrame st.
Proof.
  revert count st. induction q as [|r rest IH]; intros count st; simpl; [apply finishLoop_loopFrame|].
  destruct (_ <? _)%nat; [|apply finishLoop_loopFrame].
  destruct (assoc_get _ _); [|by destruct (_ <? _)].
  rewrite IH. exact (settleAll_loopFrame _ _ _).
Qed.

Lemma onSuccess_loopFrame r count result now st :
  loopFrame (onSuccess r count result now st) = (geocodingCache st, 0%nat, circuitBreakerOpen st).
Proof. unfold onSuccess. by rewrite runLoop_loopFrame, settleAll_loopFrame. Qed.

Lemma settleAll_fields ids o st :
  requestQueue (settleAll ids o st) = requestQueue st /\ suspension (settleAll ids o st) = suspension st /\
  circuitBreakerOpen (settleAll ids o st) = circuitBreakerOpen st.
Proof. by destruct (settleAll_shape ids o st) as (ts & ss & ->). Qed.

(** On an empty queue [finishLoop] only stops the processor. *)
Lemma finishLoop_empty count st :
  requestQueue st = [] -> finishLoop count st = {| st with isProcessingQueue := false; suspension := Idle |}.
Proof.
  intros Hq. unfold finishLoop. destruct (_ <=? _)%nat; [|done].
  rewrite Hq. unfold settleAll. simpl. by destruct st; simpl in Hq; subst.
Qed.

(** The third timeout in a row: the breaker opens, the queue is emptied
    and rejected, the processor stops, and no other promise settles. *)
Lemma onError_opens r count now st :
  consecutiveErrors st = 2%nat ->
  circuitBreakerOpen (onError r count now st) = true /\ suspension (onError r count now st) = Idle /\
  requestQueue (onError r count now st) = [] /\
  forall id, ~ In id (concat (map callbacks (requestQueue st))) ->
    isSettled id (onError r count now st) = isSettled id st.
Proof.
  intros He. unfold onError. cbv zeta. cbn [consecutiveErrors]. rewrite He.
  change (MAX_CONSECUTIVE_ERRORS <=? 3)%nat with true. cbv iota. cbn [requestQueue].
  set (s1 := settleAll _ _ _).
  destruct (settleAll_fields (concat (map callbacks (requestQueue st))) (Rejected CircuitBreakerOpen)
              {| st with consecutiveErrors := 3%nat; lastErrorTime := now;
                         circuitBreakerOpen := true; requestQueue := [] |}) as (Hq & _ & Hb).
  fold s1 in Hq, Hb. rewrite (finishLoop_empty count s1 Hq). cbn [circuitBreakerOpen suspension requestQueue].
  split_and!; [exact Hb | reflexivity | exact Hq|]. intros id Hid.
  unfold isSettled at 1. cbn [settled]. fold (isSettled id s1).
  unfold s1. rewrite isSettled_settleAll, (existsb_eqb_notin _ _ Hid). apply orb_false_r.
Qed.

(** ** Demonstration runs *)

Local Open Scope string_scope.

(** A call launches a fetch at 1000; two calls for a second place share
    one request, which sleeps until 1500 for the rate limit; its fetch
    fails, and a later call for that place is answered from the cache. *)
Definition demo_events : list Event :=
  [Call 0 (5932 # 100) (1806 # 100) 1000; Call 1 (5933 # 100) (1806 # 100) 1100;
   Call 2 (5933 # 100) (1806 # 100) 1200; FetchDone 0 (Some "Stockholm Central Station") 1300;
   Wake 1500; FetchDone 1 None 1700; Call 3 (5933 # 100) (1806 # 100) 2000].

Local Close Scope string_scope.

(** Three requests time out in a row. *)
Definition breaker_events : list Event :=
  [Call 0 1 1 1000; RaceTimeout 16000; Call 1 2 2 17000; RaceTimeout 32000;
   Call 2 3 3 33000; RaceTimeout 48000].

Definition after (es : list Event) : GState := from_option id initialState (run initialState es).

Lemma reachable_after es : bool_decide (is_Some (run initialState es)) -> reachable (after es).
Proof. unfold after. destruct (run initialState es) eqn:E; [intros _; by exists es | by rewrite bool_decide_eq_false_2 by (by intros [])]. Qed.

Ltac reach := apply reachable_after; vm_compute; reflexivity.

(** ** Properties of the client *)

(** [C28] The request queue never holds more than [MAX_QUEUE_SIZE] = 20
    requests: a call that would exceed it is rejected with
    [Queue is full]. *)
Theorem queue_bounded st : reachable st -> (length (requestQueue st) <= MAX_QUEUE_SIZE)%nat.
Proof. intros H. exact (q_bound _ (inv_q _ (reachable_Inv st H))). Qed.

Lemma queue_bounded_witness : (length (requestQueue (after (take 3 demo_events))) <= MAX_QUEUE_SIZE)%nat.
Proof. apply queue_bounded. reach. Defined.

(** [C29] Rate limit: two successive requests to the geocoding service
    start at least [MIN_REQUEST_INTERVAL] = 500 ms apart. *)
Theorem requests_spaced st (i : nat) (a b : Z) :
  reachable st -> requestTimes st !! i = Some a -> requestTimes st !! S i = Some b ->
  a + MIN_REQUEST_INTERVAL <= b.
Proof.
  intros H. apply spaced_lookup, (spaced_tail 0), (q_spaced _ (inv_q _ (reachable_Inv st H))).
Qed.

Lemma requests_spaced_witness :
  requestTimes (after demo_events) = [1000; 1500] /\ 1000 + MIN_REQUEST_INTERVAL <= 1500.
Proof.
  split; [vm_compute; reflexivity|].
  apply (requests_spaced (after demo_events) 0); [reach | vm_compute; reflexivity..].
Defined.

(** [C30] No caller waits forever: a promise [reverseGeocodeWithRateLimit]
    returned that has not settled has its 30-second timer armed, and once
    that time has come the timer's event is enabled and settles it. *)
Theorem pending_call_settles st (id : nat) :
  reachable st -> In id (callers st) -> isSettled id st = false ->
  exists d, forall now, clock st <= now -> d <= now ->
    exists st', step st (CallTimeout id now) = Some st' /\ isSettled id st' = true.
Proof.
  intros Hr Hin Hns. destruct (reachable_PromiseInv st Hr id Hin) as [Hs|(d0 & Hd0)]; [congruence|].
  destruct (find (fun t => Nat.eqb (fst t) id) (timers st)) as [[i d]|] eqn:Hf.
  - pose proof (find_some _ _ Hf) as [_ Hi]. simpl in Hi. apply Nat.eqb_eq in Hi as ->.
    exists d. intros now Hc Hd. simpl. rewrite Hf.
    destruct (Z.ltb_spec now (clock st)), (Z.ltb_spec now d); try lia. simpl.
    eexists; split; [reflexivity|]. rewrite isSettled_settle, Nat.eqb_refl. apply orb_true_r.
  - apply (find_none _ _ Hf) in Hd0. simpl in Hd0. by rewrite Nat.eqb_refl in Hd0.
Qed.

Lemma pending_call_settles_witness :
  exists d, forall now, clock (after (take 3 demo_events)) <= now -> d <= now ->
    exists st', step (after (take 3 demo_events)) (CallTimeout 1 now) = Some st' /\ isSettled 1 st' = true.
Proof. apply pending_call_settles; [reach | vm_compute; auto | reflexivity]. Defined.

(** [C31] The circuit breaker is open exactly when three requests in a
    row have timed out, the error count never exceeds three, and while
    the breaker is open the processor is idle with an empty queue. *)
Theorem breaker_state st :
  reachable st ->
  circuitBreakerOpen st = (MAX_CONSECUTIVE_ERRORS <=? consecutiveErrors st)%nat /\
  (consecutiveErrors st <= MAX_CONSECUTIVE_ERRORS)%nat /\
  (circuitBreakerOpen st = true -> suspension st = Idle /\ requestQueue st = []).
Proof.
  intros H. pose proof (reachable_Inv st H) as Hi.
  split_and!; [exact (q_breaker _ (inv_q _ Hi)) | exact (q_errors _ (inv_q _ Hi))|].
  intros Hb. pose proof (inv_breaker_idle _ Hi Hb) as Hs. split; [exact Hs | exact (inv_idle _ Hi Hs)].
Qed.

Lemma breaker_state_witness :
  circuitBreakerOpen (after breaker_events) = true /\
  circuitBreakerOpen (after breaker_events) = (MAX_CONSECUTIVE_ERRORS <=? consecutiveErrors (after breaker_events))%nat /\
  (consecutiveErrors (after breaker_events) <= MAX_CONSECUTIVE_ERRORS)%nat /\
  (circuitBreakerOpen (after breaker_events) = true ->
   suspension (after breaker_events) = Idle /\ requestQueue (after breaker_events) = []).
Proof. split; [vm_compute; reflexivity | apply breaker_state; reach]. Defined.

(** [C32] [isProcessingQueue] is set exactly while a request is in
    flight or waiting for the rate limit; when nothing is, the queue is
    empty; and no two queued requests share a cache key (a call for a
    queued key joins that request). *)
Theorem processor_state st :
  reachable st ->
  isProcessingQueue st = running (suspension st) /\
  (suspension st = Idle -> requestQueue st = []) /\
  NoDup (map rkey (requestQueue st)).
Proof.
  intros H. pose proof (reachable_Inv st H) as Hi.
  split_and!; [exact (inv_processing _ Hi) | exact (inv_idle _ Hi) | exact (q_keys _ (inv_q _ Hi))].
Qed.

Lemma processor_state_witness :
  length (callbacks (hd (mkRequest 0 0 ((false, 0%Z), (false, 0%Z)) []) (requestQueue (after (take 3 demo_events))))) = 2%nat /\
  isProcessingQueue (after (take 3 demo_events)) = running (suspension (after (take 3 demo_events))) /\
  (suspension (after (take 3 demo_events)) = Idle -> requestQueue (after (take 3 demo_events)) = []) /\
  NoDup (map rkey (requestQueue (after (take 3 demo_events)))).
Proof. split; [vm_compute; reflexivity | apply processor_state; reach]. Defined.


(** [C33] When the third request in a row times out, the breaker opens,
    the queue is emptied and the processor stops, but the callers of the
    request that timed out are not settled: each is left to its own
    30-second timer.  Lines 510-528 reject only the queued callbacks;
    the current [callbacks] are rejected only in the [else] branch. *)
Theorem breaker_strands_current st r count fid startedAt now st' :
  suspension st = Racing r count fid startedAt -> consecutiveErrors st = 2%nat ->
  step st (RaceTimeout now) = Some st' ->
  circuitBreakerOpen st' = true /\ suspension st' = Idle /\ requestQueue st' = [] /\
  forall id, In id (callbacks r) -> ~ In id (concat (map callbacks (requestQueue st))) ->
    isSettled id st' = isSettled id st.
Proof.
  intros Hsu He Hs. simpl in Hs. rewrite Hsu in Hs. destruct (_ || _); [done|]. injection Hs as <-.
  match goal with |- context [onError r count now ?s] =>
    destruct (onError_opens r count now s He) as (Hb & Hi & Hq & Hset) end.
  split_and!; [exact Hb | exact Hi | exact Hq|]. intros id _ Hid. exact (Hset id Hid).
Qed.

Lemma breaker_strands_current_witness :
  isSettled 2 (after (take 5 breaker_events)) = false /\
  circuitBreakerOpen (after breaker_events) = true /\ suspension (after breaker_events) = Idle /\
  requestQueue (after breaker_events) = [] /\
  forall id, In id [2%nat] -> ~ In id (concat (map callbacks (requestQueue (after (take 5 breaker_events))))) ->
    isSettled id (after breaker_events) = isSettled id (after (take 5 breaker_events)).
Proof.
  split; [vm_compute; reflexivity|].
  apply (breaker_strands_current _ (mkRequest 3 3 (cacheKey 3 3) [2%nat]) 1 2 33000 48000);
    vm_compute; reflexivity.
Defined.

(** [C34] A failed lookup is cached for good: when a fetch completes
    with no name (an HTTP or network error, an error answer, or no usable
    name: lines 52, 308 and 315 all store [null]), the cache holds
    [null] for its key, the error counter is reset as after a success,
    and every later call for that key, while the breaker is closed,
    resolves to [null] at once without a new request. *)
Theorem failed_fetch_cached st fid now st' :
  step st (FetchDone fid None now) = Some st' ->
  exists key, In (fid, key) (pendingFetches st) /\ assoc_get key (geocodingCache st') = Some None /\
  (forall r c t, suspension st = Racing r c fid t -> consecutiveErrors st' = 0%nat) /\
  forall id lat lon now', cacheKey lat lon = key -> circuitBreakerOpen st' = false ->
    reverseGeocodeWithRateLimit id lat lon now' st' =
    settle id (Resolved None) {| st' with callers := callers st' ++ [id] |}.
Proof.
  intros Hs. simpl in Hs. destruct (now <? clock st); [done|].
  destruct (find _ _) as [[f key]|] eqn:Hf; [|done].
  pose proof (find_some _ _ Hf) as [Hin Hfe]. simpl in Hfe. apply Nat.eqb_eq in Hfe as ->.
  exists key. split; [done|].
  assert (H1 : geocodingCache st' = assoc_set key None (geocodingCache st) /\
               forall r c t, suspension st = Racing r c fid t -> consecutiveErrors st' = 0%nat).
  { simpl in Hs. destruct (suspension st) as [| |r c f' t] eqn:Hsu;
      [| | destruct (Nat.eqb_spec fid f') as [<-|Hne]];
      injection Hs as <-; try (split; [done | intros ? ? ? [=]; congruence]).
    split; [exact (f_equal (fun x => fst (fst x)) (onSuccess_loopFrame _ _ _ _ _))|].
    intros; exact (f_equal (fun x => snd (fst x)) (onSuccess_loopFrame _ _ _ _ _)). }
  destruct H1 as [Hc He]. split; [rewrite Hc; apply assoc_get_set_eq|]. split; [exact He|].
  intros id lat lon now' Hk Hb. unfold reverseGeocodeWithRateLimit. cbn [circuitBreakerOpen geocodingCache].
  rewrite Hb. cbn [andb geocodingCache]. rewrite Hk, Hc, assoc_get_set_eq. reflexivity.
Qed.

Lemma failed_fetch_cached_witness :
  exists key, In (1%nat, key) (pendingFetches (after (take 5 demo_events))) /\
  assoc_get key (geocodingCache (after (take 6 demo_events))) = Some None /\
  (forall r c t, suspension (after (take 5 demo_events)) = Racing r c 1 t ->
     consecutiveErrors (after (take 6 demo_events)) = 0%nat) /\
  forall id lat lon now', cacheKey lat lon = key -> circuitBreakerOpen (after (take 6 demo_events)) = false ->
    reverseGeocodeWithRateLimit id lat lon now' (after (take 6 demo_events)) =
    settle id (Resolved None)
      {| (after (take 6 demo_events)) with callers := callers (after (take 6 demo_events)) ++ [id] |}.
Proof. apply (failed_fetch_cached _ 1 1700). vm_compute. reflexivity. Defined.
