(* ===== verification/GeoCache.v ===== *)
(** * The geocoding cache and the legacy rate limiter

    The [Map] [geocodingCache] of [src/src/geocoding.js] (line 6), read by
    [getGeoccodingCacheStats] (lines 592-597), and the unused
    [legacyReverseGeocodeWithRateLimit] (lines 567-580), over the state of
    [GeoQueue].

    The cache is the association list [geocodingCache] of [GState], in
    insertion order as a [Map] iterates; the statistics are its length
    and its keys.

    [legacyReverseGeocodeWithRateLimit] is neither exported nor called.
    It runs as two macrotasks: the call computes how long to sleep, and
    the resumption sets [lastRequestTime] and calls [reverseGeocode],
    which answers from the cache or starts a fetch.  The theorem shows
    that the request never starts less than [MIN_REQUEST_INTERVAL] after
    the previous one, although the comment of line 566 calls the
    function not rate limited. *)

From stdpp Require Import base list options.
From Stdlib Require Import ZArith QArith Lia.
From Stdlib Require String.
From S2P Require Import Prelude GeoKey GeoQueue.
Local Open Scope Z_scope.

(** ** [getGeoccodingCacheStats] *)

(** [{ size, keys }]. *)
Record CacheStats := mkStats {
  size : nat;
  keys : list CacheKey
}.

(** Lines 592-597: [geocodingCache.size] and
    [Array.from(geocodingCache.keys())], in insertion order. *)
Definition getGeoccodingCacheStats (st : GState) : CacheStats :=
  mkStats (length (geocodingCache st)) (map fst (geocodingCache st)).

(** ** [legacyReverseGeocodeWithRateLimit] *)

(** Lines 568-576: how long the call sleeps before its request. *)
Definition legacyWait (now : Z) (st : GState) : Z :=
  let timeSinceLastRequest := now - lastRequestTime st in
  if timeSinceLastRequest <? MIN_REQUEST_INTERVAL
  then MIN_REQUEST_INTERVAL - timeSinceLastRequest else 0.

(** Lines 578-579 at time [now]: [lastRequestTime = Date.now()] and
    [originalReverseGeocode(lat, lon)], which returns the cached answer
    (line 22) or starts a fetch; [Some answer] in the first case. *)
Definition legacyResume (lat lon : Q) (now : Z) (st : GState) : GState * option (option String.string) :=
  let st := {| st with lastRequestTime := now; requestTimes := requestTimes st ++ [now] |} in
  match assoc_get (cacheKey lat lon) (geocodingCache st) with
  | Some cached => (st, Some cached)
  | None => ({| st with pendingFetches := pendingFetches st ++ [(nextFetchId st, cacheKey lat lon)];
                        nextFetchId := S (nextFetchId st) |}, None)
  end.

(** ** Properties *)

(** The legacy function is rate limited: when it resumes no earlier than
    its timer allows, its request starts at least [MIN_REQUEST_INTERVAL]
    after the previous one, and a call made after the interval does not
    sleep at all. *)
Theorem legacy_rate_limited lat lon now t st st' answer :
  now + legacyWait now st <= t -> legacyResume lat lon t st = (st', answer) ->
  lastRequestTime st + MIN_REQUEST_INTERVAL <= lastRequestTime st' /\
  (lastRequestTime st + MIN_REQUEST_INTERVAL <= now -> legacyWait now st = 0).
Proof.
  unfold legacyWait, legacyResume. intros Ht Hr.
  assert (Hl : lastRequestTime st' = t) by (destruct (assoc_get _ _); by injection Hr as <-).
  rewrite Hl. destruct (Z.ltb_spec (now - lastRequestTime st) MIN_REQUEST_INTERVAL); lia.
Qed.
